(** * smartbch: reconstruction of the internal call stack of a transaction

    Shallow embedding of [buildCallStack] (rpc/api/internal_calls_test.go)
    and of the path labelling and receipt projection that the expected
    outputs of [TestInternalTxCalls] and [TestGetTransactionReceipt]
    exercise.

    Go pointers [*CallStackNode] are indices into an explicit heap of
    node cells: [buildCallStack] links a node into its parent's [Calls]
    and keeps mutating it through the pointer held on the stack, so the
    sharing is part of the model.

    The file also embeds the debug API of rpc/api/debug_api.go: the
    statistics [GetStats] caches for [StatusUpdateInterval] seconds, with
    the clock, the Go runtime and the operating system as inputs, and
    [castValidatorOnlineInfos]. *)

From Stdlib Require Import ZArith Lia Sorted.
From Stdlib.Strings Require Import String Ascii Byte.
From Stdlib Require Import Hexadecimal HexadecimalString HexadecimalN DecimalString.
From stdpp Require Import base tactics option list.

Local Open Scope Z_scope.

(** ** Machine integers *)

(** Go's [int32] arithmetic wraps around. *)
Definition wrap32 (z : Z) : Z := (z + 2 ^ 31) mod 2 ^ 32 - 2 ^ 31.

Definition int32 (z : Z) : Prop := - 2 ^ 31 <= z < 2 ^ 31.

(** ** Panics *)

(** [buildCallStack] has no error result: it either returns or panics,
    with the explicit [panic(fmt.Errorf(...))] of the loop body, or with
    the run-time error of an index out of range. [NilDereference] is the
    run-time error of a dangling pointer; the heap model needs it to be
    total, no run of [buildCallStack] reaches it. *)
Inductive panic : Type :=
| DepthError (lastNodeDepth callDepth : Z)
| IndexOutOfRange
| NilDereference.

Inductive result (A : Type) : Type :=
| Ok (a : A)
| Panic (e : panic).
Arguments Ok {A} a.
Arguments Panic {A} e.

#[global] Instance result_ret : MRet result := fun A a => Ok a.

#[global] Instance result_bind : MBind result := fun A B k r =>
  match r with
  | Ok a => k a
  | Panic e => Panic e
  end.

Definition isPanic {A} (r : result A) : bool :=
  match r with
  | Ok _ => false
  | Panic _ => true
  end.

(** ** Trace events *)

Definition Address : Type := list byte.
Definition Bytes : Type := list byte.

(** The call kinds the path labelling distinguishes. *)
Inductive CallKind : Type :=
| CALL
| STATICCALL.

(** The event types of package [motypes]; their declarations are outside
    this repository. [buildCallStack] reads [Depth], [Sender],
    [Destination] and [Input] of a call and [Output], [GasLeft] and
    [StatusCode] of a return. *)
Module motypes.

(** Modelled from the spec: the fields [Kind] (the call-kind tag of a
    CallEvent) and [Gas] (gas available at call entry, when tracked);
    the declaration of [InternalTxCall] is not part of the sources. *)
Record InternalTxCall : Type := {
  Kind : CallKind;
  Depth : Z;               (* int32 *)
  Gas : option Z;
  Destination : Address;
  Sender : Address;
  Input : Bytes
}.

Record InternalTxReturn : Type := {
  Output : Bytes;
  GasLeft : Z;             (* int64 *)
  StatusCode : Z           (* int *)
}.

Record Transaction : Type := {
  InternalTxCalls : list InternalTxCall;
  InternalTxReturns : list InternalTxReturn
}.

End motypes.

(** ** Call stack nodes *)

(** A pointer [*CallStackNode] is the index of a cell of the heap. *)
Abbreviation ptr := nat (only parsing).

Record CallStackNode : Type := {
  depth : Z;                 (* int32 *)
  From : Address;
  To : Address;
  Input : Bytes;
  Output : Bytes;
  StatusCode : Z;
  GasLeft : Z;
  Calls : list ptr           (* []*CallStackNode *)
}.

(** The state [buildCallStack] works on: the allocated nodes, the local
    slice [nodes] (the stack of open calls, top last) and the
    transaction behind the pointer [tx]. *)
Record Machine : Type := {
  heap : list CallStackNode;
  nodes : list ptr;
  tx : motypes.Transaction
}.

(** [&CallStackNode{depth: call.Depth, From: call.Sender, To:
    call.Destination, Input: call.Input}]: the other fields are zero. *)
Definition newNode (call : motypes.InternalTxCall) : CallStackNode :=
  {| depth := motypes.Depth call;
     From := motypes.Sender call;
     To := motypes.Destination call;
     Input := motypes.Input call;
     Output := [];
     StatusCode := 0;
     GasLeft := 0;
     Calls := [] |}.

Definition alloc (n : CallStackNode) (m : Machine) : ptr * Machine :=
  (length (heap m),
   {| heap := heap m ++ [n]; nodes := nodes m; tx := tx m |}).

Definition deref (m : Machine) (p : ptr) : result CallStackNode :=
  match heap m !! p with
  | Some n => Ok n
  | None => Panic NilDereference
  end.

(** [nodes = append(nodes, p)] *)
Definition push (p : ptr) (m : Machine) : Machine :=
  {| heap := heap m; nodes := nodes m ++ [p]; tx := tx m |}.

(** [nodes = nodes[:len(nodes)-1]] *)
Definition pop (m : Machine) : Machine :=
  {| heap := heap m;
     nodes := take (length (nodes m) - 1) (nodes m);
     tx := tx m |}.

(** [p.Calls = append(p.Calls, c)] *)
Definition addCall (c : ptr) (n : CallStackNode) : CallStackNode :=
  {| depth := depth n; From := From n; To := To n; Input := Input n;
     Output := Output n; StatusCode := StatusCode n; GasLeft := GasLeft n;
     Calls := Calls n ++ [c] |}.

Definition appendCall (p c : ptr) (m : Machine) : Machine :=
  {| heap := alter (addCall c) p (heap m);
     nodes := nodes m;
     tx := tx m |}.

(** [p.Output = ret.Output; p.GasLeft = ret.GasLeft;
     p.StatusCode = ret.StatusCode] *)
Definition setReturn (ret : motypes.InternalTxReturn) (n : CallStackNode)
  : CallStackNode :=
  {| depth := depth n; From := From n; To := To n; Input := Input n;
     Output := motypes.Output ret;
     StatusCode := motypes.StatusCode ret;
     GasLeft := motypes.GasLeft ret;
     Calls := Calls n |}.

Definition resolve (p : ptr) (ret : motypes.InternalTxReturn) (m : Machine)
  : Machine :=
  {| heap := alter (setReturn ret) p (heap m);
     nodes := nodes m;
     tx := tx m |}.

(** [ret := tx.InternalTxReturns[0];
     tx.InternalTxReturns = tx.InternalTxReturns[1:]]: the field of the
    transaction is re-sliced, so the caller's transaction loses the
    event. *)
Definition takeReturn (m : Machine)
  : result (motypes.InternalTxReturn * Machine) :=
  match motypes.InternalTxReturns (tx m) with
  | [] => Panic IndexOutOfRange
  | ret :: rest =>
      Ok (ret,
          {| heap := heap m;
             nodes := nodes m;
             tx := {| motypes.InternalTxCalls := motypes.InternalTxCalls (tx m);
                      motypes.InternalTxReturns := rest |} |})
  end.

(** [nodes[len(nodes)-1]] *)
Definition lastNodeOf (m : Machine) : result ptr :=
  match last (nodes m) with
  | Some p => Ok p
  | None => Panic IndexOutOfRange
  end.

(** The inner loop [for i := int32(0); i <= n; i++ { ... }] of the branch
    "last calls return", by the number of iterations left. *)
Fixpoint returnLoop (iters : nat) (lastNode : ptr) (m : Machine)
  : result (ptr * Machine) :=
  match iters with
  | O => Ok (lastNode, m)
  | S iters' =>
      '(lastRet, m) ← takeReturn m;
      let m := resolve lastNode lastRet m in
      let m := pop m in
      lastNode ← lastNodeOf m;
      returnLoop iters' lastNode m
  end.

(** [i] runs from 0 to [n]: no iteration when [n] is negative, [n + 1]
    otherwise. (For [n = 2^31 - 1] the Go loop has no bound, as [i++]
    wraps; each iteration pops a node, so it panics once the stack is
    empty, as [n + 1] iterations do on any stack of fewer nodes.) *)
Definition iterations (n : Z) : nat := Z.to_nat (n + 1).

(** The body of [for _, call := range tx.InternalTxCalls]. *)
Definition loopBody (call : motypes.InternalTxCall) (m : Machine)
  : result Machine :=
  let '(newNode, m) := alloc (newNode call) m in
  match last (nodes m) with
  | None => (* first call *)
      Ok (push newNode m)
  | Some lastNode =>
      ln ← deref m lastNode;
      if motypes.Depth call =? wrap32 (depth ln + 1) then (* new call *)
        Ok (push newNode (appendCall lastNode newNode m))
      else if motypes.Depth call <=? depth ln then (* last calls return *)
        let n := wrap32 (depth ln - motypes.Depth call) in
        '(lastNode, m) ← returnLoop (iterations n) lastNode m;
        Ok (push newNode (appendCall lastNode newNode m))
      else
        Panic (DepthError (depth ln) (motypes.Depth call))
  end.

Fixpoint rangeLoop (calls : list motypes.InternalTxCall) (m : Machine)
  : result Machine :=
  match calls with
  | [] => Ok m
  | call :: calls' => m ← loopBody call m; rangeLoop calls' m
  end.

(** [for len(nodes) > 0 { ... }]: every iteration removes one node, so
    [length (nodes m)] iterations empty the stack. *)
Fixpoint drainLoop (iters : nat) (m : Machine) : result Machine :=
  match iters with
  | O => Ok m
  | S iters' =>
      match last (nodes m) with
      | None => Ok m
      | Some node =>
          let m := pop m in
          '(ret, m) ← takeReturn m;
          drainLoop iters' (resolve node ret m)
      end
  end.

Definition buildCallStack (t : motypes.Transaction) : result (ptr * Machine) :=
  m ← rangeLoop (motypes.InternalTxCalls t)
        {| heap := []; nodes := []; tx := t |};
  match nodes m !! 0%nat with
  | None => Panic IndexOutOfRange
  | Some node0 =>
      m ← drainLoop (length (nodes m)) m;
      Ok (node0, m)
  end.

(** ** Reading the result *)

#[local] Set Warnings "-register-all".

(** What a reader of the returned pointer sees (what
    [testutils.ToPrettyJSON] prints): the node and, under [Calls], the
    nodes its pointers lead to. *)
Inductive CallStack : Type :=
| CallStackOf (n : CallStackNode) (calls : list CallStack).

Definition root (t : CallStack) : CallStackNode :=
  match t with CallStackOf n _ => n end.

Fixpoint load (fuel : nat) (h : list CallStackNode) (p : ptr)
  : option CallStack :=
  match fuel with
  | O => None
  | S fuel' =>
      match h !! p with
      | None => None
      | Some n =>
          match mapM (load fuel' h) (Calls n) with
          | None => None
          | Some cs => Some (CallStackOf n cs)
          end
      end
  end.

(** The tree behind the pointer [buildCallStack] returns; no chain of
    pointers is longer than the heap. *)
Definition builtTree (t : motypes.Transaction) : result (option CallStack) :=
  '(node0, m) ← buildCallStack t;
  Ok (load (length (heap m)) (heap m) node0).

Fixpoint preorder (t : CallStack) : list CallStackNode :=
  match t with
  | CallStackOf n cs => n :: flat_map preorder cs
  end.

Fixpoint depthsOf (t : CallStack) : list Z :=
  match t with
  | CallStackOf n cs => depth n :: flat_map depthsOf cs
  end.

(** ** Hexadecimal rendering *)

Local Open Scope string_scope.

(** [hextable] of Go's [encoding/hex]. *)
Definition hextable : string := "0123456789abcdef".

Definition hexDigit (n : N) : ascii :=
  match String.get (N.to_nat n) hextable with
  | Some c => c
  | None => "f"%char
  end.

(** [fromHexChar] of Go's [encoding/hex], on the code of the character. *)
Definition hexValue (c : ascii) : option N :=
  let n := N_of_ascii c in
  if (48 <=? n)%N && (n <=? 57)%N then Some (n - 48)%N
  else if (97 <=? n)%N && (n <=? 102)%N then Some (n - 87)%N
  else if (65 <=? n)%N && (n <=? 70)%N then Some (n - 55)%N
  else None.

Definition byteOfN (n : N) : byte :=
  match Byte.of_N n with
  | Some b => b
  | None => x00
  end.

(** The text of a byte string ([hexutil.Bytes]) without the prefix. *)
Fixpoint hexOfBytes (b : list byte) : string :=
  match b with
  | [] => ""
  | x :: b' =>
      String (hexDigit (Byte.to_N x / 16))
        (String (hexDigit (Byte.to_N x mod 16)) (hexOfBytes b'))
  end.

Fixpoint bytesOfHex (s : string) : option (list byte) :=
  match s with
  | "" => Some []
  | String hi (String lo s') =>
      match hexValue hi, hexValue lo, bytesOfHex s' with
      | Some h, Some l, Some b => Some (byteOfN (16 * h + l) :: b)
      | _, _, _ => None
      end
  | String _ "" => None
  end.

(** [hexutil.Encode]: a byte string as 0x-prefixed hexadecimal. *)
Definition encodeBytes (b : list byte) : string := "0x" ++ hexOfBytes b.

(** [hexutil.EncodeUint64]: an integer as 0x-prefixed hexadecimal without
    leading zeros (["0x0"] for zero). *)
Definition encodeUint (z : Z) : string :=
  "0x" ++ HexadecimalString.NilZero.string_of_uint (N.to_hex_uint (Z.to_N z)).


(** The hexadecimal literals of the tests ([testutils.HexToBytes]); a
    literal that is not hexadecimal reads as the empty byte string. *)
Definition HexToBytes (s : string) : list byte :=
  match s with
  | String "0" (String "x" digits) => default [] (bytesOfHex digits)
  | _ => default [] (bytesOfHex s)
  end.

(** ** Path labelling and receipt projection *)

(** Modelled from the spec: the CallNode of section 3, a call stack node
    together with the call-kind tag and the entry gas of its CallEvent.
    The code that labels and flattens the tree for
    [GetTransactionReceipt] is not part of the sources. *)
Inductive CallNode : Type :=
| CallNodeOf (kind : CallKind) (gas : option Z) (n : CallStackNode)
    (calls : list CallNode).

(** Modelled from the spec: CallEvents and the nodes of the built tree
    correspond in pre-order, so the tags of the events are attached to
    the nodes in that order. Returns the tagged tree and the events left
    over. *)
Fixpoint tagNode (t : CallStack) (calls : list motypes.InternalTxCall)
  : CallNode * list motypes.InternalTxCall :=
  match t with
  | CallStackOf n cs =>
      let kind := from_option motypes.Kind CALL (head calls) in
      let gas := from_option motypes.Gas None (head calls) in
      let '(cs', rest) :=
        (fix tagNodes (cs : list CallStack)
             (calls : list motypes.InternalTxCall) :=
           match cs with
           | [] => ([], calls)
           | c :: cs =>
               let '(c', calls) := tagNode c calls in
               let '(cs', calls) := tagNodes cs calls in
               (c' :: cs', calls)
           end) cs (tail calls) in
      (CallNodeOf kind gas n cs', rest)
  end.

(** The inner loop of [tagNode], over the children of a node. *)
Definition tagNodes (cs : list CallStack) (calls : list motypes.InternalTxCall)
  : list CallNode * list motypes.InternalTxCall :=
  (fix tagNodes (cs : list CallStack) (calls : list motypes.InternalTxCall) :=
     match cs with
     | [] => ([], calls)
     | c :: cs =>
         let '(c', calls) := tagNode c calls in
         let '(cs', calls) := tagNodes cs calls in
         (c' :: cs', calls)
     end) cs calls.

Definition kindPrefix (k : CallKind) : string :=
  match k with
  | CALL => "call"
  | STATICCALL => "staticcall"
  end.

(** The path with its kind prefix stripped: what follows the first
    underscore. *)
Fixpoint stripKind (path : string) : string :=
  match path with
  | "" => ""
  | String c rest => if Ascii.eqb c "_" then rest else stripKind rest
  end.

Definition decimal (i : nat) : string :=
  DecimalString.NilZero.string_of_uint (Nat.to_uint i).

(** Modelled from the spec (section 4.2): the path of the child at
    ordinal [i] of a parent with path [P] is ["<kind>_<P-suffix>_i"]. *)
Definition childPath (parent : string) (i : nat) (k : CallKind) : string :=
  kindPrefix k ++ "_" ++ stripKind parent ++ "_" ++ decimal i.

Definition kindOf (t : CallNode) : CallKind :=
  match t with CallNodeOf k _ _ _ => k end.

Record LabeledCallRecord : Type := {
  callPath : string;
  from : string;
  to : string;
  gas : option string;
  value : string;
  input : string;
  status : string;
  gasUsed : option string;
  output : string
}.

(** Modelled from the spec (section 4.3): the record of one node. Gas
    used is entry gas minus the gas left at return; without entry gas
    both [gas] and [gasUsed] are left out. *)
Definition projectNode (path : string) (g : option Z) (n : CallStackNode)
  : LabeledCallRecord :=
  {| callPath := path;
     from := encodeBytes (From n);
     to := encodeBytes (To n);
     gas := encodeUint <$> g;
     value := "0x0";
     input := encodeBytes (Input n);
     status := encodeUint (StatusCode n);
     gasUsed := (fun g => encodeUint (g - GasLeft n)) <$> g;
     output := encodeBytes (Output n) |}.

(** Modelled from the spec (sections 4.2 and 4.3): pre-order walk that
    labels every node and emits its record. *)
Fixpoint flatten (path : string) (t : CallNode) : list LabeledCallRecord :=
  match t with
  | CallNodeOf _ g n cs =>
      projectNode path g n ::
      (fix walk (i : nat) (cs : list CallNode) :=
         match cs with
         | [] => []
         | c :: cs =>
             (flatten (childPath path i (kindOf c)) c ++ walk (S i) cs)%list
         end) 0%nat cs
  end.


(** Modelled from the spec: the [internalTransactions] field of a
    receipt. The root is labelled ["call_0"] whatever its tag; a
    transaction without internal calls yields the empty list. *)
Definition internalTransactions (calls : list motypes.InternalTxCall)
    (t : option CallStack) : list LabeledCallRecord :=
  match t with
  | None => []
  | Some t => flatten "call_0" (tagNode t calls).1
  end.

(** ** The transaction of the tests *)

Module Fixture.

Definition sender := HexToBytes "0x6db26a33492ccc4006599ed88b569c0b13c5d17a".
Definition contract1 := HexToBytes "0xe32d21f68654d87a4aad8c80616db99d95dde0f1".
Definition contract2 := HexToBytes "0xa8115c4df61f9fb1e686d1692cd53fa4d4ced237".
Definition contract3 := HexToBytes "0x0eefec15be847ced628df09459cb9b8492337210".

Definition call (k : CallKind) (d g : Z) (src dst : Address) (data : string)
  : motypes.InternalTxCall :=
  {| motypes.Kind := k; motypes.Depth := d; motypes.Gas := Some g;
     motypes.Destination := dst; motypes.Sender := src;
     motypes.Input := HexToBytes data |}.

Definition ret (data : string) (g : Z) : motypes.InternalTxReturn :=
  {| motypes.Output := HexToBytes data; motypes.GasLeft := g;
     motypes.StatusCode := 0 |}.

(** [moTx4]: [contract1.call2()] calls [contract2.call3()] twice, which
    calls [contract3.callMe()] twice each time. *)
Definition moTx4 : motypes.Transaction :=
  {| motypes.InternalTxCalls :=
       [ call CALL 0 0xeef6c sender contract1
           "0xa11a1f360000000000000000000000000000000000000000000000000000000000000100";
         call CALL 1 0xe571e contract1 contract2
           "0xa27eaec20000000000000000000000000000000000000000000000000000000000000101";
         call CALL 2 0xdc147 contract2 contract3
           "0xe73620c30000000000000000000000000000000000000000000000000000000000000102";
         call STATICCALL 2 0xd62ad contract2 contract3
           "0x09010e930000000000000000000000000000000000000000000000000000000000000103";
         call CALL 1 0xd8c25 contract1 contract2
           "0xa27eaec20000000000000000000000000000000000000000000000000000000000000105";
         call CALL 2 0xd434e contract2 contract3
           "0xe73620c30000000000000000000000000000000000000000000000000000000000000106";
         call STATICCALL 2 0xd2e88 contract2 contract3
           "0x09010e930000000000000000000000000000000000000000000000000000000000000107" ];
     motypes.InternalTxReturns :=
       [ ret "0x0000000000000000000000000000000000000000000001020000000000000000" 879854;
         ret "0x0000000000000000000000000000000000000000000001030000000000000000" 876640;
         ret "0x0000000000000000000000000000000000000000000001010000000000000000" 890032;
         ret "0x0000000000000000000000000000000000000000000001060000000000000000" 866805;
         ret "0x0000000000000000000000000000000000000000000001070000000000000000" 863291;
         ret "0x0000000000000000000000000000000000000000000001050000000000000000" 876471;
         ret "0x0000000000000000000000000000000000000000000001000000000000000000" 890031 ] |}.

(** What [buildCallStack moTx4] returns. *)
Definition built : nat * Machine :=
  Eval vm_compute in
    match buildCallStack moTx4 with
    | Ok r => r
    | Panic _ => (0%nat, {| heap := []; nodes := []; tx := moTx4 |})
    end.

(** The tree behind the pointer that [buildCallStack moTx4] returns. *)
Definition tree : CallStack :=
  Eval vm_compute in
    match builtTree moTx4 with
    | Ok (Some t) => t
    | _ => CallStackOf (newNode (call CALL 0 0 [] [] "0x")) []
    end.

(** The machine after the first four call events, when the stack holds
    the root, its first child and the second child of that child. *)
Definition afterFour : Machine :=
  Eval vm_compute in
    match rangeLoop (take 4 (motypes.InternalTxCalls moTx4))
            {| heap := []; nodes := []; tx := moTx4 |} with
    | Ok m => m
    | Panic _ => {| heap := []; nodes := []; tx := moTx4 |}
    end.

(** The fifth call event, at depth 1. *)
Definition fifth : motypes.InternalTxCall :=
  call CALL 1 0xd8c25 contract1 contract2
    "0xa27eaec20000000000000000000000000000000000000000000000000000000000000105".

(** A trace that skips a level: depths 0 and 2. *)
Definition skipping : motypes.Transaction :=
  {| motypes.InternalTxCalls :=
       [ call CALL 0 100 sender contract1 "0x";
         call CALL 2 50 contract1 contract2 "0x" ];
     motypes.InternalTxReturns := [ ret "0x" 10; ret "0x" 20 ] |}.

Definition afterFirst : Machine :=
  Eval vm_compute in
    match rangeLoop (take 1 (motypes.InternalTxCalls skipping))
            {| heap := []; nodes := []; tx := skipping |} with
    | Ok m => m
    | Panic _ => {| heap := []; nodes := []; tx := skipping |}
    end.

(** A trace outside the data model: its second depth is negative, the
    least [int32]. *)
Definition negativeDepth : motypes.Transaction :=
  {| motypes.InternalTxCalls :=
       [ call CALL 0 100 sender contract1 "0x";
         call CALL (- 2 ^ 31) 50 contract1 contract2 "0x" ];
     motypes.InternalTxReturns := [ ret "0x" 10; ret "0x" 20 ] |}.

(** The calls of the tests with the last return event missing. *)
Definition oneReturnShort : motypes.Transaction :=
  {| motypes.InternalTxCalls := motypes.InternalTxCalls moTx4;
     motypes.InternalTxReturns := take 6 (motypes.InternalTxReturns moTx4) |}.

End Fixture.


Local Close Scope string_scope.

(** ** Invariants of the builder *)

Definition returnsOf (m : Machine) : list motypes.InternalTxReturn :=
  motypes.InternalTxReturns (tx m).

(** What one closing call does to the machine, in the inner loop as in
    the final one: the top node takes the return at the front of the
    queue and leaves the stack. *)
Definition popResolve (m : Machine) : result Machine :=
  match last (nodes m) with
  | None => Panic IndexOutOfRange
  | Some q => '(r, m1) ← takeReturn m; Ok (pop (resolve q r m1))
  end.

Fixpoint popMany (k : nat) (m : Machine) : result Machine :=
  match k with
  | O => Ok m
  | S k' => m' ← popResolve m; popMany k' m'
  end.

(** The machine before the first call. *)
Definition start (t : motypes.Transaction) : Machine :=
  {| heap := []; nodes := []; tx := t |}.

(** The node cell was made from the call event. *)
Definition builtFrom (call : motypes.InternalTxCall) (n : CallStackNode) : Prop :=
  depth n = motypes.Depth call ∧ From n = motypes.Sender call ∧
  To n = motypes.Destination call ∧ Input n = motypes.Input call.


(** The pointers under a node, read through the heap. *)
Definition callsAt (h : list CallStackNode) (p : ptr) : option (list ptr) :=
  Calls <$> h !! p.

(** [span h p e]: the nodes reachable from [p] are exactly the cells
    [p, p+1, ..., e-1], and a pre-order walk from [p] meets them in that
    order; [spans h cs a e]: the same for a list of siblings laid out
    from [a] to [e]. *)
Inductive span (h : list CallStackNode) : ptr → nat → Prop :=
| span_node p cs e :
    callsAt h p = Some cs → spans h cs (S p) e → span h p e
with spans (h : list CallStackNode) : list ptr → nat → nat → Prop :=
| spans_nil a : spans h [] a a
| spans_cons c cs mid e :
    span h c mid → spans h cs mid e → spans h (c :: cs) c e.

Scheme span_mut := Minimality for span Sort Prop
  with spans_mut := Minimality for spans Sort Prop.

(** The open calls, root first: every node of the stack but the top has
    the next node of the stack as its last child, after children that
    are complete; the children of the top are complete and end at [e]. *)
Fixpoint spine (h : list CallStackNode) (s : list ptr) (e : nat) : Prop :=
  match s with
  | [] => True
  | p :: s' =>
      match s' with
      | [] => ∃ cs, callsAt h p = Some cs ∧ spans h cs (S p) e
      | q :: _ =>
          (∃ cs, callsAt h p = Some (cs ++ [q]) ∧ spans h cs (S p) q) ∧
          spine h s' e
      end
  end.

(** The part of the invariant that does not look at depths, for the
    events [seen] processed so far and the return queue [rets0] of the
    input; [e] is the number of nodes linked into the tree. *)
Record Shape (seen : list motypes.InternalTxCall)
    (rets0 : list motypes.InternalTxReturn) (e : nat) (m : Machine) : Prop := {
  shape_returns :
    ∃ j, returnsOf m = drop j rets0 ∧ (j + length (nodes m) = e)%nat ∧
         (j ≤ length rets0)%nat;
  shape_built : Forall2 builtFrom seen (heap m);
  shape_spine : spine (heap m) (nodes m) e;
  shape_root : ∀ p, head (nodes m) = Some p → p = 0%nat
}.

(** The open calls have consecutive depths from [d0] up. *)
Definition depthChain (h : list CallStackNode) (s : list ptr) (d0 : Z) : Prop :=
  ∀ i p, s !! i = Some p → ∃ n, h !! p = Some n ∧ depth n = d0 + Z.of_nat i.

(** Depths as the data model has them: non-negative [int32]. *)
Definition depthOK (d : Z) : Prop := 0 <= d < 2 ^ 31.

(** Every node under [Calls] is one level deeper than the node. *)
Definition childDepth (h : list CallStackNode) : Prop :=
  ∀ p n c, h !! p = Some n → c ∈ Calls n →
    ∃ nc, h !! c = Some nc ∧ depth nc = depth n + 1.

Inductive depthLinked : CallStack → Prop :=
| depthLinked_node n cs :
    Forall (λ c, depth (root c) = depth n + 1) cs →
    Forall depthLinked cs →
    depthLinked (CallStackOf n cs).

(** Depths of a trace as section 3 of the specification has them: the
    first call is at depth 0 and every later call is nested, at most one
    level deeper than the call before it. *)
Fixpoint nested (prev : Z) (depths : list Z) : Prop :=
  match depths with
  | [] => True
  | d :: depths' => 1 <= d <= prev + 1 ∧ nested d depths'
  end.

Definition wellFormed (t : motypes.Transaction) : Prop :=
  match motypes.Depth <$> motypes.InternalTxCalls t with
  | [] => False
  | d0 :: depths => d0 = 0 ∧ nested 0 depths
  end ∧
  Forall (λ c, motypes.Depth c < 2 ^ 31) (motypes.InternalTxCalls t) ∧
  length (motypes.InternalTxReturns t) = length (motypes.InternalTxCalls t).

(** The transaction with more events at the end of the return queue. *)
Definition withMoreReturns (extra : list motypes.InternalTxReturn)
    (t : motypes.Transaction) : motypes.Transaction :=
  {| motypes.InternalTxCalls := motypes.InternalTxCalls t;
     motypes.InternalTxReturns := motypes.InternalTxReturns t ++ extra |}.

Definition extend (extra : list motypes.InternalTxReturn) (m : Machine)
  : Machine :=
  {| heap := heap m; nodes := nodes m; tx := withMoreReturns extra (tx m) |}.

(** The machine once the node of [call] is allocated. *)
Definition allocated (call : motypes.InternalTxCall) (m : Machine) : Machine :=
  (alloc (newNode call) m).2.

(** How many open calls the event [call] closes when the top of the
    stack is the node [ln]. *)
Definition closes (call : motypes.InternalTxCall) (ln : CallStackNode) (k : nat)
  : Prop :=
  (motypes.Depth call = wrap32 (depth ln + 1) ∧ k = 0%nat) ∨
  (motypes.Depth call ≠ wrap32 (depth ln + 1) ∧ motypes.Depth call <= depth ln ∧
   k = iterations (wrap32 (depth ln - motypes.Depth call))).

(** The successful runs of the loop body. *)
Inductive bodyStep (call : motypes.InternalTxCall) (m : Machine)
  : Machine → Prop :=
| bodyStep_first :
    nodes m = [] →
    bodyStep call m (push (length (heap m)) (allocated call m))
| bodyStep_link p ln k m1 l :
    last (nodes m) = Some p →
    heap (allocated call m) !! p = Some ln →
    closes call ln k →
    popMany k (allocated call m) = Ok m1 →
    last (nodes m1) = Some l →
    bodyStep call m
      (push (length (heap m)) (appendCall l (length (heap m)) m1)).

(** The invariant between two events. *)
Definition Built (seen : list motypes.InternalTxCall)
    (rets0 : list motypes.InternalTxReturn) (m : Machine) : Prop :=
  Shape seen rets0 (length (heap m)) m ∧ (nodes m = [] → heap m = []).

(** Two cells that differ at most in the fields a return event sets. *)
Definition sameCall (n n' : CallStackNode) : Prop :=
  depth n' = depth n ∧ From n' = From n ∧ To n' = To n ∧
  Input n' = Input n ∧ Calls n' = Calls n.

Definition sameDepth (n n' : CallStackNode) : Prop := depth n' = depth n.

(** The part of the invariant that looks at depths. *)
Definition DepthInv (m : Machine) : Prop :=
  (∃ d0, depthChain (heap m) (nodes m) d0) ∧ childDepth (heap m).

Definition callDepthOK (call : motypes.InternalTxCall) : Prop :=
  depthOK (motypes.Depth call).

(** The node of [call] once it has the return [ret] and the children
    [calls]. *)
Definition resolvedNode (call : motypes.InternalTxCall)
    (ret : motypes.InternalTxReturn) (calls : list ptr) : CallStackNode :=
  {| depth := motypes.Depth call;
     From := motypes.Sender call;
     To := motypes.Destination call;
     Input := motypes.Input call;
     Output := motypes.Output ret;
     StatusCode := motypes.StatusCode ret;
     GasLeft := motypes.GasLeft ret;
     Calls := calls |}.

(** ** The order in which calls complete *)






(** ** Traces the builder accepts *)

(** The depths of the calls after the first, as the loop body takes
    them: every call is deeper than the first call, whose depth is [d0],
    and at most one level deeper than the call before it, whose depth is
    [prev]. *)
Fixpoint nestedUnder (d0 prev : Z) (depths : list Z) : bool :=
  match depths with
  | [] => true
  | d :: depths' => (d0 <? d) && (d <=? prev + 1) && nestedUnder d0 d depths'
  end.

(** Call events nested as the loop takes them: there is a first call,
    and the calls after it are nested under it. *)
Definition nestedCalls (calls : list motypes.InternalTxCall) : bool :=
  match motypes.Depth <$> calls with
  | [] => false
  | d0 :: depths => nestedUnder d0 d0 depths
  end.

(** The traces on which [buildCallStack] returns (for depths of the data
    model): nested call events, and one return event for every call. *)
Definition builds (t : motypes.Transaction) : bool :=
  nestedCalls (motypes.InternalTxCalls t) &&
  (length (motypes.InternalTxCalls t) <=? length (motypes.InternalTxReturns t))%nat.

(** The node on top of the stack is the node of the last event seen. *)
Definition topIsLast (seen : list motypes.InternalTxCall) (m : Machine) : Prop :=
  ∀ top, last (nodes m) = Some top → S top = length seen.

(** ** The debug API (rpc/api/debug_api.go) *)

(** Go's [int64] arithmetic wraps around. *)
Definition wrap64 (z : Z) : Z := (z + 2 ^ 63) mod 2 ^ 64 - 2 ^ 63.

Definition int64 (z : Z) : Prop := - 2 ^ 63 <= z < 2 ^ 63.

Definition uint64 (z : Z) : Prop := 0 <= z < 2 ^ 64.

(** The fields [updateStats] reads of [runtime.MemStats]. *)
Module runtime.

Record MemStats : Type := {
  Alloc : Z;               (* uint64 *)
  Sys : Z;                 (* uint64 *)
  NumGC : Z                (* uint32 *)
}.

End runtime.

(** The fields [updateStats] reads of the [memory.Stats] of go-osstat. *)
Module memory.

Record Stats : Type := {
  Total : Z;
  Used : Z;
  Cached : Z;
  Free : Z;
  Active : Z;
  Inactive : Z;
  SwapTotal : Z;
  SwapUsed : Z;
  SwapFree : Z             (* all uint64 *)
}.

End memory.

(** The structs [castValidatorOnlineInfos] reads. Their declarations are
    in package [stakingtypes], outside these sources. The loop reads the
    three fields of every element of [OnlineInfos] through
    [onlineInfo.Field]; the model takes the elements as pointers, as the
    type [ValidatorOnlineInfosToMarshal] that mirrors this one has them,
    [None] being the nil pointer, whose fields cannot be read. A slice
    of structs is the case where no element is [None]. *)
Module stakingtypes.

Record OnlineInfo : Type := {
  ValidatorConsensusAddress : Address;
  SignatureCount : Z;          (* int32 *)
  HeightOfLastSignature : Z    (* int64 *)
}.

Record ValidatorOnlineInfos : Type := {
  StartHeight : Z;             (* int64 *)
  OnlineInfos : list (option OnlineInfo)
}.

End stakingtypes.

Module debug_api.

Definition StatusUpdateInterval : Z := 60. (* seconds *)

Record Stats : Type := {
  NumGoroutine : Z;        (* int *)
  NumGC : Z;               (* uint32 *)
  MemAllocMB : Z;          (* uint64, as all the fields below *)
  MemSysMB : Z;
  OsMemTotalMB : Z;
  OsMemUsedMB : Z;
  OsMemCachedMB : Z;
  OsMemFreeMB : Z;
  OsMemActiveMB : Z;
  OsMemInactiveMB : Z;
  OsMemSwapTotalMB : Z;
  OsMemSwapUsedMB : Z;
  OsMemSwapFreeMB : Z;
  NumEthCall : Z
}.

(** The state of a [debugAPI] that [GetStats] reads and writes. The
    fields [logger] and [ethAPI] are left out: a line written to the log
    changes nothing here, and the counter [api.ethAPI.numCall] is read
    as a part of the world. *)
Record debugAPI : Type := {
  lastUpdateTime : Z;      (* int64 *)
  stats : Stats
}.

(** What one call of [GetStats] reads from outside the API object. *)
Record World : Type := {
  now : Z;                             (* time.Now().Unix(), int64 *)
  numGoroutine : Z;                    (* runtime.NumGoroutine() *)
  memStats : runtime.MemStats;         (* runtime.ReadMemStats(&memStats) *)
  osMemStats : option memory.Stats;    (* memory.Get(); None when err != nil *)
  numCall : Z                          (* atomic.LoadUint64(&api.ethAPI.numCall) *)
}.

(** [&debugAPI{logger: logger, ethAPI: ethAPI}]: the other fields are
    zero. *)
Definition newDebugAPI : debugAPI :=
  {| lastUpdateTime := 0;
     stats := {| NumGoroutine := 0; NumGC := 0; MemAllocMB := 0; MemSysMB := 0;
                 OsMemTotalMB := 0; OsMemUsedMB := 0; OsMemCachedMB := 0;
                 OsMemFreeMB := 0; OsMemActiveMB := 0; OsMemInactiveMB := 0;
                 OsMemSwapTotalMB := 0; OsMemSwapUsedMB := 0;
                 OsMemSwapFreeMB := 0; NumEthCall := 0 |} |}.

(** [n / 1024 / 1024] on [uint64]. *)
Definition toMB (n : Z) : Z := n / 1024 / 1024.

(** The fields of the operating system are assigned under
    [if err == nil]: when [memory.Get] fails each of them keeps the
    value [old] it has. *)
Definition updateStats (w : World) (api : debugAPI) : debugAPI :=
  let memStats := memStats w in
  let os (field : memory.Stats → Z) (old : Z) : Z :=
    match osMemStats w with
    | Some osMemStats => toMB (field osMemStats)
    | None => old
    end in
  {| lastUpdateTime := lastUpdateTime api;
     stats :=
       {| NumGoroutine := numGoroutine w;
          NumGC := runtime.NumGC memStats;
          MemAllocMB := toMB (runtime.Alloc memStats);
          MemSysMB := toMB (runtime.Sys memStats);
          OsMemTotalMB := os memory.Total (OsMemTotalMB (stats api));
          OsMemUsedMB := os memory.Used (OsMemUsedMB (stats api));
          OsMemCachedMB := os memory.Cached (OsMemCachedMB (stats api));
          OsMemFreeMB := os memory.Free (OsMemFreeMB (stats api));
          OsMemActiveMB := os memory.Active (OsMemActiveMB (stats api));
          OsMemInactiveMB := os memory.Inactive (OsMemInactiveMB (stats api));
          OsMemSwapTotalMB := os memory.SwapTotal (OsMemSwapTotalMB (stats api));
          OsMemSwapUsedMB := os memory.SwapUsed (OsMemSwapUsedMB (stats api));
          OsMemSwapFreeMB := os memory.SwapFree (OsMemSwapFreeMB (stats api));
          NumEthCall := numCall w |} |}.

(** [atomic.LoadInt64(&api.lastUpdateTime)] *)
Definition LoadInt64 (api : debugAPI) : Z := lastUpdateTime api.

(** [atomic.CompareAndSwapInt64(&api.lastUpdateTime, old, new)] *)
Definition CompareAndSwapInt64 (old new : Z) (api : debugAPI)
  : bool * debugAPI :=
  if lastUpdateTime api =? old
  then (true, {| lastUpdateTime := new; stats := stats api |})
  else (false, api).

(** [GetStats] from the point where [now] and [lastUpdateTime] are read:
    between [atomic.LoadInt64] and the compare-and-swap other callers
    may have run, so [api] need not hold [lastUpdateTime] any more. *)
Definition afterLoad (now lastUpdateTime : Z) (w : World) (api : debugAPI)
  : Stats * debugAPI :=
  let api :=
    if now >? wrap64 (lastUpdateTime + StatusUpdateInterval) then
      let '(swapped, api) := CompareAndSwapInt64 lastUpdateTime now api in
      if swapped then updateStats w api else api
    else api in
  (stats api, api).

(** A call of [GetStats] that no other call interleaves with. *)
Definition GetStats (w : World) (api : debugAPI) : Stats * debugAPI :=
  let now := now w in
  let lastUpdateTime := LoadInt64 api in
  afterLoad now lastUpdateTime w api.

(** Calls of [GetStats] one after the other: the values returned and
    the state left. *)
Fixpoint serve (ws : list World) (api : debugAPI) : list Stats * debugAPI :=
  match ws with
  | [] => ([], api)
  | w :: ws' =>
      let '(s, api) := GetStats w api in
      let '(ss, api) := serve ws' api in
      (s :: ss, api)
  end.

(** The stats [s] report the readings [w]; the figures of the operating
    system are those of [w] when [memory.Get] succeeded there. *)
Definition reports (w : World) (s : Stats) : Prop :=
  NumGoroutine s = numGoroutine w ∧
  NumGC s = runtime.NumGC (memStats w) ∧
  MemAllocMB s = toMB (runtime.Alloc (memStats w)) ∧
  MemSysMB s = toMB (runtime.Sys (memStats w)) ∧
  NumEthCall s = numCall w ∧
  ∀ os, osMemStats w = Some os →
    OsMemTotalMB s = toMB (memory.Total os) ∧
    OsMemUsedMB s = toMB (memory.Used os) ∧
    OsMemCachedMB s = toMB (memory.Cached os) ∧
    OsMemFreeMB s = toMB (memory.Free os) ∧
    OsMemActiveMB s = toMB (memory.Active os) ∧
    OsMemInactiveMB s = toMB (memory.Inactive os) ∧
    OsMemSwapTotalMB s = toMB (memory.SwapTotal os) ∧
    OsMemSwapUsedMB s = toMB (memory.SwapUsed os) ∧
    OsMemSwapFreeMB s = toMB (memory.SwapFree os).

(** The figures of the operating system in [s], in the order of the
    fields. *)
Definition osFigures (s : Stats) : list Z :=
  [ OsMemTotalMB s; OsMemUsedMB s; OsMemCachedMB s; OsMemFreeMB s;
    OsMemActiveMB s; OsMemInactiveMB s; OsMemSwapTotalMB s;
    OsMemSwapUsedMB s; OsMemSwapFreeMB s ].

(** *** Validator online infos *)

Record OnlineInfoToMarshal : Type := {
  ValidatorConsensusAddress : Address;
  SignatureCount : Z;          (* int32 *)
  HeightOfLastSignature : Z    (* int64 *)
}.

(** [OnlineInfos] is a slice of pointers, each to a struct of its own
    that nothing else refers to: [None] is the nil pointer. *)
Record ValidatorOnlineInfosToMarshal : Type := {
  StartHeight : Z;
  OnlineInfos : list (option OnlineInfoToMarshal)
}.

(** [s[i] = x], which panics when [i] is not below [len(s)]. *)
Definition store {A} (i : nat) (x : A) (s : list A) : result (list A) :=
  if decide (i < length s)%nat then Ok (<[i := x]> s)
  else Panic IndexOutOfRange.

(** [for i, onlineInfo := range infos.OnlineInfos { ... }], from index
    [i] on. The fields of [onlineInfo] are read before the element of
    the result is assigned: reading them through a nil pointer is the
    run-time error of a nil dereference. *)
Fixpoint castLoop (i : nat) (infos : list (option stakingtypes.OnlineInfo))
    (out : list (option OnlineInfoToMarshal))
  : result (list (option OnlineInfoToMarshal)) :=
  match infos with
  | [] => Ok out
  | None :: _ => Panic NilDereference
  | Some onlineInfo :: infos' =>
      out ← store i
        (Some {| ValidatorConsensusAddress :=
                   stakingtypes.ValidatorConsensusAddress onlineInfo;
                 SignatureCount := stakingtypes.SignatureCount onlineInfo;
                 HeightOfLastSignature :=
                   stakingtypes.HeightOfLastSignature onlineInfo |}) out;
      castLoop (S i) infos' out
  end.

Definition castValidatorOnlineInfos (infos : stakingtypes.ValidatorOnlineInfos)
  : result ValidatorOnlineInfosToMarshal :=
  (* make([]*OnlineInfoToMarshal, len(infos.OnlineInfos)) *)
  let made := replicate (length (stakingtypes.OnlineInfos infos)) None in
  out ← castLoop 0 (stakingtypes.OnlineInfos infos) made;
  Ok {| StartHeight := stakingtypes.StartHeight infos; OnlineInfos := out |}.

End debug_api.

(** ** Inputs of the examples *)

Module Cases.

(** A trace with a second call at the level of the first: depths 0, 1
    and 0. *)
Definition secondTopLevel : motypes.Transaction :=
  {| motypes.InternalTxCalls :=
       [ Fixture.call CALL 0 100 Fixture.sender Fixture.contract1 "0x";
         Fixture.call CALL 1 50 Fixture.contract1 Fixture.contract2 "0x";
         Fixture.call CALL 0 40 Fixture.sender Fixture.contract3 "0x" ];
     motypes.InternalTxReturns :=
       [ Fixture.ret "0x" 10; Fixture.ret "0x" 20; Fixture.ret "0x" 30 ] |}.

(** The machine after the first two calls of [secondTopLevel]. *)
Definition afterTwo : Machine :=
  Eval vm_compute in
    match rangeLoop (take 2 (motypes.InternalTxCalls secondTopLevel))
            (start secondTopLevel) with
    | Ok m => m
    | Panic _ => start secondTopLevel
    end.

(** The machine after the first five calls of the transaction of the
    tests. *)
Definition afterFive : Machine :=
  Eval vm_compute in
    match rangeLoop (take 5 (motypes.InternalTxCalls Fixture.moTx4))
            (start Fixture.moTx4) with
    | Ok m => m
    | Panic _ => start Fixture.moTx4
    end.

(** The machine after the first call of [Fixture.negativeDepth]. *)
Definition afterFirstNegative : Machine :=
  Eval vm_compute in
    match rangeLoop (take 1 (motypes.InternalTxCalls Fixture.negativeDepth))
            (start Fixture.negativeDepth) with
    | Ok m => m
    | Panic _ => start Fixture.negativeDepth
    end.

(** A trace with the depths of the transaction of the tests and nothing
    else in common with it: other addresses, no payloads, failed
    returns. *)
Definition sameDepths : motypes.Transaction :=
  {| motypes.InternalTxCalls :=
       (λ d, {| motypes.Kind := STATICCALL; motypes.Depth := d;
                motypes.Gas := None; motypes.Destination := Fixture.sender;
                motypes.Sender := Fixture.contract3; motypes.Input := [] |})
         <$> [0; 1; 2; 2; 1; 2; 2];
     motypes.InternalTxReturns :=
       replicate 9 {| motypes.Output := []; motypes.GasLeft := 1;
                      motypes.StatusCode := 2 |} |}.

(** What [buildCallStack sameDepths] returns. *)
Definition builtSameDepths : nat * Machine :=
  Eval vm_compute in
    match buildCallStack sameDepths with
    | Ok r => r
    | Panic _ => (0%nat, start sameDepths)
    end.

(** Readings at time [t]: [g] goroutines, [a] bytes allocated, and the
    figures [os] of the operating system. *)
Definition world (t g a : Z) (os : option memory.Stats) : debug_api.World :=
  {| debug_api.now := t;
     debug_api.numGoroutine := g;
     debug_api.memStats :=
       {| runtime.Alloc := a; runtime.Sys := 2 * a; runtime.NumGC := 7 |};
     debug_api.osMemStats := os;
     debug_api.numCall := g + 1 |}.

Definition osStats (total : Z) : memory.Stats :=
  {| memory.Total := total; memory.Used := total / 2; memory.Cached := 0;
     memory.Free := total / 2; memory.Active := 0; memory.Inactive := 0;
     memory.SwapTotal := 0; memory.SwapUsed := 0; memory.SwapFree := 0 |}.

(** Three calls, at 1000, 1030 and 1061 seconds. *)
Definition clock1000 : debug_api.World :=
  world 1000 12 3145728 (Some (osStats 8589934592)).

Definition clock1030 : debug_api.World := world 1030 15 4194304 None.

Definition clock1061 : debug_api.World := world 1061 9 5242880 None.

(** Online infos of two validators. *)
Definition validators : stakingtypes.ValidatorOnlineInfos :=
  {| stakingtypes.StartHeight := 100;
     stakingtypes.OnlineInfos :=
       [ Some {| stakingtypes.ValidatorConsensusAddress := Fixture.contract1;
                 stakingtypes.SignatureCount := 3;
                 stakingtypes.HeightOfLastSignature := 120 |};
         Some {| stakingtypes.ValidatorConsensusAddress := Fixture.contract2;
                 stakingtypes.SignatureCount := 0;
                 stakingtypes.HeightOfLastSignature := 0 |} ] |}.

End Cases.

(** * Properties *)

(** ** Layout of the nodes in the heap *)

Lemma callsAt_Some h p cs :
  callsAt h p = Some cs ↔ ∃ n, h !! p = Some n ∧ Calls n = cs.
Proof.
  unfold callsAt. destruct (h !! p) as [n|]; simpl; split.
  - intros [= <-]; eauto.
  - by intros (n' & [= <-] & ->).
  - done.
  - by intros (n' & [=] & _).
Qed.

Lemma span_spans_lt h :
  (∀ p e, span h p e → p < e ≤ length h)%nat ∧
  (∀ cs a e, spans h cs a e → (a ≤ length h → a ≤ e ≤ length h)%nat).
Proof.
  split.
  - apply (span_mut h (λ p e, p < e ≤ length h)%nat
             (λ cs a e, a ≤ length h → a ≤ e ≤ length h)%nat).
    + intros p cs e Hp _ IH. apply callsAt_Some in Hp as (n & Hn & _).
      apply lookup_lt_Some in Hn. lia.
    + lia.
    + intros c cs mid e _ IH1 _ IH2. lia.
  - apply (spans_mut h (λ p e, p < e ≤ length h)%nat
             (λ cs a e, a ≤ length h → a ≤ e ≤ length h)%nat).
    + intros p cs e Hp _ IH. apply callsAt_Some in Hp as (n & Hn & _).
      apply lookup_lt_Some in Hn. lia.
    + lia.
    + intros c cs mid e _ IH1 _ IH2. lia.
Qed.

Lemma span_lt h p e : span h p e → (p < e ≤ length h)%nat.
Proof. apply span_spans_lt. Qed.

Lemma spans_le h cs a e :
  spans h cs a e → (a ≤ length h)%nat → (a ≤ e ≤ length h)%nat.
Proof. apply span_spans_lt. Qed.

(** A span only reads the [Calls] of its own cells. *)
Lemma span_spans_frame h h' :
  (∀ p e, span h p e →
     (∀ q, p ≤ q < e → callsAt h' q = callsAt h q)%nat → span h' p e) ∧
  (∀ cs a e, spans h cs a e →
     (∀ q, a ≤ q < e → callsAt h' q = callsAt h q)%nat → (a ≤ length h)%nat →
     spans h' cs a e).
Proof.
  set (P := λ p e, (∀ q, p ≤ q < e → callsAt h' q = callsAt h q)%nat → span h' p e).
  set (Q := λ cs a e,
         (∀ q, a ≤ q < e → callsAt h' q = callsAt h q)%nat → (a ≤ length h)%nat →
         spans h' cs a e).
  assert (HP : ∀ p cs e, callsAt h p = Some cs → spans h cs (S p) e →
                         Q cs (S p) e → P p e).
  { intros p cs e Hp Hs IH Hq.
    pose proof (callsAt_Some h p cs) as [(n & Hn & _) _]; [done|].
    apply lookup_lt_Some in Hn.
    pose proof (spans_le _ _ _ _ Hs ltac:(lia)).
    apply span_node with cs.
    - rewrite Hq; [done|lia].
    - apply IH; [|lia]. intros q ?. apply Hq. lia. }
  assert (HQ0 : ∀ a, Q [] a a) by (intros a _ _; constructor).
  assert (HQ : ∀ c cs mid e, span h c mid → P c mid → spans h cs mid e →
                             Q cs mid e → Q (c :: cs) c e).
  { intros c cs mid e Hc IH1 Hs IH2 Hq Hle.
    pose proof (span_lt _ _ _ Hc). pose proof (spans_le _ _ _ _ Hs ltac:(lia)).
    constructor 2 with mid.
    - apply IH1. intros q ?. apply Hq. lia.
    - apply IH2; [|lia]. intros q ?. apply Hq. lia. }
  split.
  - apply (span_mut h P Q HP HQ0 HQ).
  - apply (spans_mut h P Q HP HQ0 HQ).
Qed.

Lemma span_frame h h' p e :
  span h p e → (∀ q, p ≤ q < e → callsAt h' q = callsAt h q)%nat → span h' p e.
Proof. apply span_spans_frame. Qed.

Lemma spans_frame h h' cs a e :
  spans h cs a e → (a ≤ length h)%nat →
  (∀ q, a ≤ q < e → callsAt h' q = callsAt h q)%nat → spans h' cs a e.
Proof. intros ???. by apply (span_spans_frame h h'). Qed.

Lemma spans_snoc h cs a c e :
  spans h cs a c → span h c e → spans h (cs ++ [c]) a e.
Proof.
  induction 1 as [a|c' cs mid e' Hc' Hs IH]; intros Hc; simpl.
  - econstructor; [done|constructor].
  - econstructor; [done|]. by apply IH.
Qed.

Lemma slice_app {A} (l : list A) (a mid e : nat) :
  (a ≤ mid ≤ e)%nat →
  take (e - a) (drop a l) = take (mid - a) (drop a l) ++ take (e - mid) (drop mid l).
Proof.
  intros H. replace (e - a)%nat with ((mid - a) + (e - mid))%nat by lia.
  rewrite <- take_take_drop, drop_drop. do 3 f_equal. lia.
Qed.

(** Reading a span gives a tree whose pre-order is the span itself. *)
Lemma span_spans_load h :
  (∀ p e, span h p e → ∀ fuel, (e - p ≤ fuel)%nat →
     ∃ t, load fuel h p = Some t ∧ preorder t = take (e - p) (drop p h)) ∧
  (∀ cs a e, spans h cs a e → (a ≤ length h)%nat → ∀ fuel, (e - a ≤ fuel)%nat →
     ∃ ts, mapM (load fuel h) cs = Some ts ∧
           flat_map preorder ts = take (e - a) (drop a h)).
Proof.
  set (P := λ p e, ∀ fuel, (e - p ≤ fuel)%nat →
     ∃ t, load fuel h p = Some t ∧ preorder t = take (e - p) (drop p h)).
  set (Q := λ cs a e, (a ≤ length h)%nat → ∀ fuel, (e - a ≤ fuel)%nat →
     ∃ ts, mapM (load fuel h) cs = Some ts ∧
           flat_map preorder ts = take (e - a) (drop a h)).
  assert (HP : ∀ p cs e, callsAt h p = Some cs → spans h cs (S p) e →
                         Q cs (S p) e → P p e).
  { intros p cs e Hp Hs IH fuel Hfuel.
    apply callsAt_Some in Hp as (n & Hn & <-).
    pose proof (lookup_lt_Some _ _ _ Hn).
    pose proof (spans_le _ _ _ _ Hs ltac:(lia)).
    destruct fuel as [|fuel]; [lia|].
    destruct (IH ltac:(lia) fuel ltac:(lia)) as (ts & Hts & Hpre).
    exists (CallStackOf n ts). simpl. rewrite Hn, Hts. split; [done|].
    rewrite Hpre, (drop_S _ _ _ Hn).
    replace (e - p)%nat with (S (e - S p)) by lia. done. }
  assert (HQ0 : ∀ a, Q [] a a).
  { intros a _ fuel _. exists []. by rewrite Nat.sub_diag. }
  assert (HQ : ∀ c cs mid e, span h c mid → P c mid → spans h cs mid e →
                             Q cs mid e → Q (c :: cs) c e).
  { intros c cs mid e Hc IH1 Hs IH2 Hle fuel Hfuel.
    pose proof (span_lt _ _ _ Hc). pose proof (spans_le _ _ _ _ Hs ltac:(lia)).
    destruct (IH1 fuel ltac:(lia)) as (t & Ht & Hpt).
    destruct (IH2 ltac:(lia) fuel ltac:(lia)) as (ts & Hts & Hpts).
    exists (t :: ts). split.
    - change (mapM (load fuel h) (c :: cs)) with
        (y ← load fuel h c; k ← mapM (load fuel h) cs; mret (y :: k)).
      by rewrite Ht, Hts.
    - simpl. rewrite Hpt, Hpts. symmetry. apply slice_app. lia. }
  split.
  - apply (span_mut h P Q HP HQ0 HQ).
  - apply (spans_mut h P Q HP HQ0 HQ).
Qed.

Lemma span_load h e :
  span h 0%nat e → e = length h →
  ∃ t, load (length h) h 0%nat = Some t ∧ preorder t = h.
Proof.
  intros Hs ->. destruct (proj1 (span_spans_load h) _ _ Hs (length h)) as (t & Ht & Hp).
  { lia. }
  exists t. split; [done|]. rewrite Hp, Nat.sub_0_r, drop_0. by apply take_ge.
Qed.

(** The stack closes from the top down to a span of its bottom node. *)
Lemma spine_span h p s e : spine h (p :: s) e → span h p e.
Proof.
  revert p. induction s as [|q s IH]; intros p; simpl.
  - intros (cs & Hp & Hs). by econstructor.
  - intros [(cs & Hp & Hs) Hq]. econstructor; [done|].
    apply spans_snoc; [done|]. by apply IH.
Qed.

Lemma spine_frame h h' s e :
  spine h s e → (∀ q, q < e → callsAt h' q = callsAt h q)%nat → spine h' s e.
Proof.
  intros Hs Hq. induction s as [|p s IH]; [done|]. simpl in *.
  destruct s as [|q s].
  - destruct Hs as (cs & Hp & Hs). exists cs.
    assert (p < length h)%nat.
    { apply callsAt_Some in Hp as (n & Hn & _). by apply lookup_lt_Some in Hn. }
    pose proof (spans_le _ _ _ _ Hs ltac:(lia)).
    split; [rewrite Hq; [done|lia]|].
    apply (spans_frame h); [done|lia|]. intros; apply Hq; lia.
  - destruct Hs as [(cs & Hp & Hs) Hrest]. split; [|by apply IH].
    assert (span h q e) by (by apply spine_span in Hrest).
    pose proof (span_lt _ _ _ ltac:(eassumption)).
    assert (p < length h)%nat.
    { apply callsAt_Some in Hp as (n & Hn & _). by apply lookup_lt_Some in Hn. }
    pose proof (spans_le _ _ _ _ Hs ltac:(lia)).
    exists cs. split; [rewrite Hq; [done|lia]|].
    apply (spans_frame h); [done|lia|]. intros; apply Hq; lia.
Qed.

(** Closing the top call: its parent's children are now all complete. *)
Lemma spine_pop h s p q e :
  spine h (s ++ [p; q]) e → spine h (s ++ [p]) e.
Proof.
  induction s as [|x s IH]; simpl.
  - intros [(cs & Hp & Hs) (cs' & Hq & Hs')]. exists (cs ++ [q]). split; [done|].
    apply spans_snoc; [done|]. by econstructor.
  - destruct s as [|y s]; simpl in *.
    + intros [Hx Hrest]. split; [done|]. by apply IH.
    + intros [Hx Hrest]. split; [done|]. by apply IH.
Qed.

Lemma spine_bounds h s p e :
  spine h (s ++ [p]) e → (p < e ≤ length h)%nat ∧ Forall (λ q, q < p)%nat s.
Proof.
  induction s as [|x s IH]; simpl.
  - intros (cs & Hp & Hs). split; [|done].
    apply (span_lt h). by econstructor.
  - destruct s as [|y s]; simpl in *.
    + intros [(cs & Hx & Hs) Hrest]. destruct (IH Hrest) as [? _].
      assert (x < length h)%nat.
      { apply callsAt_Some in Hx as (n & Hn & _). by apply lookup_lt_Some in Hn. }
      pose proof (spans_le _ _ _ _ Hs ltac:(lia)).
      split; [done|]. constructor; [lia|done].
    + intros [(cs & Hx & Hs) Hrest]. destruct (IH Hrest) as [? Hall].
      assert (x < length h)%nat.
      { apply callsAt_Some in Hx as (n & Hn & _). by apply lookup_lt_Some in Hn. }
      pose proof (spans_le _ _ _ _ Hs ltac:(lia)).
      split; [done|]. constructor; [|done].
      apply Forall_cons_1 in Hall as [? _]. lia.
Qed.

(** Linking a new node [e] under the top of the stack and opening it. *)
Lemma spine_push h s p e :
  spine h (s ++ [p]) e → callsAt h e = Some [] →
  spine (alter (addCall e) p h) (s ++ [p; e]) (S e).
Proof.
  intros Hsp He.
  destruct (spine_bounds _ _ _ _ Hsp) as [Hpe Hlt].
  set (h' := alter (addCall e) p h).
  assert (Hne : ∀ q, q ≠ p → callsAt h' q = callsAt h q).
  { intros q ?. unfold callsAt, h'. by rewrite list_lookup_alter_ne. }
  assert (Hp : ∀ cs, callsAt h p = Some cs → callsAt h' p = Some (cs ++ [e])).
  { intros cs Hcs. apply callsAt_Some in Hcs as (n & Hn & <-).
    unfold callsAt, h'. by rewrite list_lookup_alter_eq, Hn. }
  assert (Hlen : length h' = length h) by apply length_alter.
  assert (Htop : spine h' [p; e] (S e)).
  { simpl in *. destruct s as [|x s].
    - destruct Hsp as (cs & Hcs & Hs). split.
      + exists cs. split; [by apply Hp|].
        apply (spans_frame h); [done|lia|]. intros; apply Hne; lia.
      + exists []. split; [rewrite Hne; [done|lia]|constructor].
    - clear Hlt. revert x Hsp. induction s as [|y s IH]; intros x; simpl.
      + intros [_ (cs & Hcs & Hs)]. split.
        * exists cs. split; [by apply Hp|].
          apply (spans_frame h); [done|lia|]. intros; apply Hne; lia.
        * exists []. split; [rewrite Hne; [done|lia]|constructor].
      + intros [_ Hrest]. by apply (IH y). }
  clear Hp. revert Hsp Hlt. induction s as [|x s IH]; [done|].
  intros Hsp Hlt. apply Forall_cons_1 in Hlt as [Hx Hlt].
  assert (x < length h)%nat by lia.
  change ((x :: s) ++ [p; e]) with (x :: (s ++ [p; e])).
  change ((x :: s) ++ [p]) with (x :: (s ++ [p])) in Hsp.
  destruct s as [|y s]; simpl in Hsp |- *.
  - destruct Hsp as [(cs & Hcs & Hs) Hrest].
    pose proof (spans_le _ _ _ _ Hs ltac:(lia)).
    split; [|done]. exists cs. split; [rewrite Hne; [done|lia]|].
    apply (spans_frame h); [done|lia|]. intros; apply Hne; lia.
  - destruct Hsp as [(cs & Hcs & Hs) Hrest].
    pose proof (spans_le _ _ _ _ Hs ltac:(lia)).
    apply Forall_cons_1 in Hlt as [Hy Hlt'].
    split; [|apply IH; [done|by constructor]].
    exists cs. split; [rewrite Hne; [done|lia]|].
    apply (spans_frame h); [done|lia|]. intros; apply Hne; lia.
Qed.

(** ** The steps of the machine *)

Lemma takeReturn_Ok m r m' :
  takeReturn m = Ok (r, m') ↔
  ∃ rest, returnsOf m = r :: rest ∧
    m' = {| heap := heap m; nodes := nodes m;
            tx := {| motypes.InternalTxCalls := motypes.InternalTxCalls (tx m);
                     motypes.InternalTxReturns := rest |} |}.
Proof.
  unfold takeReturn, returnsOf.
  destruct (motypes.InternalTxReturns (tx m)) as [|r' rest]; split.
  - done.
  - by intros (? & [=] & _).
  - intros [= <- <-]. eauto.
  - by intros (? & [= <- <-] & ->).
Qed.

Lemma takeReturn_Panic m e :
  takeReturn m = Panic e ↔ returnsOf m = [] ∧ e = IndexOutOfRange.
Proof.
  unfold takeReturn, returnsOf.
  destruct (motypes.InternalTxReturns (tx m)); split.
  - by intros [= <-].
  - by intros [_ ->].
  - done.
  - by intros [[=] _].
Qed.

Lemma take_pred_snoc {A} (s : list A) q :
  take (length (s ++ [q]) - 1) (s ++ [q]) = s.
Proof.
  rewrite length_app. simpl.
  replace (length s + 1 - 1)%nat with (length s) by lia. apply take_app_length.
Qed.

Lemma popResolve_Ok m m' :
  popResolve m = Ok m' ↔
  ∃ s q r rest, nodes m = s ++ [q] ∧ returnsOf m = r :: rest ∧
    m' = {| heap := alter (setReturn r) q (heap m); nodes := s;
            tx := {| motypes.InternalTxCalls := motypes.InternalTxCalls (tx m);
                     motypes.InternalTxReturns := rest |} |}.
Proof.
  unfold popResolve. split.
  - destruct (last (nodes m)) as [q|] eqn:Hq; [|done].
    apply last_Some in Hq as [s Hs].
    destruct (takeReturn m) as [[r m1]|] eqn:Hr; [|done].
    apply takeReturn_Ok in Hr as (rest & Hrest & ->).
    intros [= <-]. exists s, q, r, rest. split_and!; [done..|].
    unfold pop, resolve; simpl. by rewrite Hs, take_pred_snoc.
  - intros (s & q & r & rest & Hs & Hr & ->).
    rewrite Hs, last_snoc.
    destruct (takeReturn m) as [[r' m1]|e] eqn:Hr'.
    + apply takeReturn_Ok in Hr' as (rest' & Hrest' & ->).
      rewrite Hr in Hrest'. injection Hrest' as <- <-.
      simpl. unfold pop, resolve; simpl. by rewrite Hs, take_pred_snoc.
    + apply takeReturn_Panic in Hr' as [Hr' _]. by rewrite Hr in Hr'.
Qed.

Lemma popResolve_Panic m e :
  popResolve m = Panic e →
  e = IndexOutOfRange ∧ (nodes m = [] ∨ returnsOf m = []).
Proof.
  unfold popResolve. destruct (last (nodes m)) as [q|] eqn:Hq.
  - destruct (takeReturn m) as [[r m1]|e'] eqn:Hr; [done|].
    apply takeReturn_Panic in Hr as [Hr ->]. intros [= <-]. auto.
  - apply last_None in Hq. intros [= <-]. auto.
Qed.

Lemma popMany_nodes k m m' :
  popMany k m = Ok m' →
  (k ≤ length (nodes m))%nat ∧
  nodes m' = take (length (nodes m) - k) (nodes m).
Proof.
  revert m. induction k as [|k IH]; intros m; simpl.
  - intros [= <-]. split; [lia|]. by rewrite Nat.sub_0_r, take_ge.
  - destruct (popResolve m) as [m1|] eqn:Hm1; [|done]. simpl. intros Hk.
    apply popResolve_Ok in Hm1 as (s & q & r & rest & Hs & _ & ->).
    destruct (IH _ Hk) as [Hle Hn]. simpl in *.
    rewrite Hn, Hs, length_app. simpl. split; [lia|].
    replace (length s + 1 - S k)%nat with (length s - k)%nat by lia.
    rewrite take_app_le; [done|lia].
Qed.

Lemma popMany_returns k m m' :
  popMany k m = Ok m' →
  (k ≤ length (returnsOf m))%nat ∧
  returnsOf m' = drop k (returnsOf m) ∧
  motypes.InternalTxCalls (tx m') = motypes.InternalTxCalls (tx m).
Proof.
  revert m. induction k as [|k IH]; intros m; simpl.
  - intros [= <-]. split; [lia|done].
  - destruct (popResolve m) as [m1|] eqn:Hm1; [|done]. simpl. intros Hk.
    apply popResolve_Ok in Hm1 as (s & q & r & rest & _ & Hr & ->).
    destruct (IH _ Hk) as (Hle & Hd & Hc). unfold returnsOf in *. simpl in *.
    rewrite Hr. simpl. split; [lia|done].
Qed.

(** Closing calls fails only by running out of nodes or of returns. *)
Lemma popMany_total k m :
  (k ≤ length (nodes m))%nat → (k ≤ length (returnsOf m))%nat →
  ∃ m', popMany k m = Ok m'.
Proof.
  revert m. induction k as [|k IH]; intros m Hn Hr; simpl; [eauto|].
  destruct (nodes m) as [|x s'] eqn:Hs using rev_ind; [simpl in Hn; lia|].
  clear IHs'.
  destruct (returnsOf m) as [|r rest] eqn:Hrets; [simpl in Hr; lia|].
  destruct (popResolve m) as [m1|e] eqn:Hm1.
  - simpl. pose proof Hm1 as Hm1'.
    apply popResolve_Ok in Hm1 as (s & q & r' & rest' & Hs' & Hr' & ->).
    rewrite Hs in Hs'. apply app_inj_tail in Hs' as [<- <-].
    rewrite Hrets in Hr'. injection Hr' as <- <-.
    apply IH; unfold returnsOf; simpl.
    + rewrite length_app in Hn. simpl in Hn. lia.
    + simpl in Hr. lia.
  - apply popResolve_Panic in Hm1 as [_ [Hm1|Hm1]].
    + rewrite Hs in Hm1. by destruct s'.
    + by rewrite Hrets in Hm1.
Qed.

Lemma popMany_Panic k m e :
  popMany k m = Panic e →
  e = IndexOutOfRange ∧
  (length (nodes m) < k ∨ length (returnsOf m) < k)%nat.
Proof.
  intros Hp. split.
  - revert m Hp. induction k as [|k IH]; intros m; simpl; [done|].
    destruct (popResolve m) as [m1|e'] eqn:Hm1; simpl; [by apply IH|].
    intros [= <-]. by apply popResolve_Panic in Hm1 as [-> _].
  - destruct (decide (k ≤ length (nodes m))%nat); [|lia].
    destruct (decide (k ≤ length (returnsOf m))%nat); [|lia].
    destruct (popMany_total k m) as [m' Hm']; [done..|]. congruence.
Qed.

Lemma returnLoop_popMany k p m :
  last (nodes m) = Some p →
  returnLoop k p m = m' ← popMany k m; l ← lastNodeOf m'; Ok (l, m').
Proof.
  revert p m. induction k as [|k IH]; intros p m Hp.
  - simpl. unfold lastNodeOf. by rewrite Hp.
  - simpl. unfold popResolve. rewrite Hp.
    destruct (takeReturn m) as [[r m1]|e]; [|done]. simpl.
    destruct (lastNodeOf (pop (resolve p r m1))) as [l|e] eqn:Hl; simpl.
    + apply IH. unfold lastNodeOf in Hl.
      by destruct (last (nodes (pop (resolve p r m1)))); simplify_eq.
    + unfold lastNodeOf in Hl.
      destruct (last (nodes (pop (resolve p r m1)))) eqn:Hlast; simplify_eq.
      destruct k; simpl.
      * unfold lastNodeOf. by rewrite Hlast.
      * unfold popResolve. by rewrite Hlast.
Qed.

Lemma drainLoop_popMany k m :
  k = length (nodes m) → drainLoop k m = popMany k m.
Proof.
  revert m. induction k as [|k IH]; intros m Hk; [done|]. simpl.
  unfold popResolve.
  destruct (last (nodes m)) as [q|] eqn:Hq.
  - apply last_Some in Hq as [s Hs].
    unfold takeReturn. simpl.
    destruct (motypes.InternalTxReturns (tx m)) as [|r rest]; [done|]. simpl.
    unfold pop, resolve. simpl. apply IH. simpl.
    rewrite Hs, take_pred_snoc. rewrite Hs, length_app in Hk. simpl in Hk. lia.
  - apply last_None in Hq. by rewrite Hq in Hk.
Qed.

Lemma lastNodeOf_Ok m l : lastNodeOf m = Ok l ↔ last (nodes m) = Some l.
Proof.
  unfold lastNodeOf. destruct (last (nodes m)); split; try done.
  - by intros [= ->].
  - by intros [= ->].
Qed.

Lemma loopBody_unfold call m :
  loopBody call m =
  match last (nodes m) with
  | None => Ok (push (length (heap m)) (allocated call m))
  | Some p =>
      ln ← deref (allocated call m) p;
      if motypes.Depth call =? wrap32 (depth ln + 1) then
        Ok (push (length (heap m)) (appendCall p (length (heap m)) (allocated call m)))
      else if motypes.Depth call <=? depth ln then
        m1 ← popMany (iterations (wrap32 (depth ln - motypes.Depth call)))
               (allocated call m);
        l ← lastNodeOf m1;
        Ok (push (length (heap m)) (appendCall l (length (heap m)) m1))
      else Panic (DepthError (depth ln) (motypes.Depth call))
  end.
Proof.
  unfold loopBody, allocated, alloc. simpl.
  destruct (last (nodes m)) as [p|] eqn:Hp; [|done].
  destruct (deref _ p) as [ln|]; [|done]. simpl.
  destruct (_ =? _); [done|]. destruct (_ <=? _); [|done].
  rewrite returnLoop_popMany by done.
  destruct (popMany _ _) as [m1|]; [|done]. simpl.
  by destruct (lastNodeOf m1).
Qed.

Lemma loopBody_Ok call m m' :
  loopBody call m = Ok m' ↔ bodyStep call m m'.
Proof.
  rewrite loopBody_unfold. split.
  - destruct (last (nodes m)) as [p|] eqn:Hp.
    + unfold deref. destruct (heap (allocated call m) !! p) as [ln|] eqn:Hln; [|done].
      simpl. destruct (_ =? _) eqn:Heq.
      * intros [= <-]. apply Z.eqb_eq in Heq.
        apply bodyStep_link with p ln 0%nat; try done. by left.
      * apply Z.eqb_neq in Heq. destruct (_ <=? _) eqn:Hle; [|done].
        apply Z.leb_le in Hle.
        destruct (popMany _ _) as [m1|] eqn:Hm1; [|done]. simpl.
        destruct (lastNodeOf m1) as [l|] eqn:Hl; [|done]. simpl. intros [= <-].
        apply lastNodeOf_Ok in Hl. eapply bodyStep_link; try done. by right.
    + intros [= <-]. apply bodyStep_first. by apply last_None.
  - intros [Hnil|p ln k m1 l Hp Hln Hk Hm1 Hl].
    + by rewrite Hnil.
    + rewrite Hp. unfold deref. rewrite Hln. simpl.
      destruct Hk as [[Heq ->]|(Hne & Hle & ->)].
      * simpl in Hm1. injection Hm1 as <-.
        apply Z.eqb_eq in Heq. rewrite Heq.
        change (nodes (allocated call m)) with (nodes m) in Hl.
        rewrite Hp in Hl. by injection Hl as <-.
      * apply Z.eqb_neq in Hne. apply Z.leb_le in Hle. rewrite Hne, Hle, Hm1.
        simpl. apply lastNodeOf_Ok in Hl. by rewrite Hl.
Qed.

(** The only panics of the loop body. *)
Lemma loopBody_Panic call m e :
  loopBody call m = Panic e →
  ∃ p, last (nodes m) = Some p ∧
    match heap (allocated call m) !! p with
    | None => e = NilDereference
    | Some ln =>
        (e = DepthError (depth ln) (motypes.Depth call) ∧
         motypes.Depth call ≠ wrap32 (depth ln + 1) ∧
         depth ln < motypes.Depth call) ∨
        (e = IndexOutOfRange ∧ motypes.Depth call <= depth ln)
    end.
Proof.
  rewrite loopBody_unfold. destruct (last (nodes m)) as [p|]; [|done].
  intros He. exists p. split; [done|]. revert He. unfold deref.
  destruct (heap (allocated call m) !! p) as [ln|]; simpl; [|by intros [= <-]].
  destruct (_ =? _) eqn:Heq; [done|]. apply Z.eqb_neq in Heq.
  destruct (_ <=? _) eqn:Hle.
  - apply Z.leb_le in Hle. intros He. right. split; [|done].
    destruct (popMany _ _) as [m1|e1] eqn:Hm1; simpl in He.
    + unfold lastNodeOf in He. destruct (last (nodes m1)); simpl in He; congruence.
    + injection He as <-. by apply popMany_Panic in Hm1 as [-> _].
  - apply Z.leb_gt in Hle. intros [= <-]. left. done.
Qed.

(** ** What closing calls leaves untouched *)

Lemma sameCall_refl n : sameCall n n.
Proof. by repeat split. Qed.

Lemma sameCall_trans n1 n2 n3 : sameCall n1 n2 → sameCall n2 n3 → sameCall n1 n3.
Proof. unfold sameCall. intuition congruence. Qed.

Lemma sameCall_setReturn r n : sameCall n (setReturn r n).
Proof. by repeat split. Qed.

Lemma sameCall_heap_refl h : Forall2 sameCall h h.
Proof. apply Forall_Forall2_diag, Forall_forall. intros; apply sameCall_refl. Qed.

Lemma sameCall_heap_trans h1 h2 h3 :
  Forall2 sameCall h1 h2 → Forall2 sameCall h2 h3 → Forall2 sameCall h1 h3.
Proof.
  intros H12. revert h3. induction H12; intros h3 H23; inversion H23; subst;
    constructor; eauto using sameCall_trans.
Qed.

Lemma sameCall_lookup h h' p n :
  Forall2 sameCall h h' → h !! p = Some n →
  ∃ n', h' !! p = Some n' ∧ sameCall n n'.
Proof. intros Hh Hp. by apply (Forall2_lookup_l _ _ _ _ _ Hh Hp). Qed.

Lemma sameCall_lookup_r h h' p n' :
  Forall2 sameCall h h' → h' !! p = Some n' →
  ∃ n, h !! p = Some n ∧ sameCall n n'.
Proof. intros Hh Hp. by apply (Forall2_lookup_r _ _ _ _ _ Hh Hp). Qed.

Lemma sameCall_callsAt h h' q :
  Forall2 sameCall h h' → callsAt h' q = callsAt h q.
Proof.
  intros Hh. unfold callsAt. destruct (h !! q) as [n|] eqn:Hq.
  - destruct (sameCall_lookup _ _ _ _ Hh Hq) as (n' & -> & Hs). simpl.
    f_equal. apply Hs.
  - apply lookup_ge_None in Hq. rewrite (Forall2_length _ _ _ Hh) in Hq.
    apply lookup_ge_None in Hq. by rewrite Hq.
Qed.

Lemma sameCall_built seen h h' :
  Forall2 builtFrom seen h → Forall2 sameCall h h' → Forall2 builtFrom seen h'.
Proof.
  intros Hb. revert h'. induction Hb as [|c n seen h Hc Hb IH]; intros h' Hs;
    inversion Hs as [|? n' ? h'' Hn Hs']; subst; constructor; [|by apply IH].
  unfold builtFrom, sameCall in *. intuition congruence.
Qed.

Lemma popResolve_sameCall m m' :
  popResolve m = Ok m' → Forall2 sameCall (heap m) (heap m').
Proof.
  intros (s & q & r & rest & _ & _ & ->)%popResolve_Ok. simpl.
  apply Forall2_alter_r; [apply sameCall_heap_refl|].
  intros n n' _ _ Hs. eapply sameCall_trans; [done|apply sameCall_setReturn].
Qed.

Lemma popMany_sameCall k m m' :
  popMany k m = Ok m' → Forall2 sameCall (heap m) (heap m').
Proof.
  revert m. induction k as [|k IH]; intros m; simpl.
  - intros [= <-]. apply sameCall_heap_refl.
  - destruct (popResolve m) as [m1|] eqn:Hm1; [|done]. simpl. intros Hk.
    eapply sameCall_heap_trans; [by apply popResolve_sameCall|by apply IH].
Qed.

(** ** The shape invariant *)

Lemma drop_cons_inv {A} (l : list A) j x rest :
  drop j l = x :: rest → drop (S j) l = rest ∧ (j < length l)%nat.
Proof.
  intros H. split.
  - replace (S j) with (j + 1)%nat by lia. by rewrite <- drop_drop, H.
  - destruct (decide (j < length l)%nat); [done|].
    rewrite drop_ge in H by lia. done.
Qed.

Lemma shape_popResolve seen rets0 e m m' :
  Shape seen rets0 e m → popResolve m = Ok m' → Shape seen rets0 e m'.
Proof.
  intros [(j & Hj & Hje & Hjr) Hb Hsp Hroot] Hm.
  pose proof (popResolve_sameCall _ _ Hm) as Hsame.
  apply popResolve_Ok in Hm as (s & q & r & rest & Hs & Hr & ->).
  rewrite Hs in *. constructor; simpl.
  - rewrite Hr in Hj. symmetry in Hj. apply drop_cons_inv in Hj as [Hj ?].
    exists (S j). unfold returnsOf. simpl. rewrite length_app in Hje. simpl in Hje.
    split_and!; [done|lia|lia].
  - by eapply sameCall_built.
  - simpl in Hsame. destruct s as [|x s _] using rev_ind; [done|].
    apply spine_pop with q. rewrite <- app_assoc in Hsp. simpl in Hsp.
    apply (spine_frame (heap m)); [done|]. intros; by apply sameCall_callsAt.
  - intros p Hp. apply Hroot. by destruct s.
Qed.

Lemma shape_popMany seen rets0 e k m m' :
  Shape seen rets0 e m → popMany k m = Ok m' → Shape seen rets0 e m'.
Proof.
  revert m. induction k as [|k IH]; intros m Hsh; simpl.
  - by intros [= <-].
  - destruct (popResolve m) as [m1|] eqn:Hm1; [|done]. simpl.
    apply IH. by eapply shape_popResolve.
Qed.

Lemma builtFrom_newNode call : builtFrom call (newNode call).
Proof. by repeat split. Qed.

Lemma shape_alloc seen rets0 m call :
  Shape seen rets0 (length (heap m)) m →
  Shape (seen ++ [call]) rets0 (length (heap m)) (allocated call m) ∧
  callsAt (heap (allocated call m)) (length (heap m)) = Some [].
Proof.
  intros [Hr Hb Hsp Hroot]. split; [constructor|]; simpl.
  - done.
  - apply Forall2_app; [done|]. constructor; [apply builtFrom_newNode|constructor].
  - apply (spine_frame (heap m)); [done|]. intros q Hq.
    unfold callsAt. by rewrite lookup_app_l.
  - done.
  - unfold callsAt. by rewrite list_lookup_middle.
Qed.

Lemma sameCall_addCall_built call c n : builtFrom call n → builtFrom call (addCall c n).
Proof. done. Qed.

Lemma shape_push seen rets0 e m l :
  Shape seen rets0 e m → last (nodes m) = Some l →
  callsAt (heap m) e = Some [] →
  Shape seen rets0 (S e) (push e (appendCall l e m)).
Proof.
  intros [(j & Hj & Hje & Hjr) Hb Hsp Hroot] Hl He.
  apply last_Some in Hl as [s Hs]. rewrite Hs in *. constructor; simpl.
  - exists j. rewrite Hs, !length_app in *. simpl in *. split_and!; [done|lia|done].
  - apply Forall2_alter_r; [done|]. intros ?? _ _ ?. by apply sameCall_addCall_built.
  - rewrite Hs, <- app_assoc. simpl. by apply spine_push.
  - rewrite Hs. intros p Hp. apply Hroot. by destruct s.
Qed.

Lemma built_step seen rets0 call m m' :
  Built seen rets0 m → bodyStep call m m' → Built (seen ++ [call]) rets0 m'.
Proof.
  intros [Hsh Hnil] Hstep.
  destruct (shape_alloc _ _ _ call Hsh) as [Hsh' Hnew].
  destruct Hstep as [Hs|p ln k m1 l Hp Hln Hk Hm1 Hl].
  - specialize (Hnil Hs). split; [|simpl; by destruct (nodes m)].
    destruct Hsh' as [(j & Hj & Hje & Hjr) Hb Hsp Hroot].
    unfold allocated in *. simpl in *. rewrite Hnil, Hs in *. simpl in *.
    constructor; simpl.
    + exists j. split_and!; [done|lia|done].
    + done.
    + exists []. split; [done|constructor].
    + by intros ? [= <-].
  - pose proof (popMany_sameCall _ _ _ Hm1) as Hsame.
    pose proof (Forall2_length _ _ _ Hsame) as Hlen.
    assert (Hlen' : length (heap (push (length (heap m))
                       (appendCall l (length (heap m)) m1))) = S (length (heap m))).
    { simpl. rewrite length_alter, <- Hlen. unfold allocated. simpl.
      rewrite length_app. simpl. lia. }
    split; [rewrite Hlen'|simpl; by destruct (nodes m1)].
    apply shape_push; [by eapply shape_popMany|done|].
    by rewrite (sameCall_callsAt _ _ _ Hsame).
Qed.

Lemma built_start t : Built [] (motypes.InternalTxReturns t) (start t).
Proof.
  split; [|done]. constructor; simpl; try done.
  exists 0%nat. split_and!; [done..|lia].
Qed.

Lemma built_rangeLoop seen rets0 calls m m' :
  Built seen rets0 m → rangeLoop calls m = Ok m' → Built (seen ++ calls) rets0 m'.
Proof.
  revert seen m. induction calls as [|call calls IH]; intros seen m Hb; simpl.
  - intros [= <-]. by rewrite app_nil_r.
  - destruct (loopBody call m) as [m1|] eqn:Hm1; [|done]. simpl. intros Hr.
    apply loopBody_Ok in Hm1.
    replace (seen ++ call :: calls) with ((seen ++ [call]) ++ calls)
      by (by rewrite <- app_assoc).
    eapply IH; [|done]. by eapply built_step.
Qed.

(** ** Depths *)

Lemma wrap32_id z : int32 z → wrap32 z = z.
Proof.
  unfold int32, wrap32. change (2 ^ 31) with 2147483648.
  change (2 ^ 32) with 4294967296. intros. Z.div_mod_to_equations. lia.
Qed.

Lemma wrap32_succ t d :
  depthOK t → depthOK d → d = wrap32 (t + 1) ↔ d = t + 1.
Proof.
  unfold depthOK, wrap32. change (2 ^ 31) with 2147483648.
  change (2 ^ 32) with 4294967296. intros. Z.div_mod_to_equations. lia.
Qed.

Lemma wrap32_sub t d :
  depthOK t → depthOK d → wrap32 (t - d) = t - d.
Proof.
  unfold depthOK. change (2 ^ 31) with 2147483648. intros.
  apply wrap32_id. unfold int32. change (2 ^ 31) with 2147483648. lia.
Qed.

Lemma sameCall_sameDepth h h' :
  Forall2 sameCall h h' → Forall2 sameDepth h h'.
Proof. intros H. eapply Forall2_impl; [done|]. by intros n n' [? _]. Qed.

Lemma alter_sameDepth f i h :
  (∀ n, depth (f n) = depth n) → Forall2 sameDepth h (alter f i h).
Proof.
  intros Hf. apply Forall2_alter_r.
  - apply Forall_Forall2_diag, Forall_forall. by intros.
  - intros n n' _ _ Hn. unfold sameDepth in *. by rewrite Hf.
Qed.

Lemma sameDepth_lookup h h' p n :
  Forall2 sameDepth h h' → h !! p = Some n →
  ∃ n', h' !! p = Some n' ∧ depth n' = depth n.
Proof. intros Hh Hp. by apply (Forall2_lookup_l _ _ _ _ _ Hh Hp). Qed.

Lemma depthChain_sameDepth h h' s d0 :
  Forall2 sameDepth h h' → depthChain h s d0 → depthChain h' s d0.
Proof.
  intros Hh Hc i p Hp. destruct (Hc i p Hp) as (n & Hn & Hd).
  destruct (sameDepth_lookup _ _ _ _ Hh Hn) as (n' & Hn' & Hd').
  exists n'. split; [done|congruence].
Qed.

Lemma depthChain_alloc h s d0 n :
  depthChain h s d0 → depthChain (h ++ [n]) s d0.
Proof.
  intros Hc i p Hp. destruct (Hc i p Hp) as (n' & Hn & Hd).
  exists n'. split; [|done]. by apply lookup_app_l_Some.
Qed.

Lemma depthChain_take h s d0 k : depthChain h s d0 → depthChain h (take k s) d0.
Proof.
  intros Hc i p Hp. apply lookup_take_Some in Hp as [Hp _]. by apply Hc.
Qed.

Lemma depthChain_snoc h s d0 e n :
  depthChain h s d0 → h !! e = Some n → depth n = d0 + Z.of_nat (length s) →
  depthChain h (s ++ [e]) d0.
Proof.
  intros Hc He Hd i p Hp. apply lookup_snoc_Some in Hp as [[_ Hp]|[-> <-]].
  - by apply Hc.
  - eauto.
Qed.

Lemma depthChain_last h s d0 p :
  depthChain h s d0 → last s = Some p →
  ∃ n, h !! p = Some n ∧ depth n = d0 + Z.of_nat (length s) - 1.
Proof.
  intros Hc Hp. rewrite last_lookup in Hp.
  destruct (Hc _ _ Hp) as (n & Hn & Hd). exists n. split; [done|].
  apply lookup_lt_Some in Hp. lia.
Qed.

Lemma childDepth_sameCall h h' :
  Forall2 sameCall h h' → childDepth h → childDepth h'.
Proof.
  intros Hh Hc p n' c Hp Hin.
  destruct (sameCall_lookup_r _ _ _ _ Hh Hp) as (n & Hn & Hs).
  destruct Hs as (Hd & _ & _ & _ & Hcs). rewrite Hcs in Hin.
  destruct (Hc _ _ _ Hn Hin) as (nc & Hnc & Hdc).
  destruct (sameCall_lookup _ _ _ _ Hh Hnc) as (nc' & Hnc' & Hs').
  exists nc'. split; [done|]. destruct Hs' as [Hd' _]. lia.
Qed.

Lemma childDepth_alloc h call : childDepth h → childDepth (h ++ [newNode call]).
Proof.
  intros Hc p n c Hp Hin. apply lookup_snoc_Some in Hp as [[_ Hp]|[_ <-]].
  - destruct (Hc _ _ _ Hp Hin) as (nc & Hnc & Hd). exists nc.
    split; [by apply lookup_app_l_Some|done].
  - by apply elem_of_nil in Hin.
Qed.

Lemma childDepth_addCall h l e nl ne :
  childDepth h → h !! l = Some nl → h !! e = Some ne →
  depth ne = depth nl + 1 →
  childDepth (alter (addCall e) l h).
Proof.
  intros Hc Hl He Hd p n c Hp Hin.
  pose proof (alter_sameDepth (addCall e) l h (λ _, eq_refl)) as Hsame.
  assert (Hold : ∀ n0, h !! p = Some n0 → c ∈ Calls n0 →
            ∃ nc, alter (addCall e) l h !! c = Some nc ∧ depth nc = depth n0 + 1).
  { intros n0 Hn0 Hc0. destruct (Hc _ _ _ Hn0 Hc0) as (nc & Hnc & Hdc).
    destruct (sameDepth_lookup _ _ _ _ Hsame Hnc) as (nc' & ? & ?).
    exists nc'. split; [done|lia]. }
  destruct (decide (p = l)) as [->|Hne].
  - rewrite list_lookup_alter_eq, Hl in Hp. simpl in Hp. injection Hp as <-.
    simpl in Hin. apply elem_of_app in Hin as [Hin|Hin].
    + by apply (Hold nl).
    + apply list_elem_of_singleton in Hin as ->.
      destruct (sameDepth_lookup _ _ _ _ Hsame He) as (ne' & ? & ?).
      exists ne'. split; [done|]. simpl. lia.
  - rewrite list_lookup_alter_ne in Hp by done. by apply Hold.
Qed.

Lemma built_depthOK seen h p n :
  Forall2 builtFrom seen h → Forall callDepthOK seen → h !! p = Some n →
  depthOK (depth n).
Proof.
  intros Hb Hok Hp.
  destruct (Forall2_lookup_r _ _ _ _ _ Hb Hp) as (c & Hc & Hbc).
  destruct Hbc as [-> _]. by apply (Forall_lookup_1 _ _ _ _ Hok Hc).
Qed.

Lemma closes_count call ln k :
  depthOK (depth ln) → callDepthOK call → closes call ln k →
  (motypes.Depth call = depth ln + 1 ∧ k = 0%nat) ∨
  (motypes.Depth call <= depth ln ∧
   Z.of_nat k = depth ln - motypes.Depth call + 1).
Proof.
  intros Hln Hc [[Heq ->]|(Hne & Hle & ->)].
  - left. split; [|done]. by apply wrap32_succ.
  - right. split; [done|]. rewrite wrap32_sub by done.
    unfold iterations. lia.
Qed.

Lemma allocated_lookup call m p n :
  heap m !! p = Some n → heap (allocated call m) !! p = Some n.
Proof. intros. unfold allocated. simpl. by apply lookup_app_l_Some. Qed.

Lemma allocated_new call m :
  heap (allocated call m) !! length (heap m) = Some (newNode call).
Proof. unfold allocated. simpl. by rewrite list_lookup_middle. Qed.

(** What a linking step finds and leaves, in terms of depths. *)
Lemma link_depths seen rets0 call m d0 p ln k m1 l :
  Built seen rets0 m → Forall callDepthOK seen → callDepthOK call →
  depthChain (heap m) (nodes m) d0 →
  last (nodes m) = Some p →
  heap (allocated call m) !! p = Some ln →
  closes call ln k →
  popMany k (allocated call m) = Ok m1 →
  last (nodes m1) = Some l →
  depth ln = d0 + Z.of_nat (length (nodes m)) - 1 ∧
  Z.of_nat k = depth ln - motypes.Depth call + 1 ∧
  depthChain (heap m1) (nodes m1) d0 ∧
  motypes.Depth call = d0 + Z.of_nat (length (nodes m1)) ∧
  ∃ nl, heap m1 !! l = Some nl ∧ depth nl = motypes.Depth call - 1.
Proof.
  intros [Hsh _] Hdone Hcall Hchain Hp Hln Hk Hm1 Hl.
  destruct (depthChain_last _ _ _ _ Hchain Hp) as (ln' & Hln' & Hd).
  rewrite (allocated_lookup call _ _ _ Hln') in Hln. injection Hln as ->.
  assert (depthOK (depth ln)) by (by eapply built_depthOK; [apply Hsh|..]).
  pose proof (popMany_sameCall _ _ _ Hm1) as Hsame.
  destruct (popMany_nodes _ _ _ Hm1) as [Hkle Hnodes].
  change (nodes (allocated call m)) with (nodes m) in *.
  assert (Hchain1 : depthChain (heap m1) (nodes m1) d0).
  { rewrite Hnodes. apply depthChain_take.
    apply (depthChain_sameDepth (heap (allocated call m)));
      [by apply sameCall_sameDepth|].
    unfold allocated; simpl. by apply depthChain_alloc. }
  destruct (depthChain_last _ _ _ _ Hchain1 Hl) as (nl & Hnl & Hdl).
  assert (Hlen1 : length (nodes m1) = (length (nodes m) - k)%nat).
  { rewrite Hnodes, length_take. lia. }
  assert (length (nodes m1) ≠ 0%nat).
  { intros H0. apply nil_length_inv in H0. by rewrite H0 in Hl. }
  assert (Z.of_nat k = depth ln - motypes.Depth call + 1).
  { destruct (closes_count _ _ _ ltac:(done) Hcall Hk) as [[? ->]|[_ ?]]; lia. }
  split_and!; [done|done|done|lia|]. exists nl. split; [done|lia].
Qed.

Lemma depth_step seen rets0 call m m' :
  Built seen rets0 m → Forall callDepthOK seen → callDepthOK call →
  DepthInv m → bodyStep call m m' → DepthInv m'.
Proof.
  intros HB Hdone Hcall [[d0 Hchain] Hchild] Hstep.
  destruct Hstep as [Hs|p ln k m1 l Hp Hln Hk Hm1 Hl].
  - destruct HB as [_ Hnil]. specialize (Hnil Hs).
    unfold allocated. simpl. rewrite Hnil, Hs. simpl. split.
    + exists (motypes.Depth call). intros [|i] q; [|done]. intros [= <-].
      exists (newNode call). split; [done|simpl; lia].
    + intros [|q] n c; [|done]. intros [= <-]. simpl. by intros ?%elem_of_nil.
  - destruct (link_depths _ _ _ _ _ _ _ _ _ _ HB Hdone Hcall Hchain Hp Hln Hk Hm1 Hl)
      as (_ & _ & Hchain1 & Hd & nl & Hnl & Hdl).
    pose proof (popMany_sameCall _ _ _ Hm1) as Hsame.
    destruct (sameCall_lookup _ _ _ _ Hsame (allocated_new call m))
      as (ne & Hne & Hse).
    assert (Hde : depth ne = motypes.Depth call) by apply Hse.
    pose proof (alter_sameDepth (addCall (length (heap m))) l (heap m1)
                  (λ _, eq_refl)) as Hsd.
    split; simpl.
    + exists d0. destruct (sameDepth_lookup _ _ _ _ Hsd Hne) as (ne' & ? & ?).
      eapply depthChain_snoc; [by eapply depthChain_sameDepth|done|]. lia.
    + eapply childDepth_addCall; [|done|done|lia].
      apply (childDepth_sameCall (heap (allocated call m))); [done|].
      unfold allocated. simpl. by apply childDepth_alloc.
Qed.

Lemma depth_start t : DepthInv (start t).
Proof. split; [exists 0; by intros i p|by intros p n c]. Qed.

Lemma depth_rangeLoop seen rets0 calls m m' :
  Built seen rets0 m → Forall callDepthOK seen → Forall callDepthOK calls →
  DepthInv m → rangeLoop calls m = Ok m' → DepthInv m'.
Proof.
  revert seen m. induction calls as [|call calls IH]; intros seen m HB Hd Hc HI;
    simpl.
  - by intros [= <-].
  - destruct (loopBody call m) as [m1|] eqn:Hm1; [|done]. simpl. intros Hr.
    apply loopBody_Ok in Hm1. apply Forall_cons_1 in Hc as [Hcall Hc].
    apply (IH (seen ++ [call]) m1); [by eapply built_step| |done| |done].
    + apply Forall_app. split; [done|by constructor].
    + by eapply depth_step.
Qed.

(** ** The whole builder *)

Lemma rangeLoop_app calls1 calls2 m :
  rangeLoop (calls1 ++ calls2) m = m1 ← rangeLoop calls1 m; rangeLoop calls2 m1.
Proof.
  revert m. induction calls1 as [|c calls1 IH]; intros m; simpl; [done|].
  destruct (loopBody c m); simpl; [apply IH|done].
Qed.

Lemma buildCallStack_Ok t p m :
  buildCallStack t = Ok (p, m) ↔
  ∃ m1, rangeLoop (motypes.InternalTxCalls t) (start t) = Ok m1 ∧
        nodes m1 !! 0%nat = Some p ∧
        popMany (length (nodes m1)) m1 = Ok m.
Proof.
  unfold buildCallStack. fold (start t).
  destruct (rangeLoop _ _) as [m1|e]; simpl.
  - destruct (nodes m1 !! 0%nat) as [q|] eqn:Hq.
    + rewrite drainLoop_popMany by done.
      destruct (popMany _ m1) as [m2|e] eqn:Hm2; simpl; split.
      * intros [= <- <-]. eauto.
      * intros (? & [= <-] & Hq' & Hm2'). congruence.
      * done.
      * intros (? & [= <-] & _ & Hm2'). congruence.
    + split; [done|]. intros (? & [= <-] & Hq' & _). congruence.
  - split; [done|]. by intros (? & ? & _).
Qed.

Lemma bodyStep_calls call m m' :
  bodyStep call m m' →
  motypes.InternalTxCalls (tx m') = motypes.InternalTxCalls (tx m).
Proof.
  intros [Hs|p ln k m1 l Hp Hln Hk Hm1 Hl]; [done|]. simpl.
  by destruct (popMany_returns _ _ _ Hm1) as (_ & _ & ->).
Qed.

Lemma rangeLoop_calls calls m m' :
  rangeLoop calls m = Ok m' →
  motypes.InternalTxCalls (tx m') = motypes.InternalTxCalls (tx m).
Proof.
  revert m. induction calls as [|call calls IH]; intros m; simpl.
  - by intros [= <-].
  - destruct (loopBody call m) as [m1|] eqn:Hm1; [|done]. simpl. intros Hr.
    apply loopBody_Ok, bodyStep_calls in Hm1. rewrite <- Hm1. by apply IH.
Qed.

(** What a successful build leaves: the root is the first node
    allocated, every call event has its cell, in order, the cells form
    one tree laid out in pre-order, and the transaction has lost one
    return event per call event. *)
Lemma buildCallStack_result t p m :
  buildCallStack t = Ok (p, m) →
  p = 0%nat ∧ nodes m = [] ∧
  Forall2 builtFrom (motypes.InternalTxCalls t) (heap m) ∧
  span (heap m) 0%nat (length (heap m)) ∧
  motypes.InternalTxCalls (tx m) = motypes.InternalTxCalls t ∧
  returnsOf m =
    drop (length (motypes.InternalTxCalls t)) (motypes.InternalTxReturns t) ∧
  (length (motypes.InternalTxCalls t) ≤ length (motypes.InternalTxReturns t))%nat.
Proof.
  intros (m1 & Hm1 & Hp & Hm)%buildCallStack_Ok.
  pose proof (built_rangeLoop _ _ _ _ _ (built_start t) Hm1) as [Hsh1 _].
  simpl in Hsh1.
  pose proof (shape_popMany _ _ _ _ _ _ Hsh1 Hm) as [(j & Hj & Hje & Hjr) Hb _ _].
  pose proof (popMany_sameCall _ _ _ Hm) as Hsame.
  pose proof (Forall2_length _ _ _ Hsame) as Hlen.
  destruct (popMany_nodes _ _ _ Hm) as [_ Hnodes].
  rewrite Nat.sub_diag, take_0 in Hnodes. rewrite Hnodes in Hje. simpl in Hje.
  pose proof (Forall2_length _ _ _ Hb) as Hlenb.
  destruct Hsh1 as [_ _ Hsp Hroot].
  destruct (nodes m1) as [|q s] eqn:Hs; [done|]. injection Hp as ->.
  rewrite (Hroot p eq_refl) in *.
  split_and!; [done..| | | |].
  - rewrite <- Hlen. apply (span_frame (heap m1)); [by eapply spine_span|].
    intros; by apply sameCall_callsAt.
  - destruct (popMany_returns _ _ _ Hm) as (_ & _ & ->).
    by rewrite (rangeLoop_calls _ _ _ Hm1).
  - rewrite Hj. f_equal. lia.
  - lia.
Qed.

Lemma builtTree_Ok t tree :
  builtTree t = Ok (Some tree) →
  Forall2 builtFrom (motypes.InternalTxCalls t) (preorder tree).
Proof.
  unfold builtTree.
  destruct (buildCallStack t) as [[p m]|] eqn:Hb; [|done]. simpl. intros [= Hl].
  destruct (buildCallStack_result _ _ _ Hb) as (-> & _ & Hbuilt & Hspan & _).
  destruct (span_load _ _ Hspan eq_refl) as (tree' & Htree & Hpre).
  rewrite Htree in Hl. injection Hl as <-. by rewrite Hpre.
Qed.

Lemma buildCallStack_builtTree t p m :
  buildCallStack t = Ok (p, m) →
  ∃ tree, builtTree t = Ok (Some tree) ∧ preorder tree = heap m.
Proof.
  intros Hb. unfold builtTree. rewrite Hb. simpl.
  destruct (buildCallStack_result _ _ _ Hb) as (-> & _ & Hbuilt & Hspan & _).
  destruct (span_load _ _ Hspan eq_refl) as (tree & -> & Hpre). eauto.
Qed.

(** ** More returns than calls *)

Lemma popResolve_extend extra m m' :
  popResolve m = Ok m' → popResolve (extend extra m) = Ok (extend extra m').
Proof.
  intros (s & q & r & rest & Hs & Hr & ->)%popResolve_Ok.
  apply popResolve_Ok. exists s, q, r, (rest ++ extra). split_and!; [done| |done].
  unfold returnsOf in *. simpl. by rewrite Hr.
Qed.

Lemma popMany_extend extra k m m' :
  popMany k m = Ok m' → popMany k (extend extra m) = Ok (extend extra m').
Proof.
  revert m. induction k as [|k IH]; intros m; simpl.
  - by intros [= <-].
  - destruct (popResolve m) as [m1|] eqn:Hm1; [|done]. simpl. intros Hk.
    rewrite (popResolve_extend _ _ _ Hm1). simpl. by apply IH.
Qed.

Lemma bodyStep_extend extra call m m' :
  bodyStep call m m' → bodyStep call (extend extra m) (extend extra m').
Proof.
  intros [Hs|p ln k m1 l Hp Hln Hk Hm1 Hl].
  - by apply (bodyStep_first call (extend extra m)).
  - apply (popMany_extend extra) in Hm1.
    by apply (bodyStep_link call (extend extra m) p ln k (extend extra m1) l).
Qed.

Lemma rangeLoop_extend extra calls m m' :
  rangeLoop calls m = Ok m' →
  rangeLoop calls (extend extra m) = Ok (extend extra m').
Proof.
  revert m. induction calls as [|call calls IH]; intros m; simpl.
  - by intros [= <-].
  - destruct (loopBody call m) as [m1|] eqn:Hm1; [|done]. simpl. intros Hr.
    apply loopBody_Ok, (bodyStep_extend extra), loopBody_Ok in Hm1.
    rewrite Hm1. simpl. by apply IH.
Qed.

Lemma buildCallStack_extend extra t p m :
  buildCallStack t = Ok (p, m) →
  buildCallStack (withMoreReturns extra t) = Ok (p, extend extra m).
Proof.
  intros (m1 & Hm1 & Hp & Hm)%buildCallStack_Ok. apply buildCallStack_Ok.
  exists (extend extra m1). split_and!.
  - by apply (rangeLoop_extend extra) in Hm1.
  - done.
  - by apply (popMany_extend extra) in Hm.
Qed.

(** ** The stack and the heap while calls close *)

Lemma depthChain_NoDup h s d0 : depthChain h s d0 → NoDup s.
Proof.
  intros Hc. apply NoDup_alt. intros i j p Hi Hj.
  destruct (Hc _ _ Hi) as (n & Hn & Hd). destruct (Hc _ _ Hj) as (n' & Hn' & Hd').
  rewrite Hn in Hn'. injection Hn' as <-. lia.
Qed.

Lemma elem_of_drop_inv {A} (l : list A) n x : x ∈ drop n l → x ∈ l.
Proof.
  intros Hx. rewrite <- (take_drop n l). apply elem_of_app. by right.
Qed.

Lemma popMany_untouched k m m' p :
  popMany k m = Ok m' →
  p ∉ drop (length (nodes m) - k) (nodes m) →
  heap m' !! p = heap m !! p.
Proof.
  revert m. induction k as [|k IH]; intros m; simpl.
  - by intros [= <-].
  - destruct (popResolve m) as [m1|] eqn:Hm1; [|done]. simpl. intros Hk Hp.
    pose proof (popMany_nodes _ _ _ Hk) as [Hle _].
    apply popResolve_Ok in Hm1 as (s & q & r & rest & Hs & _ & ->).
    simpl in *. rewrite Hs, length_app in Hp. simpl in Hp.
    replace (length s + 1 - S k)%nat with (length s - k)%nat in Hp by lia.
    rewrite drop_app_le in Hp by lia.
    apply not_elem_of_app in Hp as [Hp Hq].
    rewrite (IH _ Hk) by done. simpl.
    apply list_lookup_alter_ne. intros ->. apply Hq. by apply list_elem_of_singleton.
Qed.

(** The [j]-th node from the top takes the [j]-th return of the queue. *)
Lemma popMany_resolved k m m' j p r :
  popMany k m = Ok m' → NoDup (nodes m) → (j < k)%nat →
  reverse (nodes m) !! j = Some p → returnsOf m !! j = Some r →
  heap m' !! p = setReturn r <$> heap m !! p.
Proof.
  revert m j. induction k as [|k IH]; intros m j; simpl; [lia|].
  destruct (popResolve m) as [m1|] eqn:Hm1; [|done]. simpl.
  intros Hk Hnd Hj Hp Hr.
  apply popResolve_Ok in Hm1 as (s & q & r0 & rest & Hs & Hrets & ->).
  rewrite Hs, reverse_snoc in Hp. rewrite Hrets in Hr.
  rewrite Hs in Hnd. apply NoDup_app in Hnd as (Hnds & Hsq & _).
  destruct j as [|j]; simpl in *.
  - injection Hp as <-. injection Hr as <-.
    rewrite (popMany_untouched _ _ _ q Hk); simpl.
    + apply list_lookup_alter_eq.
    + intros Hin%elem_of_drop_inv. apply (Hsq q Hin). by apply list_elem_of_singleton.
  - rewrite (IH _ j Hk); simpl; [|done|lia|done|done].
    f_equal. apply list_lookup_alter_ne. intros <-.
    apply (Hsq q); [|by apply list_elem_of_singleton].
    apply elem_of_reverse. by eapply list_elem_of_lookup_2.
Qed.

(** ** A call that follows returns *)

(** The loop body on an event no deeper than the top of the stack, when
    the stack and the queue are deep enough: the calls that close, and
    the node that becomes the parent. *)
Lemma returning_step call m d0 top ln :
  depthChain (heap m) (nodes m) d0 →
  last (nodes m) = Some top → heap m !! top = Some ln →
  depthOK (depth ln) → callDepthOK call →
  motypes.Depth call <= depth ln → d0 < motypes.Depth call →
  (Z.to_nat (depth ln - motypes.Depth call + 1) ≤ length (returnsOf m))%nat →
  ∃ m1 parent np,
    popMany (Z.to_nat (depth ln - motypes.Depth call + 1)) (allocated call m) =
      Ok m1 ∧
    (0 < Z.to_nat (depth ln - motypes.Depth call + 1) < length (nodes m))%nat ∧
    nodes m !!
      (length (nodes m) - Z.to_nat (depth ln - motypes.Depth call + 1) - 1)%nat =
      Some parent ∧
    last (nodes m1) = Some parent ∧
    heap m !! parent = Some np ∧ depth np = motypes.Depth call - 1 ∧
    bodyStep call m
      (push (length (heap m)) (appendCall parent (length (heap m)) m1)).
Proof.
  intros Hchain Htop Hln Hdln Hdc Hle Hd0 Hrets.
  set (k := Z.to_nat (depth ln - motypes.Depth call + 1)) in *.
  set (s := nodes m) in *.
  destruct (depthChain_last _ _ _ _ Hchain Htop) as (ln' & Hln' & Hdepth).
  rewrite Hln in Hln'. injection Hln' as <-.
  assert (Hk : Z.of_nat k = depth ln - motypes.Depth call + 1) by (unfold k; lia).
  assert (Hks : (0 < k < length s)%nat) by lia.
  destruct (popMany_total k (allocated call m)) as [m1 Hm1];
    [change (nodes (allocated call m)) with s; lia|done|].
  destruct (popMany_nodes _ _ _ Hm1) as [_ Hnodes].
  change (nodes (allocated call m)) with s in Hnodes.
  destruct (lookup_lt_is_Some_2 s (length s - k - 1)) as [parent Hparent]; [lia|].
  assert (Hlast : last (nodes m1) = Some parent).
  { rewrite Hnodes, last_lookup, length_take_le by lia.
    rewrite lookup_take_lt by lia.
    by replace (pred (length s - k)) with (length s - k - 1)%nat by lia. }
  destruct (Hchain _ _ Hparent) as (np & Hnp & Hdnp).
  exists m1, parent, np. split_and!; [done|lia|lia|done..|lia|].
  apply bodyStep_link with top ln k; try done.
  - by apply allocated_lookup.
  - right. split_and!; [|done|].
    + rewrite wrap32_succ by done. lia.
    + rewrite wrap32_sub by done. unfold iterations. by fold k.
Qed.

(** Without a node under the calls to close, or without enough return
    events, the same event makes the loop body panic. *)
Lemma returning_step_panics call m d0 top ln :
  depthChain (heap m) (nodes m) d0 →
  last (nodes m) = Some top → heap m !! top = Some ln →
  depthOK (depth ln) → callDepthOK call →
  motypes.Depth call <= depth ln →
  motypes.Depth call <= d0 ∨
  (length (returnsOf m) < Z.to_nat (depth ln - motypes.Depth call + 1))%nat →
  loopBody call m = Panic IndexOutOfRange.
Proof.
  intros Hchain Htop Hln Hdln Hdc Hle Hbad.
  destruct (depthChain_last _ _ _ _ Hchain Htop) as (ln' & Hln' & Hdepth).
  rewrite Hln in Hln'. injection Hln' as <-.
  rewrite loopBody_unfold, Htop. unfold deref.
  rewrite (allocated_lookup call _ _ _ Hln). simpl.
  assert (Hne : motypes.Depth call ≠ wrap32 (depth ln + 1))
    by (rewrite wrap32_succ by done; lia).
  apply Z.eqb_neq in Hne. rewrite Hne.
  assert (Hleb : (motypes.Depth call <=? depth ln) = true) by (by apply Z.leb_le).
  rewrite Hleb, wrap32_sub by done. unfold iterations.
  destruct (popMany _ (allocated call m)) as [m1|e] eqn:Hm1; simpl.
  - destruct (popMany_nodes _ _ _ Hm1) as [Hk Hnodes].
    destruct (popMany_returns _ _ _ Hm1) as (Hr & _ & _).
    change (nodes (allocated call m)) with (nodes m) in *.
    change (returnsOf (allocated call m)) with (returnsOf m) in *.
    unfold lastNodeOf. rewrite Hnodes.
    replace (length (nodes m) -
             Z.to_nat (depth ln - motypes.Depth call + 1))%nat with 0%nat by lia.
    by rewrite take_0.
  - by apply popMany_Panic in Hm1 as [-> _].
Qed.

(** ** Well-formed traces build *)

Lemma bodyStep_last call m m' :
  bodyStep call m m' → last (nodes m') = Some (length (heap m)).
Proof. intros [?|?????????]; simpl; apply last_snoc. Qed.

Lemma built_last_cell seen rets0 call m :
  Built (seen ++ [call]) rets0 m →
  ∃ n, heap m !! length seen = Some n ∧ builtFrom call n.
Proof.
  intros [[_ Hb _ _] _].
  apply (Forall2_lookup_l _ _ _ (length seen) call) in Hb; [done|].
  by rewrite list_lookup_middle.
Qed.

Lemma built_length seen rets0 m : Built seen rets0 m → length (heap m) = length seen.
Proof. intros [[_ Hb _ _] _]. symmetry. by eapply Forall2_length. Qed.

Lemma chain_base c0 seen rets0 m d0 :
  Built (c0 :: seen) rets0 m → depthChain (heap m) (nodes m) d0 →
  d0 = motypes.Depth c0.
Proof.
  intros [[_ Hb _ Hroot] Hnil] Hchain.
  destruct (nodes m) as [|p s] eqn:Hs.
  - specialize (Hnil eq_refl). rewrite Hnil in Hb. inversion Hb.
  - rewrite (Hroot p eq_refl) in *.
    destruct (Hchain 0%nat 0%nat eq_refl) as (n & Hn & Hd).
    apply (Forall2_lookup_r _ _ _ 0%nat n) in Hb as (c & Hc & Hbc); [|done].
    injection Hc as <-. destruct Hbc as [Hbc _]. lia.
Qed.

Lemma returns_left seen rets0 m :
  Built seen rets0 m →
  (length (returnsOf m) + length seen = length rets0 + length (nodes m))%nat.
Proof.
  intros HB. pose proof (built_length _ _ _ HB) as Hlen.
  destruct HB as [[(j & Hj & Hje & Hjr) _ _ _] _].
  rewrite Hj, length_drop. lia.
Qed.

Lemma loopBody_wellFormed c0 seen rets0 call m top ln :
  Built (c0 :: seen) rets0 m → Forall callDepthOK (c0 :: seen) →
  motypes.Depth c0 = 0 → DepthInv m →
  last (nodes m) = Some top → heap m !! top = Some ln →
  1 <= motypes.Depth call <= depth ln + 1 → motypes.Depth call < 2 ^ 31 →
  (length (c0 :: seen) < length rets0)%nat →
  ∃ m', loopBody call m = Ok m'.
Proof.
  intros HB Hdone Hc0 [[d0 Hchain] Hchild] Htop Hln Hd Hlt Hrets.
  pose proof (chain_base _ _ _ _ _ HB Hchain) as Hd0. rewrite Hc0 in Hd0. subst d0.
  assert (Hln_ok : depthOK (depth ln)).
  { destruct HB as [[_ Hb _ _] _]. by eapply built_depthOK. }
  assert (Hcall : callDepthOK call) by (unfold callDepthOK, depthOK; lia).
  destruct (decide (motypes.Depth call = depth ln + 1)) as [Heq|Hne].
  - rewrite loopBody_unfold, Htop. unfold deref.
    rewrite (allocated_lookup call _ _ _ Hln). simpl.
    apply (wrap32_succ _ _ Hln_ok Hcall) in Heq. apply Z.eqb_eq in Heq.
    rewrite Heq. eauto.
  - destruct (depthChain_last _ _ _ _ Hchain Htop) as (ln' & Hln' & Hdepth).
    rewrite Hln in Hln'. injection Hln' as <-.
    pose proof (returns_left _ _ _ HB).
    destruct (returning_step call m 0 top ln)
      as (m1 & parent & np & _ & _ & _ & _ & _ & _ & Hstep);
      [done..|lia|lia|lia|].
    apply loopBody_Ok in Hstep. eauto.
Qed.

Lemma rangeLoop_wellFormed c0 rets0 calls :
  ∀ seen m top ln,
  Built (c0 :: seen) rets0 m → Forall callDepthOK (c0 :: seen) →
  motypes.Depth c0 = 0 → DepthInv m →
  last (nodes m) = Some top → heap m !! top = Some ln →
  nested (depth ln) (motypes.Depth <$> calls) →
  Forall (λ c, motypes.Depth c < 2 ^ 31) calls →
  (length (c0 :: seen) + length calls ≤ length rets0)%nat →
  ∃ m', rangeLoop calls m = Ok m'.
Proof.
  induction calls as [|call calls IH];
    intros seen m top ln HB Hdone Hc0 HI Htop Hln Hnest Hlt Hrets; simpl.
  - eauto.
  - destruct Hnest as [Hd Hnest]. apply Forall_cons_1 in Hlt as [Hlt1 Hlt].
    simpl in Hrets.
    destruct (loopBody_wellFormed c0 seen rets0 call m top ln) as [m1 Hm1];
      [done..|simpl; lia|].
    rewrite Hm1. simpl. pose proof Hm1 as Hstep. apply loopBody_Ok in Hstep.
    assert (Hcall : callDepthOK call) by (unfold callDepthOK, depthOK; lia).
    pose proof (built_step _ _ _ _ _ HB Hstep) as HB1.
    pose proof (depth_step _ _ _ _ _ HB Hdone Hcall HI Hstep) as HI1.
    destruct (built_last_cell _ _ _ _ HB1) as (n & Hn & Hbn).
    assert (Hdone1 : Forall callDepthOK (c0 :: seen ++ [call])).
    { change (c0 :: seen ++ [call]) with ((c0 :: seen) ++ [call]).
      apply Forall_app. split; [done|by constructor]. }
    assert (Htop1 : last (nodes m1) = Some (length (c0 :: seen))).
    { rewrite (bodyStep_last _ _ _ Hstep). f_equal. by eapply built_length. }
    assert (Hnest1 : nested (depth n) (motypes.Depth <$> calls)).
    { destruct Hbn as [-> _]. done. }
    apply (IH (seen ++ [call]) m1 (length (c0 :: seen)) n); try done.
    simpl. rewrite length_app. simpl in *. lia.
Qed.

Lemma buildCallStack_wellFormed t :
  wellFormed t → ∃ p m, buildCallStack t = Ok (p, m).
Proof.
  destruct t as [calls rets]. unfold wellFormed. simpl.
  intros (Hdepths & Hlt & Hlen).
  destruct calls as [|c0 calls]; [done|]. destruct Hdepths as [Hc0 Hnest].
  apply Forall_cons_1 in Hlt as [Hlt0 Hlt].
  set (t := {| motypes.InternalTxCalls := c0 :: calls;
               motypes.InternalTxReturns := rets |}).
  assert (Hfirst : bodyStep c0 (start t) (push 0%nat (allocated c0 (start t))))
    by (by apply (bodyStep_first c0 (start t))).
  assert (Hok0 : callDepthOK c0) by (unfold callDepthOK, depthOK; lia).
  pose proof (built_step _ _ _ _ _ (built_start t) Hfirst) as HB.
  pose proof (depth_step _ _ _ _ _ (built_start t) (Forall_nil_2 _) Hok0
                (depth_start t) Hfirst) as HI.
  destruct (rangeLoop_wellFormed c0 rets calls [] _ 0%nat (newNode c0) HB)
    as [m1 Hm1]; try done.
  - by constructor.
  - simpl. by rewrite Hc0.
  - simpl in *. lia.
  - assert (HB1 : Built ([c0] ++ calls) rets m1) by (by eapply built_rangeLoop).
    pose proof (returns_left _ _ _ HB1) as Hleft.
    pose proof (built_length _ _ _ HB1) as Hheap.
    destruct (popMany_total (length (nodes m1)) m1) as [m Hm]; [done| |].
    { simpl in *. lia. }
    destruct (nodes m1) as [|p s] eqn:Hs.
    { destruct HB1 as [_ Hnil]. specialize (Hnil Hs). by rewrite Hnil in Hheap. }
    exists p, m. apply buildCallStack_Ok. exists m1. split_and!.
    + apply loopBody_Ok in Hfirst.
      change (rangeLoop (c0 :: calls) (start t) = Ok m1).
      cbn [rangeLoop]. by rewrite Hfirst.
    + by rewrite Hs.
    + by rewrite Hs.
Qed.

(** ** No dangling pointer *)

Lemma spine_top_valid h s top e :
  spine h s e → last s = Some top → is_Some (h !! top).
Proof.
  intros Hsp [s' ->]%last_Some.
  destruct (spine_bounds _ _ _ _ Hsp) as [? _]. apply lookup_lt_is_Some. lia.
Qed.

(** Every pointer on the stack leads to a node: the writes through the
    pointers of the stack, which the model makes with [alter], are writes
    to nodes that exist. *)
Lemma shape_stack_valid seen rets0 e m :
  Shape seen rets0 e m → Forall (λ p, p < length (heap m))%nat (nodes m).
Proof.
  intros [_ _ Hsp _]. destruct (nodes m) as [|p s _] using rev_ind; [constructor|].
  destruct (spine_bounds _ _ _ _ Hsp) as [Hp Hs].
  apply Forall_app. split.
  - eapply Forall_impl; [done|]. simpl. lia.
  - constructor; [lia|constructor].
Qed.

Lemma loopBody_no_nil seen rets0 call m :
  Built seen rets0 m → loopBody call m ≠ Panic NilDereference.
Proof.
  intros [[_ _ Hsp _] _] (p & Hp & He)%loopBody_Panic.
  destruct (spine_top_valid _ _ _ _ Hsp Hp) as [n Hn].
  rewrite (allocated_lookup call _ _ _ Hn) in He.
  by destruct He as [[? _]|[? _]].
Qed.

Lemma rangeLoop_no_nil seen rets0 calls m :
  Built seen rets0 m → rangeLoop calls m ≠ Panic NilDereference.
Proof.
  revert seen m. induction calls as [|call calls IH]; intros seen m HB; simpl;
    [done|].
  destruct (loopBody call m) as [m1|e] eqn:Hm1; simpl.
  - apply loopBody_Ok in Hm1. eapply IH. by eapply built_step.
  - intros [= ->]. by eapply loopBody_no_nil.
Qed.

Lemma buildCallStack_no_nil t : buildCallStack t ≠ Panic NilDereference.
Proof.
  unfold buildCallStack. fold (start t).
  destruct (rangeLoop _ _) as [m1|e] eqn:Hm1; simpl.
  - destruct (nodes m1 !! 0%nat); [|done].
    rewrite drainLoop_popMany by done.
    destruct (popMany _ m1) as [m|e] eqn:Hm; simpl; [done|].
    by apply popMany_Panic in Hm as [-> _].
  - intros [= ->]. by apply (rangeLoop_no_nil _ _ _ _ (built_start t)) in Hm1.
Qed.

(** ** Depths and order in the tree read back *)

Lemma load_depthLinked h :
  childDepth h →
  ∀ fuel p t, load fuel h p = Some t → h !! p = Some (root t) ∧ depthLinked t.
Proof.
  intros Hchild. induction fuel as [|fuel IH]; intros p t; simpl; [done|].
  destruct (h !! p) as [n|] eqn:Hn; [|done].
  destruct (mapM (load fuel h) (Calls n)) as [cs|] eqn:Hcs; [|done].
  intros [= <-]. split; [done|]. apply mapM_Some in Hcs.
  assert (Hall : ∀ tc, tc ∈ cs →
            ∃ c, c ∈ Calls n ∧ h !! c = Some (root tc) ∧ depthLinked tc).
  { intros tc [i Hi]%list_elem_of_lookup_1.
    destruct (Forall2_lookup_r _ _ _ _ _ Hcs Hi) as (c & Hc & Hload).
    destruct (IH _ _ Hload). exists c. split_and!; [|done..].
    by eapply list_elem_of_lookup_2. }
  constructor.
  - apply Forall_forall. intros tc (c & Hin & Hc & _)%Hall.
    destruct (Hchild _ _ _ Hn Hin) as (nc & Hnc & Hd).
    rewrite Hc in Hnc. by injection Hnc as ->.
  - apply Forall_forall. by intros tc (c & _ & _ & ?)%Hall.
Qed.

(** Siblings are laid out from left to right. *)
Lemma spans_sorted h cs a e :
  spans h cs a e → Forall (λ c, a ≤ c < e)%nat cs ∧ StronglySorted lt cs.
Proof.
  induction 1 as [a|c cs mid e Hc Hcs [IH1 IH2]].
  - split; constructor.
  - pose proof (span_lt _ _ _ Hc).
    assert (mid ≤ e)%nat.
    { destruct cs; inversion Hcs; subst; [lia|].
      match goal with H : span _ _ _ |- _ => apply span_lt in H end.
      match goal with H : spans _ _ _ _ |- _ => apply spans_le in H; lia end. }
    split.
    + constructor; [lia|]. eapply Forall_impl; [done|]. simpl. lia.
    + constructor; [done|]. eapply Forall_impl; [done|]. simpl. lia.
Qed.

Lemma span_spans_inner h :
  (∀ p e, span h p e → ∀ q, (p ≤ q < e)%nat →
     ∃ cs e', callsAt h q = Some cs ∧ spans h cs (S q) e') ∧
  (∀ cs a e, spans h cs a e → ∀ q, (a ≤ q < e)%nat →
     ∃ cs' e', callsAt h q = Some cs' ∧ spans h cs' (S q) e').
Proof.
  set (P := λ p e, ∀ q, (p ≤ q < e)%nat →
     ∃ cs e', callsAt h q = Some cs ∧ spans h cs (S q) e').
  set (Q := λ (cs : list nat) a e, ∀ q, (a ≤ q < e)%nat →
     ∃ cs' e', callsAt h q = Some cs' ∧ spans h cs' (S q) e').
  assert (HP : ∀ p cs e, callsAt h p = Some cs → spans h cs (S p) e →
                         Q cs (S p) e → P p e).
  { intros p cs e Hp Hs IH q Hq. destruct (decide (q = p)) as [->|Hne]; [eauto|].
    apply IH. lia. }
  assert (HQ0 : ∀ a, Q [] a a) by (intros a q ?; lia).
  assert (HQ : ∀ c cs mid e, span h c mid → P c mid → spans h cs mid e →
                             Q cs mid e → Q (c :: cs) c e).
  { intros c cs mid e Hc IH1 Hs IH2 q Hq.
    destruct (decide (q < mid)%nat); [apply IH1|apply IH2]; lia. }
  split.
  - apply (span_mut h P Q HP HQ0 HQ).
  - apply (spans_mut h P Q HP HQ0 HQ).
Qed.

Lemma span_calls_sorted h e q n :
  span h 0%nat e → h !! q = Some n → (q < e)%nat → StronglySorted lt (Calls n).
Proof.
  intros Hs Hq Hlt.
  destruct (proj1 (span_spans_inner h) _ _ Hs q ltac:(lia)) as (cs & e' & Hcs & Hsp).
  apply callsAt_Some in Hcs as (n' & Hn' & <-).
  rewrite Hq in Hn'. injection Hn' as <-. by apply spans_sorted in Hsp as [_ ?].
Qed.

(** ** The order of the returns *)






























(** ** The flattened output *)








(** ** The expected outputs of the tests *)

(** [TestInternalTxCalls]: the nodes of the expected call stack, in the
    order of the JSON text, with the number of entries under [Calls]. *)
Example TestInternalTxCalls_nodes :
  (λ n, (encodeBytes (From n), encodeBytes (To n), encodeBytes (Input n),
         encodeBytes (Output n), StatusCode n, GasLeft n, length (Calls n))) <$>
    preorder Fixture.tree =
    [
      ("0x6db26a33492ccc4006599ed88b569c0b13c5d17a", "0xe32d21f68654d87a4aad8c80616db99d95dde0f1",
       "0xa11a1f360000000000000000000000000000000000000000000000000000000000000100",
       "0x0000000000000000000000000000000000000000000001000000000000000000",
       0, 890031, 2%nat);
      ("0xe32d21f68654d87a4aad8c80616db99d95dde0f1", "0xa8115c4df61f9fb1e686d1692cd53fa4d4ced237",
       "0xa27eaec20000000000000000000000000000000000000000000000000000000000000101",
       "0x0000000000000000000000000000000000000000000001010000000000000000",
       0, 890032, 2%nat);
      ("0xa8115c4df61f9fb1e686d1692cd53fa4d4ced237", "0x0eefec15be847ced628df09459cb9b8492337210",
       "0xe73620c30000000000000000000000000000000000000000000000000000000000000102",
       "0x0000000000000000000000000000000000000000000001020000000000000000",
       0, 879854, 0%nat);
      ("0xa8115c4df61f9fb1e686d1692cd53fa4d4ced237", "0x0eefec15be847ced628df09459cb9b8492337210",
       "0x09010e930000000000000000000000000000000000000000000000000000000000000103",
       "0x0000000000000000000000000000000000000000000001030000000000000000",
       0, 876640, 0%nat);
      ("0xe32d21f68654d87a4aad8c80616db99d95dde0f1", "0xa8115c4df61f9fb1e686d1692cd53fa4d4ced237",
       "0xa27eaec20000000000000000000000000000000000000000000000000000000000000105",
       "0x0000000000000000000000000000000000000000000001050000000000000000",
       0, 876471, 2%nat);
      ("0xa8115c4df61f9fb1e686d1692cd53fa4d4ced237", "0x0eefec15be847ced628df09459cb9b8492337210",
       "0xe73620c30000000000000000000000000000000000000000000000000000000000000106",
       "0x0000000000000000000000000000000000000000000001060000000000000000",
       0, 866805, 0%nat);
      ("0xa8115c4df61f9fb1e686d1692cd53fa4d4ced237", "0x0eefec15be847ced628df09459cb9b8492337210",
       "0x09010e930000000000000000000000000000000000000000000000000000000000000107",
       "0x0000000000000000000000000000000000000000000001070000000000000000",
       0, 863291, 0%nat) ]%string.
Proof. vm_compute. reflexivity. Qed.

(** [TestGetTransactionReceipt]: the expected [internalTransactions]. *)
Example TestGetTransactionReceipt_callList :
  internalTransactions (motypes.InternalTxCalls Fixture.moTx4)
    (Some Fixture.tree) =
    [
      {| callPath := "call_0";
         from := "0x6db26a33492ccc4006599ed88b569c0b13c5d17a";
         to := "0xe32d21f68654d87a4aad8c80616db99d95dde0f1";
         gas := Some "0xeef6c";
         value := "0x0";
         input := "0xa11a1f360000000000000000000000000000000000000000000000000000000000000100";
         status := "0x0";
         gasUsed := Some "0x15abd";
         output := "0x0000000000000000000000000000000000000000000001000000000000000000" |};
      {| callPath := "call_0_0";
         from := "0xe32d21f68654d87a4aad8c80616db99d95dde0f1";
         to := "0xa8115c4df61f9fb1e686d1692cd53fa4d4ced237";
         gas := Some "0xe571e";
         value := "0x0";
         input := "0xa27eaec20000000000000000000000000000000000000000000000000000000000000101";
         status := "0x0";
         gasUsed := Some "0xc26e";
         output := "0x0000000000000000000000000000000000000000000001010000000000000000" |};
      {| callPath := "call_0_0_0";
         from := "0xa8115c4df61f9fb1e686d1692cd53fa4d4ced237";
         to := "0x0eefec15be847ced628df09459cb9b8492337210";
         gas := Some "0xdc147";
         value := "0x0";
         input := "0xe73620c30000000000000000000000000000000000000000000000000000000000000102";
         status := "0x0";
         gasUsed := Some "0x5459";
         output := "0x0000000000000000000000000000000000000000000001020000000000000000" |};
      {| callPath := "staticcall_0_0_1";
         from := "0xa8115c4df61f9fb1e686d1692cd53fa4d4ced237";
         to := "0x0eefec15be847ced628df09459cb9b8492337210";
         gas := Some "0xd62ad";
         value := "0x0";
         input := "0x09010e930000000000000000000000000000000000000000000000000000000000000103";
         status := "0x0";
         gasUsed := Some "0x24d";
         output := "0x0000000000000000000000000000000000000000000001030000000000000000" |};
      {| callPath := "call_0_1";
         from := "0xe32d21f68654d87a4aad8c80616db99d95dde0f1";
         to := "0xa8115c4df61f9fb1e686d1692cd53fa4d4ced237";
         gas := Some "0xd8c25";
         value := "0x0";
         input := "0xa27eaec20000000000000000000000000000000000000000000000000000000000000105";
         status := "0x0";
         gasUsed := Some "0x2c6e";
         output := "0x0000000000000000000000000000000000000000000001050000000000000000" |};
      {| callPath := "call_0_1_0";
         from := "0xa8115c4df61f9fb1e686d1692cd53fa4d4ced237";
         to := "0x0eefec15be847ced628df09459cb9b8492337210";
         gas := Some "0xd434e";
         value := "0x0";
         input := "0xe73620c30000000000000000000000000000000000000000000000000000000000000106";
         status := "0x0";
         gasUsed := Some "0x959";
         output := "0x0000000000000000000000000000000000000000000001060000000000000000" |};
      {| callPath := "staticcall_0_1_1";
         from := "0xa8115c4df61f9fb1e686d1692cd53fa4d4ced237";
         to := "0x0eefec15be847ced628df09459cb9b8492337210";
         gas := Some "0xd2e88";
         value := "0x0";
         input := "0x09010e930000000000000000000000000000000000000000000000000000000000000107";
         status := "0x0";
         gasUsed := Some "0x24d";
         output := "0x0000000000000000000000000000000000000000000001070000000000000000" |} ]%string.
Proof. vm_compute. reflexivity. Qed.

(** ** Depths outside the data model *)

(** The hypothesis on depths in the statements about depths is needed:
    with a negative depth the subtraction [lastNode.depth - call.Depth]
    wraps around, no call is closed and the node is linked under a node
    that is not one level above it. *)
Example negative_depth_wraps :
  (∃ tree, builtTree Fixture.negativeDepth = Ok (Some tree) ∧
           depthsOf tree = [0; - 2 ^ 31]) ∧
  ¬ Forall callDepthOK (motypes.InternalTxCalls Fixture.negativeDepth).
Proof.
  split; [eexists; split; [vm_compute; reflexivity|reflexivity]|].
  intros H. apply Forall_cons_1 in H as [_ H].
  apply Forall_cons_1 in H as [H _].
  unfold callDepthOK, depthOK in H. simpl in H. lia.
Qed.

(** ** The traces that build *)

(** The machine after the first call event. *)
Lemma first_step t c0 :
  loopBody c0 (start t) = Ok (push 0%nat (allocated c0 (start t))).
Proof. apply loopBody_Ok. by apply (bodyStep_first c0 (start t)). Qed.

Lemma first_step_inv t c0 :
  Built [c0] (motypes.InternalTxReturns t) (push 0%nat (allocated c0 (start t))) ∧
  (callDepthOK c0 → DepthInv (push 0%nat (allocated c0 (start t)))).
Proof.
  pose proof (first_step t c0) as Hstep. apply loopBody_Ok in Hstep. split.
  - apply (built_step [] _ c0 _ _ (built_start t) Hstep).
  - intros Hok.
    apply (depth_step [] _ c0 _ _ (built_start t) (Forall_nil_2 _) Hok
             (depth_start t) Hstep).
Qed.

(** The node on top of the stack is the node of the last event. *)
Lemma built_top c0 seen rets0 m top ln :
  Built (c0 :: seen) rets0 m → DepthInv m →
  last (nodes m) = Some top → heap m !! top = Some ln →
  ∃ d0, d0 = motypes.Depth c0 ∧ depthChain (heap m) (nodes m) d0 ∧
        depth ln = d0 + Z.of_nat (length (nodes m)) - 1.
Proof.
  intros HB [[d0 Hchain] _] Htop Hln. exists d0.
  pose proof (chain_base _ _ _ _ _ HB Hchain) as Hd0.
  destruct (depthChain_last _ _ _ _ Hchain Htop) as (ln' & Hln' & Hd).
  rewrite Hln in Hln'. injection Hln' as <-. done.
Qed.

Lemma loopBody_nestedUnder c0 seen rets0 call m top ln :
  Built (c0 :: seen) rets0 m → Forall callDepthOK (c0 :: seen) →
  callDepthOK call → DepthInv m →
  last (nodes m) = Some top → heap m !! top = Some ln →
  motypes.Depth c0 < motypes.Depth call <= depth ln + 1 →
  (length (c0 :: seen) < length rets0)%nat →
  ∃ m', loopBody call m = Ok m'.
Proof.
  intros HB Hdone Hcall HI Htop Hln Hd Hrets.
  destruct (built_top _ _ _ _ _ _ HB HI Htop Hln) as (d0 & -> & Hchain & Hdepth).
  assert (Hln_ok : depthOK (depth ln)).
  { destruct HB as [[_ Hb _ _] _]. by eapply built_depthOK. }
  destruct (decide (motypes.Depth call = depth ln + 1)) as [Heq|Hne].
  - rewrite loopBody_unfold, Htop. unfold deref.
    rewrite (allocated_lookup call _ _ _ Hln). simpl.
    apply (wrap32_succ _ _ Hln_ok Hcall) in Heq. apply Z.eqb_eq in Heq.
    rewrite Heq. eauto.
  - pose proof (returns_left _ _ _ HB).
    destruct (returning_step call m (motypes.Depth c0) top ln)
      as (m1 & parent & np & _ & _ & _ & _ & _ & _ & Hstep);
      [done..|lia|lia|simpl in *; lia|].
    apply loopBody_Ok in Hstep. eauto.
Qed.

Lemma rangeLoop_nestedUnder c0 rets0 calls :
  ∀ seen m top ln,
  Built (c0 :: seen) rets0 m → Forall callDepthOK (c0 :: seen) →
  Forall callDepthOK calls → DepthInv m →
  last (nodes m) = Some top → heap m !! top = Some ln →
  nestedUnder (motypes.Depth c0) (depth ln) (motypes.Depth <$> calls) = true →
  (length (c0 :: seen) + length calls ≤ length rets0)%nat →
  ∃ m', rangeLoop calls m = Ok m'.
Proof.
  induction calls as [|call calls IH];
    intros seen m top ln HB Hdone Hok HI Htop Hln Hnest Hrets; simpl.
  - eauto.
  - simpl in Hnest. apply andb_prop in Hnest as [Hd Hnest].
    apply andb_prop in Hd as [Hlo Hhi].
    apply Z.ltb_lt in Hlo. apply Z.leb_le in Hhi.
    apply Forall_cons_1 in Hok as [Hcall Hok]. simpl in Hrets.
    destruct (loopBody_nestedUnder c0 seen rets0 call m top ln) as [m1 Hm1];
      [done..|simpl; lia|].
    rewrite Hm1. simpl. pose proof Hm1 as Hstep. apply loopBody_Ok in Hstep.
    pose proof (built_step _ _ _ _ _ HB Hstep) as HB1.
    pose proof (depth_step _ _ _ _ _ HB Hdone Hcall HI Hstep) as HI1.
    destruct (built_last_cell _ _ _ _ HB1) as (n & Hn & Hbn).
    assert (Hdone1 : Forall callDepthOK (c0 :: seen ++ [call])).
    { change (c0 :: seen ++ [call]) with ((c0 :: seen) ++ [call]).
      apply Forall_app. split; [done|by constructor]. }
    assert (Htop1 : last (nodes m1) = Some (length (c0 :: seen))).
    { rewrite (bodyStep_last _ _ _ Hstep). f_equal. by eapply built_length. }
    apply (IH (seen ++ [call]) m1 (length (c0 :: seen)) n); try done.
    + destruct Hbn as [-> _]. done.
    + simpl. rewrite length_app. simpl in *. lia.
Qed.

(** The depths of the events of a successful run. *)
Lemma rangeLoop_Ok_nestedUnder c0 rets0 calls :
  ∀ seen m m' top ln,
  Built (c0 :: seen) rets0 m → Forall callDepthOK (c0 :: seen) →
  Forall callDepthOK calls → DepthInv m →
  last (nodes m) = Some top → heap m !! top = Some ln →
  rangeLoop calls m = Ok m' →
  nestedUnder (motypes.Depth c0) (depth ln) (motypes.Depth <$> calls) = true.
Proof.
  induction calls as [|call calls IH];
    intros seen m m' top ln HB Hdone Hok HI Htop Hln; [done|].
  rewrite fmap_cons. cbn [rangeLoop nestedUnder].
  apply Forall_cons_1 in Hok as [Hcall Hok].
  destruct (loopBody call m) as [m1|] eqn:Hm1; [|done]. simpl. intros Hrun.
  pose proof Hm1 as Hstep. apply loopBody_Ok in Hstep.
  pose proof (built_step _ _ _ _ _ HB Hstep) as HB1.
  pose proof (depth_step _ _ _ _ _ HB Hdone Hcall HI Hstep) as HI1.
  destruct (built_last_cell _ _ _ _ HB1) as (n & Hn & Hbn).
  assert (Hdone1 : Forall callDepthOK (c0 :: seen ++ [call])).
  { change (c0 :: seen ++ [call]) with ((c0 :: seen) ++ [call]).
    apply Forall_app. split; [done|by constructor]. }
  assert (Htop1 : last (nodes m1) = Some (length (c0 :: seen))).
  { rewrite (bodyStep_last _ _ _ Hstep). f_equal. by eapply built_length. }
  pose proof (IH (seen ++ [call]) m1 m' (length (c0 :: seen)) n
                HB1 Hdone1 Hok HI1 Htop1 Hn Hrun) as Hrest.
  destruct Hbn as [Hdn _]. rewrite Hdn in Hrest. rewrite Hrest, andb_true_r.
  destruct (built_top _ _ _ _ _ _ HB HI Htop Hln) as (d0 & -> & Hchain & Hdepth).
  destruct Hstep as [Hs|p ln' k m2 l Hp Hln' Hk Hm2 Hl].
  { by rewrite Hs in Htop. }
  rewrite Htop in Hp. injection Hp as <-.
  rewrite (allocated_lookup call _ _ _ Hln) in Hln'. injection Hln' as <-.
  destruct (link_depths _ _ _ _ _ _ _ _ _ _ HB Hdone Hcall Hchain Htop
              (allocated_lookup call _ _ _ Hln) Hk Hm2 Hl)
    as (_ & Hkd & _ & Hdc & _).
  assert (length (nodes m2) ≠ 0%nat).
  { intros H0. apply nil_length_inv in H0. by rewrite H0 in Hl. }
  apply andb_true_intro. split; [apply Z.ltb_lt|apply Z.leb_le]; lia.
Qed.

Lemma builds_returns t :
  Forall callDepthOK (motypes.InternalTxCalls t) →
  builds t = true → ∃ p m, buildCallStack t = Ok (p, m).
Proof.
  destruct t as [calls rets]. unfold builds, nestedCalls. simpl. intros Hok Hb.
  apply andb_prop in Hb as [Hnest Hlen]. apply Nat.leb_le in Hlen.
  destruct calls as [|c0 calls]; [done|]. simpl in Hnest.
  apply Forall_cons_1 in Hok as [Hok0 Hok].
  set (t := {| motypes.InternalTxCalls := c0 :: calls;
               motypes.InternalTxReturns := rets |}).
  destruct (first_step_inv t c0) as [HB HI]. specialize (HI Hok0).
  destruct (rangeLoop_nestedUnder c0 rets calls [] _ 0%nat (newNode c0) HB)
    as [m1 Hm1]; try done.
  - by constructor.
  - assert (HB1 : Built ([c0] ++ calls) rets m1) by (by eapply built_rangeLoop).
    pose proof (returns_left _ _ _ HB1) as Hleft.
    pose proof (built_length _ _ _ HB1) as Hheap.
    destruct (popMany_total (length (nodes m1)) m1) as [m Hm]; [done| |].
    { simpl in *. lia. }
    destruct (nodes m1) as [|p s] eqn:Hs.
    { destruct HB1 as [_ Hnil]. specialize (Hnil Hs). by rewrite Hnil in Hheap. }
    exists p, m. apply buildCallStack_Ok. exists m1. split_and!.
    + change (rangeLoop (c0 :: calls) (start t) = Ok m1).
      cbn [rangeLoop]. by rewrite (first_step t c0).
    + by rewrite Hs.
    + by rewrite Hs.
Qed.

Lemma returns_builds t p m :
  Forall callDepthOK (motypes.InternalTxCalls t) →
  buildCallStack t = Ok (p, m) → builds t = true.
Proof.
  intros Hok Hb.
  destruct (buildCallStack_result _ _ _ Hb) as (_ & _ & _ & _ & _ & _ & Hle).
  apply buildCallStack_Ok in Hb as (m1 & Hm1 & Hp & _).
  unfold builds, nestedCalls. apply andb_true_intro.
  split; [|by apply Nat.leb_le].
  destruct (motypes.InternalTxCalls t) as [|c0 calls] eqn:Hcalls.
  { simpl in Hm1. injection Hm1 as <-. done. }
  simpl. cbn [rangeLoop] in Hm1. rewrite (first_step t c0) in Hm1. simpl in Hm1.
  apply Forall_cons_1 in Hok as [Hok0 Hok].
  destruct (first_step_inv t c0) as [HB HI]. specialize (HI Hok0).
  apply (rangeLoop_Ok_nestedUnder c0 _ calls [] _ m1 0%nat (newNode c0) HB);
    try done.
  by constructor.
Qed.

(** ** The panics of the builder *)

Lemma topIsLast_step seen rets0 call m m' :
  Built seen rets0 m → bodyStep call m m' → topIsLast (seen ++ [call]) m'.
Proof.
  intros HB Hstep top Htop. rewrite (bodyStep_last _ _ _ Hstep) in Htop.
  injection Htop as <-. rewrite length_app, (built_length _ _ _ HB). simpl. lia.
Qed.

Lemma rangeLoop_Panic rets0 calls :
  ∀ seen m e,
  Built seen rets0 m → topIsLast seen m →
  Forall (λ c, int32 (motypes.Depth c)) calls →
  rangeLoop calls m = Panic e →
  e = IndexOutOfRange ∨
  ∃ i ci cj,
    (seen ++ calls) !! i = Some ci ∧ (seen ++ calls) !! S i = Some cj ∧
    e = DepthError (motypes.Depth ci) (motypes.Depth cj) ∧
    motypes.Depth ci + 1 < motypes.Depth cj.
Proof.
  induction calls as [|call calls IH]; intros seen m e HB Htop Hint; [done|].
  cbn [rangeLoop]. apply Forall_cons_1 in Hint as [Hcall Hint].
  destruct (loopBody call m) as [m1|e1] eqn:Hm1; simpl.
  - intros Hrun. apply loopBody_Ok in Hm1.
    replace (seen ++ call :: calls) with ((seen ++ [call]) ++ calls)
      by (by rewrite <- app_assoc).
    apply (IH _ m1); [by eapply built_step|by eapply topIsLast_step|done..].
  - intros [= <-]. pose proof (loopBody_no_nil _ _ call _ HB) as Hnil.
    pose proof Hm1 as (p & Hp & He)%loopBody_Panic.
    destruct (heap (allocated call m) !! p) as [ln|] eqn:Hln; [|by subst].
    destruct He as [(-> & Hne & Hlt)|[-> _]]; [|by left]. right.
    pose proof (Htop _ Hp) as Hlen.
    destruct HB as [[_ Hb Hsp _] _].
    destruct (spine_top_valid _ _ _ _ Hsp Hp) as [ln' Hln'].
    rewrite (allocated_lookup call _ _ _ Hln') in Hln. injection Hln as ->.
    destruct (Forall2_lookup_r _ _ _ _ _ Hb Hln') as (ci & Hci & Hbi).
    exists p, ci, call. destruct Hbi as [<- _]. split_and!; [| |done|].
    + by apply lookup_app_l_Some.
    + rewrite Hlen. by rewrite list_lookup_middle.
    + destruct (decide (motypes.Depth call = depth ln + 1)) as [Heq|]; [|lia].
      rewrite <- Heq, wrap32_id in Hne by done. done.
Qed.

(** ** The parent of a call *)

Lemma spans_head h c cs a e : spans h (c :: cs) a e → a = c.
Proof. by inversion 1. Qed.

Lemma spans_app_inv h l1 l2 :
  ∀ a e, spans h (l1 ++ l2) a e → ∃ mid, spans h l1 a mid ∧ spans h l2 mid e.
Proof.
  induction l1 as [|c l1 IH]; intros a e Hs; simpl in *.
  - exists a. split; [constructor|done].
  - inversion Hs as [|c' cs' mid0 e' Hc Hcs]; subst.
    destruct (IH _ _ Hcs) as (mid & H1 & H2). exists mid. split; [|done].
    by apply spans_cons with mid0.
Qed.

(** No node of a subtree is above the root of the subtree. *)
Lemma span_spans_depth h :
  childDepth h →
  (∀ p e, span h p e → ∀ np, h !! p = Some np →
     ∀ q nq, (p ≤ q < e)%nat → h !! q = Some nq → depth np <= depth nq) ∧
  (∀ cs a e, spans h cs a e →
     ∀ D, (∀ c nc, c ∈ cs → h !! c = Some nc → D <= depth nc) →
     ∀ q nq, (a ≤ q < e)%nat → h !! q = Some nq → D <= depth nq).
Proof.
  intros Hchild.
  set (P := λ p (e : nat), ∀ np, h !! p = Some np →
     ∀ q nq, (p ≤ q < e)%nat → h !! q = Some nq → depth np <= depth nq).
  set (Q := λ (cs : list nat) (a e : nat),
     ∀ D, (∀ c nc, c ∈ cs → h !! c = Some nc → D <= depth nc) →
     ∀ q nq, (a ≤ q < e)%nat → h !! q = Some nq → D <= depth nq).
  assert (HP : ∀ p cs e, callsAt h p = Some cs → spans h cs (S p) e →
                         Q cs (S p) e → P p e).
  { intros p cs e Hp Hs IH np Hnp q nq Hq Hnq.
    destruct (decide (q = p)) as [->|Hne].
    - rewrite Hnp in Hnq. injection Hnq as <-. lia.
    - apply callsAt_Some in Hp as (np' & Hnp' & <-).
      rewrite Hnp in Hnp'. injection Hnp' as <-.
      assert (depth np + 1 <= depth nq); [|lia].
      apply (IH (depth np + 1)) with q; [|lia|done].
      intros c nc Hc Hnc. destruct (Hchild _ _ _ Hnp Hc) as (nc' & Hnc' & Hd).
      rewrite Hnc in Hnc'. injection Hnc' as <-. lia. }
  assert (HQ0 : ∀ a, Q [] a a) by (intros a D _ q nq ?; lia).
  assert (HQ : ∀ c cs mid e, span h c mid → P c mid → spans h cs mid e →
                             Q cs mid e → Q (c :: cs) c e).
  { intros c cs mid e Hc IH1 Hs IH2 D HD q nq Hq Hnq.
    destruct (decide (q < mid)%nat).
    - inversion Hc as [c' cs' e' Hcalls _]; subst.
      apply callsAt_Some in Hcalls as (nc & Hnc & _).
      pose proof (HD c nc ltac:(by left) Hnc).
      pose proof (IH1 nc Hnc q nq ltac:(lia) Hnq). lia.
    - apply (IH2 D) with q; [|lia|done].
      intros c' nc' Hin. apply HD. by right. }
  split.
  - apply (span_mut h P Q HP HQ0 HQ).
  - apply (spans_mut h P Q HP HQ0 HQ).
Qed.

(** Every node of a subtree but its root is under [Calls] of a node of
    the subtree. *)
Lemma span_spans_parent h :
  (∀ p e, span h p e → ∀ q, (p < q < e)%nat →
     ∃ j nj, (p ≤ j < q)%nat ∧ h !! j = Some nj ∧ q ∈ Calls nj) ∧
  (∀ cs a e, spans h cs a e → ∀ q, (a ≤ q < e)%nat →
     q ∈ cs ∨ ∃ j nj, (a ≤ j < q)%nat ∧ h !! j = Some nj ∧ q ∈ Calls nj).
Proof.
  set (P := λ p e, ∀ q, (p < q < e)%nat →
     ∃ j nj, (p ≤ j < q)%nat ∧ h !! j = Some nj ∧ q ∈ Calls nj).
  set (Q := λ (cs : list nat) a e, ∀ q, (a ≤ q < e)%nat →
     q ∈ cs ∨ ∃ j nj, (a ≤ j < q)%nat ∧ h !! j = Some nj ∧ q ∈ Calls nj).
  assert (HP : ∀ p cs e, callsAt h p = Some cs → spans h cs (S p) e →
                         Q cs (S p) e → P p e).
  { intros p cs e Hp Hs IH q Hq.
    apply callsAt_Some in Hp as (np & Hnp & <-).
    destruct (IH q ltac:(lia)) as [Hin|(j & nj & ? & ? & ?)].
    - exists p, np. split_and!; [lia|lia|done|done].
    - exists j, nj. split_and!; [lia|lia|done|done]. }
  assert (HQ0 : ∀ a, Q [] a a) by (intros a q ?; lia).
  assert (HQ : ∀ c cs mid e, span h c mid → P c mid → spans h cs mid e →
                             Q cs mid e → Q (c :: cs) c e).
  { intros c cs mid e Hc IH1 Hs IH2 q Hq.
    pose proof (span_lt _ _ _ Hc).
    destruct (decide (q = c)) as [->|Hne]; [left; by left|].
    destruct (decide (q < mid)%nat).
    - right. destruct (IH1 q ltac:(lia)) as (j & nj & ? & ? & ?).
      exists j, nj. split_and!; [lia|lia|done|done].
    - destruct (IH2 q ltac:(lia)) as [Hin|(j & nj & ? & ? & ?)].
      + left. by right.
      + right. exists j, nj. split_and!; [lia|lia|done|done]. }
  split.
  - apply (span_mut h P Q HP HQ0 HQ).
  - apply (spans_mut h P Q HP HQ0 HQ).
Qed.

(** A child comes after its parent, and the nodes between them are the
    subtrees of its elder siblings. *)
Lemma child_position h e j nj c :
  childDepth h → span h 0%nat e → (j < e)%nat →
  h !! j = Some nj → c ∈ Calls nj →
  (j < c)%nat ∧
  ∀ q nq, (j < q < c)%nat → h !! q = Some nq → depth nj + 1 <= depth nq.
Proof.
  intros Hchild Hspan Hj Hnj Hc.
  destruct (proj1 (span_spans_inner h) _ _ Hspan j ltac:(lia))
    as (cs & e' & Hcs & Hsp).
  apply callsAt_Some in Hcs as (nj' & Hnj' & <-).
  rewrite Hnj in Hnj'. injection Hnj' as <-.
  apply list_elem_of_split in Hc as (l1 & l2 & Hsplit).
  rewrite Hsplit in Hsp. apply spans_app_inv in Hsp as (mid & H1 & H2).
  apply spans_head in H2 as ->. pose proof (spans_le _ _ _ _ H1).
  pose proof (lookup_lt_Some _ _ _ Hnj). split; [lia|]. intros q nq Hq Hnq.
  apply (proj2 (span_spans_depth h Hchild) _ _ _ H1) with q; [|lia|done].
  intros c' nc' Hin Hnc'.
  destruct (Hchild j nj c' Hnj) as (nc'' & Hnc'' & Hd).
  { rewrite Hsplit. apply elem_of_app. by left. }
  rewrite Hnc' in Hnc''. injection Hnc'' as <-. lia.
Qed.

Lemma buildCallStack_childDepth t p m :
  Forall callDepthOK (motypes.InternalTxCalls t) →
  buildCallStack t = Ok (p, m) → childDepth (heap m).
Proof.
  intros Hok (m1 & Hm1 & _ & Hm)%buildCallStack_Ok.
  apply (childDepth_sameCall (heap m1)); [by eapply popMany_sameCall|].
  eapply (depth_rangeLoop [] _ _ (start t)); [apply built_start|done..| |done].
  apply depth_start.
Qed.

Lemma callDepthOK_int32 c : callDepthOK c → int32 (motypes.Depth c).
Proof.
  unfold callDepthOK, depthOK, int32. change (2 ^ 31) with 2147483648. lia.
Qed.

(** Nested depths never skip a level. *)
Lemma nestedUnder_no_skip d0 depths :
  ∀ prev, nestedUnder d0 prev depths = true →
  ∀ i a b, (prev :: depths) !! i = Some a → (prev :: depths) !! S i = Some b →
    b <= a + 1.
Proof.
  induction depths as [|d depths IH]; intros prev Hn i a b Ha Hb.
  - by destruct i.
  - cbn [nestedUnder] in Hn. apply andb_prop in Hn as [Hd Hn].
    apply andb_prop in Hd as [_ Hhi]. apply Z.leb_le in Hhi.
    destruct i as [|i].
    + simpl in Ha, Hb. injection Ha as <-. injection Hb as <-. done.
    + by apply (IH d Hn i).
Qed.

(** ** The shape of the tree *)

Lemma StronglySorted_lt_ext (l1 : list nat) :
  ∀ l2, StronglySorted lt l1 → StronglySorted lt l2 →
  (∀ x, x ∈ l1 ↔ x ∈ l2) → l1 = l2.
Proof.
  induction l1 as [|a l1 IH]; intros l2 H1 H2 Hext.
  - destruct l2 as [|b l2]; [done|].
    assert (Hb : b ∈ @nil nat) by (apply Hext; by left).
    by apply elem_of_nil in Hb.
  - destruct l2 as [|b l2].
    { assert (Ha : a ∈ @nil nat) by (apply Hext; by left).
      by apply elem_of_nil in Ha. }
    apply StronglySorted_inv in H1 as [H1 Ha].
    apply StronglySorted_inv in H2 as [H2 Hb].
    assert (Hab : a = b).
    { assert (Hal : a ∈ b :: l2) by (apply Hext; by left).
      assert (Hbl : b ∈ a :: l1) by (apply Hext; by left).
      apply elem_of_cons in Hal as [?|Hal]; [done|].
      apply elem_of_cons in Hbl as [?|Hbl]; [done|].
      pose proof (proj1 (Forall_forall _ _) Ha _ Hbl).
      pose proof (proj1 (Forall_forall _ _) Hb _ Hal). lia. }
    subst b. f_equal. apply IH; [done..|]. intros x. split; intros Hx.
    + pose proof (proj1 (Forall_forall _ _) Ha _ Hx).
      assert (Hxl : x ∈ a :: l2) by (apply Hext; by right).
      apply elem_of_cons in Hxl as [?|Hxl]; [lia|done].
    + pose proof (proj1 (Forall_forall _ _) Hb _ Hx).
      assert (Hxl : x ∈ a :: l1) by (apply Hext; by right).
      apply elem_of_cons in Hxl as [?|Hxl]; [lia|done].
Qed.

(** With the same depths, a child in one heap is a child of the same
    node in the other. *)
Lemma children_follow_depths h h' e j nj nj' i :
  childDepth h → childDepth h' → span h 0%nat e → span h' 0%nat e →
  length h = e → length h' = e →
  (∀ k nk nk', h !! k = Some nk → h' !! k = Some nk' → depth nk = depth nk') →
  h !! j = Some nj → h' !! j = Some nj' → i ∈ Calls nj → i ∈ Calls nj'.
Proof.
  intros Hchild Hchild' Hspan Hspan' Hlen Hlen' Hd Hnj Hnj' Hin.
  destruct (Hchild _ _ _ Hnj Hin) as (ni & Hni & Hdi).
  assert (Hje : (j < e)%nat) by (apply lookup_lt_Some in Hnj; lia).
  assert (Hie : (i < e)%nat) by (apply lookup_lt_Some in Hni; lia).
  destruct (child_position _ _ _ _ _ Hchild Hspan Hje Hnj Hin)
    as [Hlt Hbetween].
  assert (Hi : (0 < i < e)%nat) by lia.
  destruct (proj1 (span_spans_parent h') _ _ Hspan' i Hi)
    as (j2 & nj2 & Hj2 & Hnj2 & Hin2).
  destruct (Hchild' _ _ _ Hnj2 Hin2) as (ni' & Hni' & Hdi').
  assert (Hj2e : (j2 < e)%nat) by lia.
  destruct (child_position _ _ _ _ _ Hchild' Hspan' Hj2e Hnj2 Hin2)
    as [_ Hbetween'].
  pose proof (Hd _ _ _ Hni Hni') as Hdii.
  destruct (Nat.lt_total j2 j) as [Hc|[->|Hc]].
  - assert (Hr : (j2 < j < i)%nat) by lia.
    pose proof (Hbetween' j nj' Hr Hnj').
    pose proof (Hd _ _ _ Hnj Hnj'). lia.
  - rewrite Hnj' in Hnj2. by injection Hnj2 as ->.
  - assert (Hq : is_Some (h !! j2)) by (apply lookup_lt_is_Some; lia).
    destruct Hq as [nq Hnq].
    assert (Hr : (j < j2 < i)%nat) by lia.
    pose proof (Hbetween j2 nq Hr Hnq).
    pose proof (Hd _ _ _ Hnq Hnj2). lia.
Qed.

(** ** The debug API *)

Section DebugAPI.

Import debug_api.

Lemma wrap64_id z : int64 z → wrap64 z = z.
Proof.
  unfold int64, wrap64. change (2 ^ 63) with 9223372036854775808.
  change (2 ^ 64) with 18446744073709551616.
  intros. Z.div_mod_to_equations. lia.
Qed.

Lemma afterLoad_due now0 w api :
  int64 (lastUpdateTime api + StatusUpdateInterval) →
  lastUpdateTime api + StatusUpdateInterval < now0 →
  afterLoad now0 (lastUpdateTime api) w api =
    (stats (updateStats w api),
     {| lastUpdateTime := now0; stats := stats (updateStats w api) |}).
Proof.
  intros Hint Hlt. unfold afterLoad, CompareAndSwapInt64.
  rewrite (wrap64_id _ Hint).
  assert (Hgt : (now0 >? lastUpdateTime api + StatusUpdateInterval) = true)
    by (apply Z.gtb_lt; lia).
  rewrite Hgt, Z.eqb_refl. reflexivity.
Qed.

Lemma afterLoad_early now0 last w api :
  int64 (last + StatusUpdateInterval) →
  now0 <= last + StatusUpdateInterval →
  afterLoad now0 last w api = (stats api, api).
Proof.
  intros Hint Hle. unfold afterLoad. rewrite (wrap64_id _ Hint).
  assert (Hgt : (now0 >? last + StatusUpdateInterval) = false).
  { rewrite Z.gtb_ltb. apply Z.ltb_ge. lia. }
  by rewrite Hgt.
Qed.

Lemma afterLoad_stale now0 last w api :
  lastUpdateTime api ≠ last → afterLoad now0 last w api = (stats api, api).
Proof.
  intros Hne. unfold afterLoad, CompareAndSwapInt64.
  apply Z.eqb_neq in Hne. rewrite Hne. by destruct (_ >? _).
Qed.

Lemma updateStats_reports w api : reports w (stats (updateStats w api)).
Proof.
  unfold reports, updateStats. simpl. split_and!; try done.
  intros os ->. done.
Qed.

Lemma serve_early ws api :
  int64 (lastUpdateTime api + StatusUpdateInterval) →
  Forall (λ w, now w <= lastUpdateTime api + StatusUpdateInterval) ws →
  serve ws api = (replicate (length ws) (stats api), api).
Proof.
  intros Hint. induction 1 as [|w ws Hw _ IH]; cbn [serve length replicate];
    [done|].
  unfold GetStats, LoadInt64. rewrite afterLoad_early by done. by rewrite IH.
Qed.

Lemma serve_fresh ws :
  ∀ api src,
  lastUpdateTime api = now src → reports src (stats api) →
  - 2 ^ 63 <= now src < 2 ^ 63 - 60 →
  StronglySorted Z.le (now src :: (now <$> ws)) →
  Forall (λ w, - 2 ^ 63 <= now w < 2 ^ 63 - 60) ws →
  Forall2
    (λ w s, ∃ w0, w0 ∈ src :: ws ∧ now w - 60 <= now w0 <= now w ∧ reports w0 s)
    ws (serve ws api).1.
Proof.
  induction ws as [|w ws IH]; intros api src Hlast Hrep Hsrc Hsorted Hbound;
    cbn [serve fmap list_fmap] in *; [constructor|].
  apply Forall_cons_1 in Hbound as [Hw Hbound].
  apply StronglySorted_inv in Hsorted as [Hsorted Hall].
  apply Forall_cons_1 in Hall as [Hle Hall].
  apply StronglySorted_inv in Hsorted as [Hsorted Hall'].
  assert (Hint : int64 (lastUpdateTime api + StatusUpdateInterval)).
  { rewrite Hlast. unfold int64, StatusUpdateInterval.
    change (2 ^ 63) with 9223372036854775808 in *. lia. }
  unfold GetStats, LoadInt64.
  destruct (decide (now w <= lastUpdateTime api + StatusUpdateInterval)) as [He|Hd].
  - rewrite afterLoad_early by done.
    specialize (IH api src Hlast Hrep Hsrc).
    destruct (serve ws api) as [ss api'] eqn:Hs. simpl in *.
    constructor.
    + exists src. split_and!; [by left| |done|done].
      rewrite Hlast in He. unfold StatusUpdateInterval in He. lia.
    + eapply Forall2_impl; [apply IH; [by constructor|done]|].
      simpl. intros w' s (w0 & Hin & ? & ?). exists w0. split; [|done].
      apply elem_of_cons in Hin as [->|Hin]; [by left|]. by do 2 right.
  - rewrite afterLoad_due by (done || lia).
    set (api1 := {| lastUpdateTime := now w; stats := stats (updateStats w api) |}).
    specialize (IH api1 w eq_refl (updateStats_reports w api) Hw).
    destruct (serve ws api1) as [ss api'] eqn:Hs. simpl in *.
    constructor.
    + exists w. split_and!; [by right; left|lia|lia|apply updateStats_reports].
    + eapply Forall2_impl; [apply IH; [by constructor|done]|].
      simpl. intros w' s (w0 & Hin & ? & ?). exists w0. split; [|done]. by right.
Qed.

Lemma castLoop_spec infos :
  ∀ i out, (i + length infos ≤ length out)%nat →
  castLoop i (Some <$> infos) out =
    Ok (take i out ++
        ((λ o, Some {| ValidatorConsensusAddress :=
                         stakingtypes.ValidatorConsensusAddress o;
                       SignatureCount := stakingtypes.SignatureCount o;
                       HeightOfLastSignature :=
                         stakingtypes.HeightOfLastSignature o |}) <$> infos) ++
        drop (i + length infos) out).
Proof.
  induction infos as [|o infos IH]; intros i out Hlen; simpl.
  - by rewrite Nat.add_0_r, take_drop.
  - simpl in Hlen. unfold store. rewrite decide_True by lia. simpl.
    fold (@fmap list _ _ _ (@Some stakingtypes.OnlineInfo) infos).
    rewrite IH by (rewrite length_insert; lia). f_equal.
    assert (Hi : (i < length out)%nat) by lia.
    rewrite (take_S_r _ i _ (list_lookup_insert_eq out i _ Hi)).
    rewrite take_insert_ge by lia. rewrite <- app_assoc. simpl.
    do 3 f_equal. rewrite drop_insert_lt by lia. f_equal. lia.
Qed.

Lemma castLoop_nil infos1 infos2 i out :
  (i + length infos1 < length out)%nat →
  castLoop i ((Some <$> infos1) ++ None :: infos2) out = Panic NilDereference.
Proof.
  revert i out. induction infos1 as [|o infos1 IH]; intros i out Hlen; simpl;
    [done|].
  simpl in Hlen. unfold store. rewrite decide_True by lia. simpl.
  fold (@fmap list _ _ _ (@Some stakingtypes.OnlineInfo) infos1).
  apply IH. rewrite length_insert. lia.
Qed.

Lemma Forall_is_Some_fmap {A} (l : list (option A)) :
  Forall is_Some l → ∃ l', l = Some <$> l'.
Proof.
  induction 1 as [|x l [a ->] _ [l' ->]]; [by exists []|]. by exists (a :: l').
Qed.

End DebugAPI.

Lemma GetStats_step w api :
  - 2 ^ 63 <= debug_api.lastUpdateTime api < 2 ^ 63 - 60 →
  (debug_api.GetStats w api).2 = api ∨
  (debug_api.lastUpdateTime api + 60 < debug_api.now w ∧
   debug_api.lastUpdateTime (debug_api.GetStats w api).2 = debug_api.now w).
Proof.
  intros Hlast. unfold debug_api.GetStats, debug_api.LoadInt64.
  assert (Hint : int64 (debug_api.lastUpdateTime api +
                        debug_api.StatusUpdateInterval)).
  { unfold int64, debug_api.StatusUpdateInterval.
    change (2 ^ 63) with 9223372036854775808 in *. lia. }
  destruct (decide (debug_api.now w <=
                    debug_api.lastUpdateTime api +
                    debug_api.StatusUpdateInterval)) as [He|Hd].
  - left. by rewrite afterLoad_early.
  - right. unfold debug_api.StatusUpdateInterval in *.
    rewrite afterLoad_due by (done || unfold debug_api.StatusUpdateInterval; lia).
    simpl. lia.
Qed.

Lemma afterLoad_osFigures now0 last w api :
  debug_api.osMemStats w = None →
  debug_api.osFigures (debug_api.stats (debug_api.afterLoad now0 last w api).2) =
    debug_api.osFigures (debug_api.stats api).
Proof.
  intros Hos. unfold debug_api.afterLoad, debug_api.CompareAndSwapInt64.
  destruct (_ >? _); [|done]. destruct (_ =? _); [|done].
  unfold debug_api.updateStats, debug_api.osFigures. simpl. by rewrite Hos.
Qed.

(** * The claims *)

(** C1. A call event no deeper than the node on top of the stack closes
    [top.depth - depth + 1] open calls: that many nodes leave the stack,
    and the [j]-th of them (from the top) has afterwards the output, the
    status code and the gas left of the [j]-th return event of the
    queue, its other fields being what they were; the queue loses those
    events. The node now on top is one level above the event; the new
    node, made from the event and without children, is the last entry
    of its [Calls], which has grown by this one entry, and is pushed.
    The stack holds the open calls at consecutive depths from [d0] up.
    This is what happens when the event is deeper than the bottom of the
    stack and the queue holds enough return events; otherwise the loop
    body panics with an index out of range. *)
Theorem returning_call_closes_open_calls call m d0 top ln :
  depthChain (heap m) (nodes m) d0 →
  last (nodes m) = Some top → heap m !! top = Some ln →
  depthOK (depth ln) → callDepthOK call →
  motypes.Depth call <= depth ln →
  (d0 < motypes.Depth call →
   (Z.to_nat (depth ln - motypes.Depth call + 1) ≤ length (returnsOf m))%nat →
   ∃ m' parent np np' new,
     loopBody call m = Ok m' ∧
     nodes m' =
       take (length (nodes m) - Z.to_nat (depth ln - motypes.Depth call + 1))
         (nodes m) ++ [length (heap m)] ∧
     returnsOf m' =
       drop (Z.to_nat (depth ln - motypes.Depth call + 1)) (returnsOf m) ∧
     motypes.InternalTxCalls (tx m') = motypes.InternalTxCalls (tx m) ∧
     (∀ j p r, (j < Z.to_nat (depth ln - motypes.Depth call + 1))%nat →
        reverse (nodes m) !! j = Some p → returnsOf m !! j = Some r →
        ∃ n n', heap m !! p = Some n ∧ heap m' !! p = Some n' ∧
          Output n' = motypes.Output r ∧
          StatusCode n' = motypes.StatusCode r ∧
          GasLeft n' = motypes.GasLeft r ∧
          depth n' = depth n ∧ From n' = From n ∧ To n' = To n ∧
          Input n' = Input n ∧ Calls n' = Calls n) ∧
     last (take (length (nodes m) - Z.to_nat (depth ln - motypes.Depth call + 1))
             (nodes m)) = Some parent ∧
     heap m !! parent = Some np ∧ depth np = motypes.Depth call - 1 ∧
     heap m' !! parent = Some np' ∧
     Calls np' = Calls np ++ [length (heap m)] ∧
     last (Calls np') = Some (length (heap m)) ∧
     depth np' = depth np ∧ From np' = From np ∧ To np' = To np ∧
     Input np' = Input np ∧ Output np' = Output np ∧
     StatusCode np' = StatusCode np ∧ GasLeft np' = GasLeft np ∧
     heap m' !! length (heap m) = Some new ∧
     depth new = motypes.Depth call ∧ From new = motypes.Sender call ∧
     To new = motypes.Destination call ∧ Input new = motypes.Input call ∧
     Output new = [] ∧ StatusCode new = 0 ∧ GasLeft new = 0 ∧ Calls new = []) ∧
  (motypes.Depth call <= d0 ∨
   (length (returnsOf m) < Z.to_nat (depth ln - motypes.Depth call + 1))%nat →
   loopBody call m = Panic IndexOutOfRange).
Proof.
  intros Hchain Htop Hln Hdln Hdc Hle. split; cycle 1.
  { intros Hbad. by apply (returning_step_panics call m d0 top ln). }
  intros Hd0 Hrets.
  destruct (returning_step call m d0 top ln)
    as (m1 & parent & np & Hm1 & Hks & Hparent & Hlast & Hnp & Hdnp & Hstep);
    [done..|].
  set (k := Z.to_nat (depth ln - motypes.Depth call + 1)) in *.
  set (s := nodes m) in *. set (e := length (heap m)) in *.
  pose proof (depthChain_NoDup _ _ _ Hchain) as Hnd.
  destruct (popMany_nodes _ _ _ Hm1) as [_ Hnodes].
  destruct (popMany_returns _ _ _ Hm1) as (_ & Hr1 & Hc1).
  change (nodes (allocated call m)) with s in *.
  change (returnsOf (allocated call m)) with (returnsOf m) in *.
  change (tx (allocated call m)) with (tx m) in *.
  assert (Hvalid : ∀ p, p ∈ s → (p < e)%nat).
  { intros p [i Hi]%list_elem_of_lookup_1.
    destruct (Hchain _ _ Hi) as (n & Hn & _). by apply lookup_lt_Some in Hn. }
  assert (Hpe : (parent < e)%nat) by (by apply lookup_lt_Some in Hnp).
  assert (Hparent_in : parent ∈ take (length s - k) s).
  { apply (list_elem_of_lookup_2 _ (length s - k - 1)).
    by rewrite lookup_take_lt by lia. }
  assert (Hsplit : NoDup (take (length s - k) s ++ drop (length s - k) s))
    by (by rewrite take_drop).
  apply NoDup_app in Hsplit as (_ & Hdisj & _).
  assert (Hpopped : ∀ j p r, (j < k)%nat →
            reverse s !! j = Some p → returnsOf m !! j = Some r →
            ∃ n, heap m !! p = Some n ∧
              heap (push e (appendCall parent e m1)) !! p =
                Some (setReturn r n)).
  { intros j p r Hj Hp Hr.
    apply reverse_lookup_Some in Hp as [Hp Hjs].
    destruct (Hchain _ _ Hp) as (n & Hn & _). exists n. split; [done|]. simpl.
    rewrite list_lookup_alter_ne.
    + rewrite (popMany_resolved k _ _ j p r Hm1); try done.
      * by rewrite (allocated_lookup call _ _ _ Hn).
      * by apply reverse_lookup_Some.
    + intros <-. pose proof (NoDup_lookup _ _ _ _ Hnd Hp Hparent) as Heq.
      fold s in Heq. lia. }
  assert (Hlinked : heap (push e (appendCall parent e m1)) !! parent =
                    Some (addCall e np)).
  { simpl. rewrite list_lookup_alter_eq.
    rewrite (popMany_untouched _ _ _ parent Hm1) by (by apply Hdisj).
    by rewrite (allocated_lookup call _ _ _ Hnp). }
  assert (Hnew : heap (push e (appendCall parent e m1)) !! e =
                 Some (newNode call)).
  { simpl. rewrite list_lookup_alter_ne by lia.
    rewrite (popMany_untouched _ _ _ e Hm1).
    + apply allocated_new.
    + intros Hin%elem_of_drop_inv. apply Hvalid in Hin. lia. }
  exists (push e (appendCall parent e m1)), parent, np, (addCall e np),
    (newNode call).
  split_and!; try done.
  - by apply loopBody_Ok.
  - simpl. by rewrite Hnodes.
  - intros j p r Hj Hp Hr.
    destruct (Hpopped j p r Hj Hp Hr) as (n & Hn & Hn').
    exists n, (setReturn r n). by split_and!.
  - by rewrite <- Hnodes.
  - simpl. apply last_snoc.
Qed.

(** C1 (witness): the fifth call of the tests, at depth 1, arrives when
    the stack holds nodes 0, 1 and 3 at depths 0, 1 and 2; nodes 3 and 1
    take the next two returns and node 4 becomes the last child of
    node 0. *)
Lemma returning_call_closes_open_calls_witness :
  ∃ m' parent np np' new,
    loopBody Fixture.fifth Fixture.afterFour = Ok m' ∧
    nodes m' = [0; 4]%nat ∧
    returnsOf m' = drop 2 (returnsOf Fixture.afterFour) ∧
    motypes.InternalTxCalls (tx m') =
      motypes.InternalTxCalls (tx Fixture.afterFour) ∧
    (∀ j p r, (j < 2)%nat →
       reverse (nodes Fixture.afterFour) !! j = Some p →
       returnsOf Fixture.afterFour !! j = Some r →
       ∃ n n', heap Fixture.afterFour !! p = Some n ∧ heap m' !! p = Some n' ∧
         Output n' = motypes.Output r ∧
         StatusCode n' = motypes.StatusCode r ∧
         GasLeft n' = motypes.GasLeft r ∧
         depth n' = depth n ∧ From n' = From n ∧ To n' = To n ∧
         Input n' = Input n ∧ Calls n' = Calls n) ∧
    last (take (3 - 2) (nodes Fixture.afterFour)) = Some parent ∧
    heap Fixture.afterFour !! parent = Some np ∧ depth np = 0 ∧
    heap m' !! parent = Some np' ∧
    Calls np' = Calls np ++ [4%nat] ∧
    last (Calls np') = Some 4%nat ∧
    depth np' = depth np ∧ From np' = From np ∧ To np' = To np ∧
    Input np' = Input np ∧ Output np' = Output np ∧
    StatusCode np' = StatusCode np ∧ GasLeft np' = GasLeft np ∧
    heap m' !! 4%nat = Some new ∧
    depth new = 1 ∧ From new = motypes.Sender Fixture.fifth ∧
    To new = motypes.Destination Fixture.fifth ∧
    Input new = motypes.Input Fixture.fifth ∧
    Output new = [] ∧ StatusCode new = 0 ∧ GasLeft new = 0 ∧ Calls new = [].
Proof.
  refine (proj1 (returning_call_closes_open_calls Fixture.fifth
                   Fixture.afterFour 0 3%nat
                   (newNode (Fixture.call STATICCALL 2 0xd62ad Fixture.contract2
                      Fixture.contract3
                      "0x09010e930000000000000000000000000000000000000000000000000000000000000103"))
                   _ _ _ _ _ _) _ _).
  - intros [|[|[|i]]] p; simpl; intros [= <-]; eexists; (split; [reflexivity|]);
      simpl; lia.
  - reflexivity.
  - reflexivity.
  - unfold depthOK. simpl. lia.
  - unfold callDepthOK, depthOK. simpl. lia.
  - simpl. lia.
  - simpl. lia.
  - simpl. lia.
Defined.

(** C2. Seven call events at depths 0, 1, 2, 2, 1, 2, 2 with seven
    return events (of any status, 0 in particular) build one root with
    two children at depth 1, each with two children at depth 2; the
    returns go to the nodes in the order in which the calls complete.
    With the second child of each pair tagged read-only and the other
    nested calls tagged as mutating calls, the flattened output carries
    the paths call_0, call_0_0, call_0_0_0, staticcall_0_0_1, call_0_1,
    call_0_1_0, staticcall_0_1_1, in this order. *)
Theorem two_by_two_scenario c0 c1 c2 c3 c4 c5 c6 r0 r1 r2 r3 r4 r5 r6 :
  motypes.Depth <$> [c0; c1; c2; c3; c4; c5; c6] = [0; 1; 2; 2; 1; 2; 2] →
  motypes.Kind <$> [c1; c2; c3; c4; c5; c6] =
    [CALL; CALL; STATICCALL; CALL; CALL; STATICCALL] →
  ∃ tree,
    builtTree {| motypes.InternalTxCalls := [c0; c1; c2; c3; c4; c5; c6];
                 motypes.InternalTxReturns := [r0; r1; r2; r3; r4; r5; r6] |} =
      Ok (Some tree) ∧
    tree =
      CallStackOf (resolvedNode c0 r6 [1; 4]%nat)
        [ CallStackOf (resolvedNode c1 r2 [2; 3]%nat)
            [ CallStackOf (resolvedNode c2 r0 []) [];
              CallStackOf (resolvedNode c3 r1 []) [] ];
          CallStackOf (resolvedNode c4 r5 [5; 6]%nat)
            [ CallStackOf (resolvedNode c5 r3 []) [];
              CallStackOf (resolvedNode c6 r4 []) [] ] ] ∧
    callPath <$>
      internalTransactions [c0; c1; c2; c3; c4; c5; c6] (Some tree) =
      [ "call_0"; "call_0_0"; "call_0_0_0"; "staticcall_0_0_1";
        "call_0_1"; "call_0_1_0"; "staticcall_0_1_1" ]%string.
Proof.
  destruct c0, c1, c2, c3, c4, c5, c6. simpl.
  intros [= -> -> -> -> -> -> ->] [= -> -> -> -> -> ->].
  eexists. split_and!; [vm_compute; reflexivity|reflexivity|reflexivity].
Qed.

(** C2 (witness): the transaction of the tests. *)
Lemma two_by_two_scenario_witness :
  ∃ tree,
    builtTree Fixture.moTx4 = Ok (Some tree) ∧
    depthsOf tree = [0; 1; 2; 2; 1; 2; 2] ∧
    callPath <$>
      internalTransactions (motypes.InternalTxCalls Fixture.moTx4) (Some tree) =
      [ "call_0"; "call_0_0"; "call_0_0_0"; "staticcall_0_0_1";
        "call_0_1"; "call_0_1_0"; "staticcall_0_1_1" ]%string.
Proof.
  destruct (two_by_two_scenario
              (Fixture.call CALL 0 0xeef6c Fixture.sender Fixture.contract1
                 "0xa11a1f360000000000000000000000000000000000000000000000000000000000000100")
              (Fixture.call CALL 1 0xe571e Fixture.contract1 Fixture.contract2
                 "0xa27eaec20000000000000000000000000000000000000000000000000000000000000101")
              (Fixture.call CALL 2 0xdc147 Fixture.contract2 Fixture.contract3
                 "0xe73620c30000000000000000000000000000000000000000000000000000000000000102")
              (Fixture.call STATICCALL 2 0xd62ad Fixture.contract2 Fixture.contract3
                 "0x09010e930000000000000000000000000000000000000000000000000000000000000103")
              (Fixture.call CALL 1 0xd8c25 Fixture.contract1 Fixture.contract2
                 "0xa27eaec20000000000000000000000000000000000000000000000000000000000000105")
              (Fixture.call CALL 2 0xd434e Fixture.contract2 Fixture.contract3
                 "0xe73620c30000000000000000000000000000000000000000000000000000000000000106")
              (Fixture.call STATICCALL 2 0xd2e88 Fixture.contract2 Fixture.contract3
                 "0x09010e930000000000000000000000000000000000000000000000000000000000000107")
              (Fixture.ret "0x0000000000000000000000000000000000000000000001020000000000000000" 879854)
              (Fixture.ret "0x0000000000000000000000000000000000000000000001030000000000000000" 876640)
              (Fixture.ret "0x0000000000000000000000000000000000000000000001010000000000000000" 890032)
              (Fixture.ret "0x0000000000000000000000000000000000000000000001060000000000000000" 866805)
              (Fixture.ret "0x0000000000000000000000000000000000000000000001070000000000000000" 863291)
              (Fixture.ret "0x0000000000000000000000000000000000000000000001050000000000000000" 876471)
              (Fixture.ret "0x0000000000000000000000000000000000000000000001000000000000000000" 890031))
    as (tree & Hbuilt & Htree & Hpaths); [reflexivity|reflexivity|].
  exists tree. split_and!; [exact Hbuilt| |exact Hpaths].
  rewrite Htree. reflexivity.
Defined.

(** C3. An event more than one level deeper than the node on top of the
    stack makes the builder panic with the depth error of the loop, which
    names the two depths; no tree is returned. The events before it,
    [calls1], are those the loop has processed without panic. *)
Theorem skipped_level_panics t calls1 call calls2 m top ln :
  motypes.InternalTxCalls t = calls1 ++ call :: calls2 →
  rangeLoop calls1 (start t) = Ok m →
  last (nodes m) = Some top → heap m !! top = Some ln →
  int32 (depth ln) →
  depth ln + 1 < motypes.Depth call →
  buildCallStack t = Panic (DepthError (depth ln) (motypes.Depth call)).
Proof.
  intros Hcalls Hm Htop Hln Hint Hskip.
  unfold buildCallStack. fold (start t).
  rewrite Hcalls, rangeLoop_app, Hm. simpl.
  rewrite loopBody_unfold, Htop. unfold deref.
  rewrite (allocated_lookup call _ _ _ Hln). simpl.
  assert (Hne : motypes.Depth call ≠ wrap32 (depth ln + 1)).
  { revert Hint Hskip. unfold int32, wrap32.
    change (2 ^ 31) with 2147483648. change (2 ^ 32) with 4294967296.
    intros. Z.div_mod_to_equations. lia. }
  apply Z.eqb_neq in Hne. rewrite Hne.
  assert (Hgt : (motypes.Depth call <=? depth ln) = false)
    by (apply Z.leb_gt; lia).
  by rewrite Hgt.
Qed.

(** C3 (witness): depths 0 and 2. *)
Lemma skipped_level_panics_witness :
  buildCallStack Fixture.skipping = Panic (DepthError 0 2).
Proof.
  apply (skipped_level_panics Fixture.skipping
           (take 1 (motypes.InternalTxCalls Fixture.skipping))
           (Fixture.call CALL 2 50 Fixture.contract1 Fixture.contract2 "0x")
           [] Fixture.afterFirst 0%nat
           (newNode (Fixture.call CALL 0 100 Fixture.sender Fixture.contract1 "0x"))).
  - reflexivity.
  - vm_compute. reflexivity.
  - reflexivity.
  - reflexivity.
  - unfold int32. simpl. lia.
  - simpl. lia.
Defined.

(** C4 (counterexample). On the trace without any event the builder does
    not yield an empty result: it panics when it reads [nodes[0]]. *)
Lemma empty_trace_panics :
  buildCallStack {| motypes.InternalTxCalls := [];
                    motypes.InternalTxReturns := [] |} = Panic IndexOutOfRange ∧
  builtTree {| motypes.InternalTxCalls := [];
               motypes.InternalTxReturns := [] |} ≠ Ok None.
Proof. split; [reflexivity|discriminate]. Qed.

(** C4 (amended). Without call events the builder panics with an index
    out of range, whatever the return events are: there is no root to
    read from the empty stack, and nothing is returned. *)
Theorem no_calls_panics rets :
  buildCallStack {| motypes.InternalTxCalls := [];
                    motypes.InternalTxReturns := rets |} = Panic IndexOutOfRange.
Proof. reflexivity. Qed.

(** C5. With fewer return events than call events the builder panics
    (the return queue is read when it is empty, or a depth error comes
    first); it never returns a tree some of whose nodes have no return. *)
Theorem too_few_returns_panic t :
  (length (motypes.InternalTxReturns t) < length (motypes.InternalTxCalls t))%nat →
  ∃ e, buildCallStack t = Panic e ∧ builtTree t = Panic e ∧ e ≠ NilDereference.
Proof.
  intros Hlt. destruct (buildCallStack t) as [[p m]|e] eqn:Hb.
  - apply buildCallStack_result in Hb as (_ & _ & _ & _ & _ & _ & Hle). lia.
  - exists e. split_and!; [done| |].
    + unfold builtTree. by rewrite Hb.
    + intros ->. by apply buildCallStack_no_nil in Hb.
Qed.

(** C5 (witness): seven calls, six returns. *)
Lemma too_few_returns_panic_witness :
  ∃ e, buildCallStack Fixture.oneReturnShort = Panic e ∧
       builtTree Fixture.oneReturnShort = Panic e ∧ e ≠ NilDereference.
Proof. apply (too_few_returns_panic Fixture.oneReturnShort). simpl. lia. Defined.

(** C6 (counterexample). The transaction of the tests with one more
    return event than it has call events: the builder succeeds. *)
Lemma surplus_return_accepted :
  isPanic (buildCallStack
             (withMoreReturns [Fixture.ret "0x" 0] Fixture.moTx4)) = false.
Proof. vm_compute. reflexivity. Qed.

(** C6 (amended). Return events left over once every call has its
    return are ignored: the builder succeeds as it does without them,
    with the same tree, and leaves them in the queue. *)
Theorem surplus_returns_ignored t extra p m :
  buildCallStack t = Ok (p, m) →
  buildCallStack (withMoreReturns extra t) = Ok (p, extend extra m) ∧
  builtTree (withMoreReturns extra t) = builtTree t ∧
  returnsOf (extend extra m) =
    drop (length (motypes.InternalTxCalls t)) (motypes.InternalTxReturns t)
      ++ extra.
Proof.
  intros Hb. pose proof (buildCallStack_extend extra _ _ _ Hb) as Hb'.
  split_and!; [done| |].
  - unfold builtTree. by rewrite Hb, Hb'.
  - apply buildCallStack_result in Hb as (_ & _ & _ & _ & _ & Hr & _).
    unfold returnsOf in *. simpl. by rewrite Hr.
Qed.

(** C6 (witness): the transaction of the tests with two more returns. *)
Lemma surplus_returns_ignored_witness :
  buildCallStack
    (withMoreReturns [Fixture.ret "0x" 1; Fixture.ret "0x" 2] Fixture.moTx4) =
    Ok (Fixture.built.1,
        extend [Fixture.ret "0x" 1; Fixture.ret "0x" 2] Fixture.built.2).
Proof.
  apply (surplus_returns_ignored Fixture.moTx4
           [Fixture.ret "0x" 1; Fixture.ret "0x" 2]
           Fixture.built.1 Fixture.built.2).
  vm_compute. reflexivity.
Defined.

(** C7. A well-formed trace (first call at depth 0, every later call
    nested and at most one level deeper than the call before it, as many
    return events as call events) builds: the builder returns a tree
    with one node per call event, and the pre-order walk of the tree
    meets the node of the first event, then of the second, and so on. *)
Theorem wellFormed_trace_builds_in_preorder t :
  wellFormed t →
  ∃ tree,
    builtTree t = Ok (Some tree) ∧
    length (preorder tree) = length (motypes.InternalTxCalls t) ∧
    Forall2 builtFrom (motypes.InternalTxCalls t) (preorder tree).
Proof.
  intros (p & m & Hb)%buildCallStack_wellFormed.
  destruct (buildCallStack_builtTree _ _ _ Hb) as (tree & Htree & Hpre).
  exists tree. pose proof (builtTree_Ok _ _ Htree) as Hall.
  split_and!; [done| |done]. symmetry. by eapply Forall2_length.
Qed.

(** C7 (witness): the transaction of the tests. *)
Lemma wellFormed_trace_builds_in_preorder_witness :
  ∃ tree,
    builtTree Fixture.moTx4 = Ok (Some tree) ∧
    length (preorder tree) = 7%nat ∧
    Forall2 builtFrom (motypes.InternalTxCalls Fixture.moTx4) (preorder tree).
Proof.
  apply (wellFormed_trace_builds_in_preorder Fixture.moTx4).
  unfold wellFormed. simpl. split_and!; try lia.
  repeat constructor; simpl; lia.
Defined.



(** C9 (counterexample). The builder changes the transaction it is
    given: after a build of the transaction of the tests its return
    queue is empty, and a second build from it panics. *)
Lemma input_returns_consumed :
  ∃ p m, buildCallStack Fixture.moTx4 = Ok (p, m) ∧
         motypes.InternalTxReturns (tx m) = [] ∧
         motypes.InternalTxReturns (tx m) ≠
           motypes.InternalTxReturns Fixture.moTx4 ∧
         buildCallStack (tx m) = Panic IndexOutOfRange.
Proof.
  destruct (buildCallStack Fixture.moTx4) as [[p m]|] eqn:Hb;
    [|by vm_compute in Hb].
  exists p, m. vm_compute in Hb. injection Hb as <- <-.
  split_and!; [done|done|discriminate|by vm_compute].
Qed.

(** C9 (amended). The result is determined by the two sequences and the
    call events are left alone; but the return queue of the transaction
    is consumed in place: a successful build leaves in the transaction
    the return events after the first [length calls], one per call event
    being gone. *)
Theorem returns_consumed_in_place t p m :
  buildCallStack t = Ok (p, m) →
  tx m =
    {| motypes.InternalTxCalls := motypes.InternalTxCalls t;
       motypes.InternalTxReturns :=
         drop (length (motypes.InternalTxCalls t)) (motypes.InternalTxReturns t) |} ∧
  (length (motypes.InternalTxCalls t) ≤ length (motypes.InternalTxReturns t))%nat ∧
  motypes.InternalTxCalls t ≠ [].
Proof.
  intros Hb.
  destruct (buildCallStack_result _ _ _ Hb) as (_ & _ & Hbuilt & Hsp & Hc & Hr & Hle).
  split_and!; [|done|].
  - unfold returnsOf in Hr. destruct (tx m) as [cs rs]. simpl in *. by subst.
  - intros Hnil. rewrite Hnil in Hbuilt. apply Forall2_nil_inv_l in Hbuilt.
    apply span_lt in Hsp. rewrite Hbuilt in Hsp. simpl in Hsp. lia.
Qed.

(** C9 (witness): the transaction of the tests. *)
Lemma returns_consumed_in_place_witness :
  tx Fixture.built.2 =
    {| motypes.InternalTxCalls := motypes.InternalTxCalls Fixture.moTx4;
       motypes.InternalTxReturns :=
         drop (length (motypes.InternalTxCalls Fixture.moTx4))
           (motypes.InternalTxReturns Fixture.moTx4) |}.
Proof.
  apply (returns_consumed_in_place Fixture.moTx4 Fixture.built.1 Fixture.built.2).
  vm_compute. reflexivity.
Defined.

(** C10. In the tree of a successful build from events with depths of
    the data model (non-negative [int32]), every child is one level
    deeper than its parent; the nodes come in pre-order in the order of
    their call events, and so do the children of every node: the
    pointers under [Calls] increase, and a pointer is the rank of the
    call event of its node. All along the build, after any number of
    events, every node on the stack is the last child of the node below
    it, and the node on top is the node of the last event. *)
Theorem built_tree_links_depths_in_order t p m :
  Forall callDepthOK (motypes.InternalTxCalls t) →
  buildCallStack t = Ok (p, m) →
  (∃ tree,
     builtTree t = Ok (Some tree) ∧
     depthLinked tree ∧
     Forall2 builtFrom (motypes.InternalTxCalls t) (preorder tree) ∧
     Forall (λ n, StronglySorted lt (Calls n)) (preorder tree)) ∧
  (∀ calls1 call calls2 m1,
     motypes.InternalTxCalls t = calls1 ++ call :: calls2 →
     rangeLoop (calls1 ++ [call]) (start t) = Ok m1 →
     spine (heap m1) (nodes m1) (length (heap m1)) ∧
     last (nodes m1) = Some (length calls1)).
Proof.
  intros Hok Hb. split; cycle 1.
  { intros calls1 call calls2 m1 _ Hm1.
    pose proof (built_rangeLoop _ _ _ _ _ (built_start t) Hm1) as [[_ _ Hsp _] _].
    split; [done|]. rewrite rangeLoop_app in Hm1.
    destruct (rangeLoop calls1 (start t)) as [m0|] eqn:Hm0; [|done].
    simpl in Hm1. destruct (loopBody call m0) as [m1'|] eqn:Hstep; [|done].
    injection Hm1 as ->. apply loopBody_Ok in Hstep.
    rewrite (bodyStep_last _ _ _ Hstep). f_equal.
    apply (built_length _ _ _ (built_rangeLoop _ _ _ _ _ (built_start t) Hm0)). }
  destruct (buildCallStack_builtTree _ _ _ Hb) as (tree & Htree & Hpre).
  exists tree. split_and!; [done| |by apply builtTree_Ok|].
  - pose proof Hb as (m1 & Hm1 & _ & Hm)%buildCallStack_Ok.
    assert (Hchild : childDepth (heap m)).
    { apply (childDepth_sameCall (heap m1)); [by eapply popMany_sameCall|].
      eapply (depth_rangeLoop [] _ _ (start t)); [apply built_start|done..| |done].
      apply depth_start. }
    unfold builtTree in Htree. rewrite Hb in Htree. simpl in Htree.
    injection Htree as Htree.
    by apply (load_depthLinked _ Hchild) in Htree as [_ ?].
  - rewrite Hpre. apply Forall_forall. intros n [q Hq]%list_elem_of_lookup_1.
    destruct (buildCallStack_result _ _ _ Hb) as (_ & _ & _ & Hspan & _).
    eapply span_calls_sorted; [done..|]. by apply lookup_lt_Some in Hq.
Qed.

(** C10 (witness): the transaction of the tests. *)
Lemma built_tree_links_depths_in_order_witness :
  ∃ tree,
    builtTree Fixture.moTx4 = Ok (Some tree) ∧
    depthLinked tree ∧
    Forall2 builtFrom (motypes.InternalTxCalls Fixture.moTx4) (preorder tree) ∧
    Forall (λ n, StronglySorted lt (Calls n)) (preorder tree).
Proof.
  refine (proj1 _).
  apply (built_tree_links_depths_in_order Fixture.moTx4
           Fixture.built.1 Fixture.built.2).
  - repeat constructor; simpl; lia.
  - vm_compute. reflexivity.
Defined.

(** * Further properties *)

(** ** The builder *)

(** X1. For depths of the data model the builder returns exactly on the
    traces [builds] accepts: at least one call event, every later call
    deeper than the first and at most one level deeper than the call
    before it, and at least as many return events as call events. On
    every other trace it panics. *)
Theorem buildCallStack_returns_iff_builds t :
  Forall callDepthOK (motypes.InternalTxCalls t) →
  isPanic (buildCallStack t) = negb (builds t).
Proof.
  intros Hok. destruct (builds t) eqn:Hb; simpl.
  - by destruct (builds_returns t Hok Hb) as (p & m & ->).
  - destruct (buildCallStack t) as [[p m]|e] eqn:Hrun; [|done].
    rewrite (returns_builds _ _ _ Hok Hrun) in Hb. done.
Qed.

(** X1 (witness): the transaction of the tests builds. *)
Lemma buildCallStack_returns_iff_builds_witness :
  isPanic (buildCallStack Fixture.moTx4) = negb (builds Fixture.moTx4).
Proof.
  apply (buildCallStack_returns_iff_builds Fixture.moTx4).
  repeat constructor; simpl; lia.
Defined.

(** X2. A transaction builds once: the build consumes one return event
    per call event from the transaction itself, so a second build from
    the transaction it leaves panics unless the transaction came with
    return events for two builds. *)
Theorem second_build_needs_returns_for_two t p m :
  Forall callDepthOK (motypes.InternalTxCalls t) →
  buildCallStack t = Ok (p, m) →
  isPanic (buildCallStack (tx m)) =
    (length (motypes.InternalTxReturns t) <?
       2 * length (motypes.InternalTxCalls t))%nat.
Proof.
  intros Hok Hb.
  pose proof (returns_builds _ _ _ Hok Hb) as Hbuilds.
  destruct (buildCallStack_result _ _ _ Hb) as (_ & _ & _ & _ & Hc & Hr & Hle).
  assert (Hok' : Forall callDepthOK (motypes.InternalTxCalls (tx m)))
    by (by rewrite Hc).
  destruct (builds (tx m)) eqn:Hb2.
  - destruct (builds_returns _ Hok' Hb2) as (p' & m' & ->). simpl.
    unfold builds in Hb2. apply andb_prop in Hb2 as [_ Hlen].
    apply Nat.leb_le in Hlen. unfold returnsOf in Hr.
    rewrite Hr, Hc, length_drop in Hlen. symmetry. apply Nat.ltb_ge. lia.
  - destruct (buildCallStack (tx m)) as [[p' m']|e] eqn:Hrun.
    { rewrite (returns_builds _ _ _ Hok' Hrun) in Hb2. done. }
    simpl. symmetry. apply Nat.ltb_lt.
    unfold builds in Hb2, Hbuilds. rewrite Hc in Hb2.
    apply andb_prop in Hbuilds as [Hnest _]. rewrite Hnest in Hb2. simpl in Hb2.
    apply Nat.leb_gt in Hb2. unfold returnsOf in Hr.
    rewrite Hr, length_drop in Hb2. lia.
Qed.

(** X2 (witness): the transaction of the tests, seven calls and seven
    returns, does not build twice. *)
Lemma second_build_needs_returns_for_two_witness :
  isPanic (buildCallStack (tx Fixture.built.2)) = true.
Proof.
  apply (second_build_needs_returns_for_two Fixture.moTx4
           Fixture.built.1 Fixture.built.2).
  - repeat constructor; simpl; lia.
  - vm_compute. reflexivity.
Defined.

(** X3. The builder panics in two ways only. The depth error is raised
    for a call event more than one level deeper than the call event just
    before it, and names the depths of these two events; every other
    panic is an index out of range (of the stack or of the return
    queue). No pointer without a node is ever followed. *)
Theorem panic_is_depth_skip_or_index_out_of_range t e :
  Forall (λ c, int32 (motypes.Depth c)) (motypes.InternalTxCalls t) →
  buildCallStack t = Panic e →
  e = IndexOutOfRange ∨
  ∃ i ci cj,
    motypes.InternalTxCalls t !! i = Some ci ∧
    motypes.InternalTxCalls t !! S i = Some cj ∧
    e = DepthError (motypes.Depth ci) (motypes.Depth cj) ∧
    motypes.Depth ci + 1 < motypes.Depth cj.
Proof.
  intros Hint. unfold buildCallStack. fold (start t).
  destruct (rangeLoop _ _) as [m1|e1] eqn:Hm1; simpl.
  - destruct (nodes m1 !! 0%nat); [|intros [= <-]; by left].
    rewrite drainLoop_popMany by done.
    destruct (popMany _ m1) as [m|e2] eqn:Hm; simpl; [done|].
    intros [= <-]. left. by apply popMany_Panic in Hm as [-> _].
  - intros [= <-].
    apply (rangeLoop_Panic _ _ [] _ _ (built_start t)) in Hm1; [done| |done].
    by intros top.
Qed.

(** X3 (witness): depths 0 and 2. *)
Lemma panic_is_depth_skip_or_index_out_of_range_witness :
  DepthError 0 2 = IndexOutOfRange ∨
  ∃ i ci cj,
    motypes.InternalTxCalls Fixture.skipping !! i = Some ci ∧
    motypes.InternalTxCalls Fixture.skipping !! S i = Some cj ∧
    DepthError 0 2 = DepthError (motypes.Depth ci) (motypes.Depth cj) ∧
    motypes.Depth ci + 1 < motypes.Depth cj.
Proof.
  apply (panic_is_depth_skip_or_index_out_of_range Fixture.skipping).
  - repeat constructor; simpl; lia.
  - vm_compute. reflexivity.
Defined.

(** X4. A call event that is not deeper than the first call event (a
    second call at the top level, say) makes the builder panic with an
    index out of range: closing the open calls empties the stack, or the
    return queue first. The events before it, [c0 :: calls1], are those
    the loop has processed. *)
Theorem call_not_under_the_first_panics t c0 calls1 call calls2 m :
  motypes.InternalTxCalls t = c0 :: calls1 ++ call :: calls2 →
  Forall callDepthOK (c0 :: calls1 ++ [call]) →
  rangeLoop (c0 :: calls1) (start t) = Ok m →
  motypes.Depth call <= motypes.Depth c0 →
  buildCallStack t = Panic IndexOutOfRange.
Proof.
  intros Hcalls Hok Hm Hle.
  change (c0 :: calls1 ++ [call]) with ((c0 :: calls1) ++ [call]) in Hok.
  apply Forall_app in Hok as [Hok1 Hcall]. apply Forall_cons_1 in Hcall as [Hcall _].
  pose proof (built_rangeLoop _ _ _ _ _ (built_start t) Hm) as HB. simpl in HB.
  pose proof (depth_rangeLoop _ _ _ _ _ (built_start t) (Forall_nil_2 _) Hok1
                (depth_start t) Hm) as HI.
  destruct (nodes m) as [|x s] eqn:Hs.
  { destruct HB as [[_ Hb _ _] Hnil]. specialize (Hnil Hs). rewrite Hnil in Hb.
    inversion Hb. }
  destruct (last (nodes m)) as [top|] eqn:Htop;
    [|apply last_None in Htop; congruence].
  destruct HB as [[Hr Hb Hsp Hroot] Hnil].
  destruct (spine_top_valid _ _ _ _ Hsp Htop) as [ln Hln].
  assert (HB : Built (c0 :: calls1) (motypes.InternalTxReturns t) m)
    by (by split).
  destruct (built_top _ _ _ _ _ _ HB HI Htop Hln) as (d0 & -> & Hchain & Hdepth).
  assert (Hstep : loopBody call m = Panic IndexOutOfRange).
  { apply (returning_step_panics call m (motypes.Depth c0) top ln); try done.
    - by eapply built_depthOK.
    - rewrite Hs in Hdepth. simpl in Hdepth. lia.
    - by left. }
  unfold buildCallStack. fold (start t). rewrite Hcalls.
  change (c0 :: calls1 ++ call :: calls2) with ((c0 :: calls1) ++ call :: calls2).
  rewrite rangeLoop_app, Hm. simpl. by rewrite Hstep.
Qed.

(** X4 (witness): depths 0, 1 and 0. *)
Lemma call_not_under_the_first_panics_witness :
  buildCallStack Cases.secondTopLevel = Panic IndexOutOfRange.
Proof.
  apply (call_not_under_the_first_panics Cases.secondTopLevel
           (Fixture.call CALL 0 100 Fixture.sender Fixture.contract1 "0x")
           [Fixture.call CALL 1 50 Fixture.contract1 Fixture.contract2 "0x"]
           (Fixture.call CALL 0 40 Fixture.sender Fixture.contract3 "0x")
           [] Cases.afterTwo).
  - reflexivity.
  - repeat constructor; simpl; lia.
  - vm_compute. reflexivity.
  - simpl. lia.
Defined.

(** X5. While the call events are processed the stack mirrors the open
    calls: after the events [c0 :: seen], the last of which is [cl], it
    holds one node per level from the depth of [c0] to the depth of
    [cl], the node of [cl] on top, and the return events consumed so far
    are those of the calls seen that are no longer open. *)
Theorem stack_holds_one_node_per_open_level t c0 seen rest cl m :
  motypes.InternalTxCalls t = c0 :: seen ++ rest →
  Forall callDepthOK (c0 :: seen) →
  rangeLoop (c0 :: seen) (start t) = Ok m →
  last (c0 :: seen) = Some cl →
  Z.of_nat (length (nodes m)) = motypes.Depth cl - motypes.Depth c0 + 1 ∧
  (∀ i p, nodes m !! i = Some p →
     ∃ n, heap m !! p = Some n ∧ depth n = motypes.Depth c0 + Z.of_nat i) ∧
  last (nodes m) = Some (length seen) ∧
  returnsOf m =
    drop (length (c0 :: seen) - length (nodes m)) (motypes.InternalTxReturns t).
Proof.
  intros _ Hok Hm Hcl.
  pose proof (built_rangeLoop _ _ _ _ _ (built_start t) Hm) as HB. simpl in HB.
  pose proof (depth_rangeLoop _ _ _ _ _ (built_start t) (Forall_nil_2 _) Hok
                (depth_start t) Hm) as HI.
  apply last_Some in Hcl as [init Hinit].
  assert (Htop : last (nodes m) = Some (length seen)).
  { rewrite Hinit, rangeLoop_app in Hm.
    destruct (rangeLoop init (start t)) as [m0|] eqn:Hm0; [|done].
    simpl in Hm. destruct (loopBody cl m0) as [m1|] eqn:Hstep; [|done].
    injection Hm as ->. apply loopBody_Ok in Hstep.
    rewrite (bodyStep_last _ _ _ Hstep). f_equal.
    rewrite (built_length _ _ _ (built_rangeLoop _ _ _ _ _ (built_start t) Hm0)).
    simpl. apply (f_equal length) in Hinit. rewrite length_app in Hinit.
    simpl in Hinit. lia. }
  rewrite Hinit in HB. destruct (built_last_cell _ _ _ _ HB) as (n & Hn & Hbn).
  rewrite <- Hinit in HB.
  assert (Hlen : length init = length seen).
  { apply (f_equal length) in Hinit. rewrite length_app in Hinit.
    simpl in Hinit. lia. }
  rewrite Hlen in Hn.
  destruct (built_top _ _ _ _ _ _ HB HI Htop Hn) as (d0 & -> & Hchain & Hdepth).
  destruct Hbn as [Hdn _]. split_and!; [lia|done|done|].
  pose proof (built_length _ _ _ HB) as Hheap.
  destruct HB as [[(j & Hj & Hje & _) _ _ _] _]. rewrite Hj. f_equal.
  rewrite <- Hheap. lia.
Qed.

(** X5 (witness): after the first five calls of the tests, at depths 0,
    1, 2, 2 and 1, the stack holds the nodes 0 and 4 and two returns are
    gone. *)
Lemma stack_holds_one_node_per_open_level_witness :
  Z.of_nat (length (nodes Cases.afterFive)) = 1 - 0 + 1 ∧
  (∀ i p, nodes Cases.afterFive !! i = Some p →
     ∃ n, heap Cases.afterFive !! p = Some n ∧ depth n = 0 + Z.of_nat i) ∧
  last (nodes Cases.afterFive) = Some 4%nat ∧
  returnsOf Cases.afterFive =
    drop (5 - length (nodes Cases.afterFive))
      (motypes.InternalTxReturns Fixture.moTx4).
Proof.
  apply (stack_holds_one_node_per_open_level Fixture.moTx4
           (Fixture.call CALL 0 0xeef6c Fixture.sender Fixture.contract1
              "0xa11a1f360000000000000000000000000000000000000000000000000000000000000100")
           (take 4 (drop 1 (motypes.InternalTxCalls Fixture.moTx4)))
           (drop 5 (motypes.InternalTxCalls Fixture.moTx4))
           Fixture.fifth Cases.afterFive).
  - reflexivity.
  - repeat constructor; simpl; lia.
  - vm_compute. reflexivity.
  - reflexivity.
Defined.

(** X6. In the tree of a successful build (depths of the data model)
    every call but the first is linked under the nearest earlier call
    that is one level above it: its parent [j] comes before it, is one
    level above it, every call between the two is at least as deep as
    the call itself, and no other node has it under [Calls]. Pointers
    are ranks of call events. *)
Theorem call_is_under_nearest_call_one_level_up t p m i ci :
  Forall callDepthOK (motypes.InternalTxCalls t) →
  buildCallStack t = Ok (p, m) →
  motypes.InternalTxCalls t !! i = Some ci → (0 < i)%nat →
  ∃ j cj nj,
    (j < i)%nat ∧ motypes.InternalTxCalls t !! j = Some cj ∧
    heap m !! j = Some nj ∧ i ∈ Calls nj ∧
    motypes.Depth cj = motypes.Depth ci - 1 ∧
    (∀ k ck, (j < k < i)%nat → motypes.InternalTxCalls t !! k = Some ck →
       motypes.Depth ci <= motypes.Depth ck) ∧
    (∀ j' nj', heap m !! j' = Some nj' → i ∈ Calls nj' → j' = j).
Proof.
  intros Hok Hb Hci Hi.
  pose proof (buildCallStack_childDepth _ _ _ Hok Hb) as Hchild.
  destruct (buildCallStack_result _ _ _ Hb) as (_ & _ & Hbuilt & Hspan & _).
  assert (Hdepth : ∀ k ck nk, motypes.InternalTxCalls t !! k = Some ck →
                     heap m !! k = Some nk → depth nk = motypes.Depth ck).
  { intros k ck nk Hck Hnk.
    by destruct (Forall2_lookup_lr _ _ _ _ _ _ Hbuilt Hck Hnk) as [? _]. }
  destruct (Forall2_lookup_l _ _ _ _ _ Hbuilt Hci) as (ni & Hni & _).
  assert (Hparents : ∀ j nj, heap m !! j = Some nj → i ∈ Calls nj →
            (j < i)%nat ∧ depth nj = depth ni - 1 ∧
            ∀ q nq, (j < q < i)%nat → heap m !! q = Some nq →
              depth ni <= depth nq).
  { intros j nj Hnj Hin.
    destruct (child_position _ _ _ _ _ Hchild Hspan
                (lookup_lt_Some _ _ _ Hnj) Hnj Hin) as [Hlt Hbetween].
    destruct (Hchild _ _ _ Hnj Hin) as (ni' & Hni' & Hd).
    rewrite Hni in Hni'. injection Hni' as <-.
    split_and!; [done|lia|]. intros q nq Hq Hnq.
    pose proof (Hbetween q nq Hq Hnq). lia. }
  destruct (proj1 (span_spans_parent (heap m)) _ _ Hspan i)
    as (j & nj & Hj & Hnj & Hin).
  { split; [done|]. by apply lookup_lt_Some in Hni. }
  destruct (Hparents _ _ Hnj Hin) as (Hlt & Hdj & Hbetween).
  destruct (Forall2_lookup_r _ _ _ _ _ Hbuilt Hnj) as (cj & Hcj & _).
  exists j, cj, nj. split_and!; try done.
  - rewrite <- (Hdepth _ _ _ Hcj Hnj), <- (Hdepth _ _ _ Hci Hni). done.
  - intros k ck Hk Hck.
    destruct (Forall2_lookup_l _ _ _ _ _ Hbuilt Hck) as (nk & Hnk & _).
    rewrite <- (Hdepth _ _ _ Hck Hnk), <- (Hdepth _ _ _ Hci Hni). by eapply Hbetween.
  - intros j' nj' Hnj' Hin'.
    destruct (Hparents _ _ Hnj' Hin') as (Hlt' & Hdj' & Hbetween').
    destruct (Nat.lt_total j' j) as [Hc|[->|Hc]]; [|done|].
    + pose proof (Hbetween' j nj ltac:(lia) Hnj). lia.
    + pose proof (Hbetween j' nj' ltac:(lia) Hnj'). lia.
Qed.

(** X6 (witness): the sixth call of the tests (rank 5, depth 2) is under
    the fifth (rank 4, depth 1), not under the second. *)
Lemma call_is_under_nearest_call_one_level_up_witness :
  ∃ j cj nj,
    (j < 5)%nat ∧ motypes.InternalTxCalls Fixture.moTx4 !! j = Some cj ∧
    heap Fixture.built.2 !! j = Some nj ∧ 5%nat ∈ Calls nj ∧
    motypes.Depth cj = 2 - 1 ∧
    (∀ k ck, (j < k < 5)%nat → motypes.InternalTxCalls Fixture.moTx4 !! k = Some ck →
       2 <= motypes.Depth ck) ∧
    (∀ j' nj', heap Fixture.built.2 !! j' = Some nj' → 5%nat ∈ Calls nj' → j' = j).
Proof.
  apply (call_is_under_nearest_call_one_level_up Fixture.moTx4
           Fixture.built.1 Fixture.built.2 5%nat
           (Fixture.call CALL 2 0xd434e Fixture.contract2 Fixture.contract3
              "0xe73620c30000000000000000000000000000000000000000000000000000000000000106")).
  - repeat constructor; simpl; lia.
  - vm_compute. reflexivity.
  - reflexivity.
  - lia.
Defined.

(** X7. When the call events are nested but there are fewer return
    events than call events, the panic is the index out of range of the
    return queue or of the stack, never the depth error. *)
Theorem nested_calls_short_of_returns_panic_index_out_of_range t :
  Forall callDepthOK (motypes.InternalTxCalls t) →
  nestedCalls (motypes.InternalTxCalls t) = true →
  (length (motypes.InternalTxReturns t) < length (motypes.InternalTxCalls t))%nat →
  buildCallStack t = Panic IndexOutOfRange.
Proof.
  intros Hok Hnest Hlt.
  destruct (buildCallStack t) as [[p m]|e] eqn:Hb.
  { apply buildCallStack_result in Hb as (_ & _ & _ & _ & _ & _ & Hle). lia. }
  f_equal. revert Hb. unfold buildCallStack. fold (start t).
  destruct (rangeLoop _ _) as [m1|e1] eqn:Hm1; simpl.
  - destruct (nodes m1 !! 0%nat); [|by intros [= <-]].
    rewrite drainLoop_popMany by done.
    destruct (popMany _ m1) as [m|e2] eqn:Hm; simpl; [done|].
    intros [= <-]. by apply popMany_Panic in Hm as [-> _].
  - intros [= <-].
    apply (rangeLoop_Panic _ _ [] _ _ (built_start t)) in Hm1
      as [->|(i & ci & cj & Hci & Hcj & _ & Hskip)]; [done| |by intros top|].
    + simpl in Hci, Hcj. unfold nestedCalls in Hnest.
      destruct (motypes.InternalTxCalls t) as [|c0 calls]; [done|].
      rewrite fmap_cons in Hnest.
      pose proof (nestedUnder_no_skip _ _ _ Hnest i (motypes.Depth ci)
                    (motypes.Depth cj)) as Hno.
      rewrite <- fmap_cons in Hno.
      rewrite !list_lookup_fmap, Hci, Hcj in Hno. specialize (Hno eq_refl eq_refl).
      lia.
    + eapply Forall_impl; [done|]. apply callDepthOK_int32.
Qed.

(** X7 (witness): the calls of the tests with six return events. *)
Lemma nested_calls_short_of_returns_panic_index_out_of_range_witness :
  buildCallStack Fixture.oneReturnShort = Panic IndexOutOfRange.
Proof.
  apply (nested_calls_short_of_returns_panic_index_out_of_range
           Fixture.oneReturnShort).
  - repeat constructor; simpl; lia.
  - reflexivity.
  - simpl. lia.
Defined.

(** X8. The subtraction [lastNode.depth - call.Depth] is made in
    [int32]: when the call event is [2^31] levels or more below the node
    on top of the stack (which takes a negative depth), the difference
    wraps around to a negative number, the inner loop does not run, no
    open call is closed and no return event is consumed; the new node is
    linked under the node on top and pushed, as for a call one level
    deeper. *)
Theorem depth_difference_overflow_closes_nothing call m top ln :
  last (nodes m) = Some top → heap m !! top = Some ln →
  int32 (depth ln) → int32 (motypes.Depth call) →
  2 ^ 31 <= depth ln - motypes.Depth call →
  loopBody call m =
    Ok (push (length (heap m))
          (appendCall top (length (heap m)) (allocated call m))).
Proof.
  intros Htop Hln Hi1 Hi2 Hfar. rewrite loopBody_unfold, Htop. unfold deref.
  rewrite (allocated_lookup call _ _ _ Hln). simpl.
  destruct (_ =? _); [done|].
  assert (Hle : (motypes.Depth call <=? depth ln) = true).
  { apply Z.leb_le. change (2 ^ 31) with 2147483648 in Hfar. lia. }
  rewrite Hle.
  assert (Hn : iterations (wrap32 (depth ln - motypes.Depth call)) = 0%nat).
  { assert (Hneg : wrap32 (depth ln - motypes.Depth call) + 1 <= 0).
    { unfold wrap32, int32 in *.
      change (2 ^ 31) with 2147483648 in *. change (2 ^ 32) with 4294967296.
      Z.div_mod_to_equations. lia. }
    unfold iterations. lia. }
  rewrite Hn. simpl. unfold lastNodeOf.
  change (nodes (allocated call m)) with (nodes m). by rewrite Htop.
Qed.

(** X8 (witness): a call at depth [-2^31] after a call at depth 0. *)
Lemma depth_difference_overflow_closes_nothing_witness :
  loopBody (Fixture.call CALL (- 2 ^ 31) 50 Fixture.contract1 Fixture.contract2 "0x")
    Cases.afterFirstNegative =
    Ok (push 1%nat
          (appendCall 0%nat 1%nat
             (allocated
                (Fixture.call CALL (- 2 ^ 31) 50 Fixture.contract1
                   Fixture.contract2 "0x")
                Cases.afterFirstNegative))).
Proof.
  apply (depth_difference_overflow_closes_nothing
           (Fixture.call CALL (- 2 ^ 31) 50 Fixture.contract1 Fixture.contract2 "0x")
           Cases.afterFirstNegative 0%nat
           (newNode (Fixture.call CALL 0 100 Fixture.sender Fixture.contract1 "0x"))).
  - reflexivity.
  - reflexivity.
  - unfold int32. simpl. lia.
  - unfold int32. simpl. lia.
  - simpl. lia.
Defined.

(** X9. The shape of the tree depends on the depths of the call events
    only: two traces with the same sequence of depths that both build
    give trees with the same root and the same pointers under [Calls] of
    every node, whatever their addresses, payloads and return events. *)
Theorem tree_shape_depends_on_depths_only t t' p m p' m' :
  Forall callDepthOK (motypes.InternalTxCalls t) →
  motypes.Depth <$> motypes.InternalTxCalls t =
    motypes.Depth <$> motypes.InternalTxCalls t' →
  buildCallStack t = Ok (p, m) → buildCallStack t' = Ok (p', m') →
  p = p' ∧ Calls <$> heap m = Calls <$> heap m'.
Proof.
  intros Hok Hdepths Hb Hb'.
  assert (Hok' : Forall callDepthOK (motypes.InternalTxCalls t')).
  { apply Forall_forall. intros c' [k Hk]%list_elem_of_lookup_1.
    assert (Hdk : (motypes.Depth <$> motypes.InternalTxCalls t) !! k =
                  Some (motypes.Depth c'))
      by (by rewrite Hdepths, list_lookup_fmap, Hk).
    rewrite list_lookup_fmap in Hdk.
    destruct (motypes.InternalTxCalls t !! k) as [c|] eqn:Hc; [|done].
    injection Hdk as Hdk. pose proof (Forall_lookup_1 _ _ _ _ Hok Hc) as Hck.
    unfold callDepthOK in *. by rewrite <- Hdk. }
  pose proof (buildCallStack_childDepth _ _ _ Hok Hb) as Hchild.
  pose proof (buildCallStack_childDepth _ _ _ Hok' Hb') as Hchild'.
  destruct (buildCallStack_result _ _ _ Hb) as (-> & _ & Hbuilt & Hspan & _).
  destruct (buildCallStack_result _ _ _ Hb') as (-> & _ & Hbuilt' & Hspan' & _).
  split; [done|].
  assert (Hlen : length (heap m') = length (heap m)).
  { rewrite <- (Forall2_length _ _ _ Hbuilt), <- (Forall2_length _ _ _ Hbuilt').
    by rewrite <- (length_fmap motypes.Depth), <- Hdepths, length_fmap. }
  rewrite Hlen in Hspan'.
  assert (Hd : ∀ k nk nk', heap m !! k = Some nk → heap m' !! k = Some nk' →
                 depth nk = depth nk').
  { intros k nk nk' Hnk Hnk'.
    destruct (Forall2_lookup_r _ _ _ _ _ Hbuilt Hnk) as (c & Hc & [-> _]).
    destruct (Forall2_lookup_r _ _ _ _ _ Hbuilt' Hnk') as (c' & Hc' & [-> _]).
    assert (Hdk : (motypes.Depth <$> motypes.InternalTxCalls t) !! k =
                  Some (motypes.Depth c'))
      by (by rewrite Hdepths, list_lookup_fmap, Hc').
    rewrite list_lookup_fmap, Hc in Hdk. by injection Hdk. }
  apply list_eq_same_length with (length (heap m));
    [by rewrite length_fmap|by rewrite length_fmap|].
  intros j cs cs' Hj. rewrite !list_lookup_fmap.
  destruct (heap m !! j) as [nj|] eqn:Hnj; [|done].
  destruct (heap m' !! j) as [nj'|] eqn:Hnj'; [|done].
  intros [= <-] [= <-].
  apply StronglySorted_lt_ext.
  - apply (span_calls_sorted (heap m) (length (heap m)) j nj Hspan Hnj Hj).
  - apply (span_calls_sorted (heap m') (length (heap m)) j nj' Hspan' Hnj' Hj).
  - intros i. split.
    + by apply (children_follow_depths (heap m) (heap m') (length (heap m))
                  j nj nj' i).
    + apply (children_follow_depths (heap m') (heap m) (length (heap m))
               j nj' nj i); try done.
      intros k nk' nk Hk' Hk. symmetry. by eapply Hd.
Qed.

(** X9 (witness): the transaction of the tests and a trace with the same
    depths, other addresses, no payloads and nine failed returns. *)
Lemma tree_shape_depends_on_depths_only_witness :
  Fixture.built.1 = Cases.builtSameDepths.1 ∧
  Calls <$> heap Fixture.built.2 = Calls <$> heap Cases.builtSameDepths.2.
Proof.
  apply (tree_shape_depends_on_depths_only Fixture.moTx4 Cases.sameDepths).
  - repeat constructor; simpl; lia.
  - reflexivity.
  - vm_compute. reflexivity.
  - vm_compute. reflexivity.
Defined.

(** ** The debug API *)

(** X10. [toMB] rounds a number of bytes down to whole mebibytes
    (anything below 1048576 bytes is reported as 0), and the result of a
    [uint64] is below [2^44]: the two divisions never leave [uint64]. *)
Theorem toMB_rounds_down n :
  uint64 n →
  debug_api.toMB n = n / 1048576 ∧
  1048576 * debug_api.toMB n <= n < 1048576 * (debug_api.toMB n + 1) ∧
  0 <= debug_api.toMB n < 2 ^ 44.
Proof.
  unfold uint64, debug_api.toMB. change (2 ^ 64) with 18446744073709551616.
  change (2 ^ 44) with 17592186044416. intros Hn.
  rewrite Z.div_div by lia. change (1024 * 1024) with 1048576.
  split; [done|]. Z.div_mod_to_equations. lia.
Qed.

(** X10 (witness): one byte less than three mebibytes is reported as 2. *)
Lemma toMB_rounds_down_witness :
  debug_api.toMB 3145727 = 3145727 / 1048576 ∧
  1048576 * debug_api.toMB 3145727 <= 3145727 <
    1048576 * (debug_api.toMB 3145727 + 1) ∧
  0 <= debug_api.toMB 3145727 < 2 ^ 44.
Proof.
  apply (toMB_rounds_down 3145727).
  unfold uint64. change (2 ^ 64) with 18446744073709551616. lia.
Defined.

(** X11. When no entry of [infos.OnlineInfos] is nil,
    [castValidatorOnlineInfos] does not panic (every index it writes is
    inside the slice it made) and copies every entry: the result has the
    start height of its argument and as many entries, none of them nil,
    the entry of rank [i] carrying the address, the signature count and
    the height of last signature of the online info of rank [i]. *)
Theorem castValidatorOnlineInfos_copies_every_entry infos :
  Forall is_Some (stakingtypes.OnlineInfos infos) →
  ∃ out,
    debug_api.castValidatorOnlineInfos infos = Ok out ∧
    debug_api.StartHeight out = stakingtypes.StartHeight infos ∧
    Forall2
      (λ p q, ∃ onlineInfo x, p = Some onlineInfo ∧ q = Some x ∧
         debug_api.ValidatorConsensusAddress x =
           stakingtypes.ValidatorConsensusAddress onlineInfo ∧
         debug_api.SignatureCount x = stakingtypes.SignatureCount onlineInfo ∧
         debug_api.HeightOfLastSignature x =
           stakingtypes.HeightOfLastSignature onlineInfo)
      (stakingtypes.OnlineInfos infos) (debug_api.OnlineInfos out).
Proof.
  intros [os Hos]%Forall_is_Some_fmap.
  unfold debug_api.castValidatorOnlineInfos. rewrite Hos.
  rewrite castLoop_spec by (rewrite length_replicate, length_fmap; lia).
  simpl. eexists. split_and!; [done..|]. simpl.
  rewrite drop_ge by (rewrite length_replicate, length_fmap; lia).
  rewrite app_nil_r. apply Forall2_fmap, Forall_Forall2_diag, Forall_forall.
  intros o _. eexists _, _. split_and!; reflexivity.
Qed.

(** X11 (witness): the online infos of two validators. *)
Lemma castValidatorOnlineInfos_copies_every_entry_witness :
  ∃ out,
    debug_api.castValidatorOnlineInfos Cases.validators = Ok out ∧
    debug_api.StartHeight out = 100 ∧
    Forall2
      (λ p q, ∃ onlineInfo x, p = Some onlineInfo ∧ q = Some x ∧
         debug_api.ValidatorConsensusAddress x =
           stakingtypes.ValidatorConsensusAddress onlineInfo ∧
         debug_api.SignatureCount x = stakingtypes.SignatureCount onlineInfo ∧
         debug_api.HeightOfLastSignature x =
           stakingtypes.HeightOfLastSignature onlineInfo)
      (stakingtypes.OnlineInfos Cases.validators) (debug_api.OnlineInfos out).
Proof.
  apply (castValidatorOnlineInfos_copies_every_entry Cases.validators).
  repeat constructor; eexists; reflexivity.
Defined.

(** X12. The stats are cached for the update interval. A call that comes
    more than 60 seconds after the last update refreshes the stats and
    records its time; every call after it whose clock is at most 60
    seconds later (or behind) returns those same stats, whatever the
    runtime and the operating system report meanwhile, and changes
    nothing. *)
Theorem stats_cached_for_the_interval w ws api :
  - 2 ^ 63 <= debug_api.lastUpdateTime api →
  debug_api.lastUpdateTime api + 60 < debug_api.now w →
  debug_api.now w + 60 < 2 ^ 63 →
  Forall (λ w', debug_api.now w' <= debug_api.now w + 60) ws →
  debug_api.serve (w :: ws) api =
    (replicate (S (length ws)) (debug_api.stats (debug_api.updateStats w api)),
     {| debug_api.lastUpdateTime := debug_api.now w;
        debug_api.stats := debug_api.stats (debug_api.updateStats w api) |}).
Proof.
  intros Hlo Hdue Hhi Hws. cbn [debug_api.serve].
  unfold debug_api.GetStats, debug_api.LoadInt64.
  rewrite afterLoad_due; cycle 1.
  { unfold int64, debug_api.StatusUpdateInterval.
    change (2 ^ 63) with 9223372036854775808 in *. lia. }
  { unfold debug_api.StatusUpdateInterval. lia. }
  rewrite serve_early; [done| |done].
  simpl. unfold int64, debug_api.StatusUpdateInterval.
  change (2 ^ 63) with 9223372036854775808 in *. lia.
Qed.

(** X12 (witness): on a new API a call at 1000 s refreshes, and a call at
    1030 s gets the stats of the first. *)
Lemma stats_cached_for_the_interval_witness :
  debug_api.serve [Cases.clock1000; Cases.clock1030] debug_api.newDebugAPI =
    (replicate 2
       (debug_api.stats
          (debug_api.updateStats Cases.clock1000 debug_api.newDebugAPI)),
     {| debug_api.lastUpdateTime := 1000;
        debug_api.stats :=
          debug_api.stats
            (debug_api.updateStats Cases.clock1000 debug_api.newDebugAPI) |}).
Proof.
  apply (stats_cached_for_the_interval Cases.clock1000 [Cases.clock1030]
           debug_api.newDebugAPI).
  - simpl. lia.
  - simpl. lia.
  - simpl. lia.
  - repeat constructor; simpl; lia.
Defined.

(** X13. The stats returned are never older than the update interval:
    with a clock that does not go back, and once a first call has
    refreshed, every call returns stats that report the readings of a
    call at most 60 seconds before it (its own readings or those of an
    earlier call of the sequence). *)
Theorem stats_are_never_older_than_the_interval w ws api :
  - 2 ^ 63 <= debug_api.lastUpdateTime api →
  debug_api.lastUpdateTime api + 60 < debug_api.now w →
  StronglySorted Z.le (debug_api.now <$> w :: ws) →
  Forall (λ w', debug_api.now w' < 2 ^ 63 - 60) (w :: ws) →
  Forall2
    (λ w' s, ∃ w0,
       w0 ∈ w :: ws ∧
       debug_api.now w' - 60 <= debug_api.now w0 <= debug_api.now w' ∧
       debug_api.reports w0 s)
    (w :: ws) (debug_api.serve (w :: ws) api).1.
Proof.
  intros Hlo Hdue Hsorted Hhi. apply Forall_cons_1 in Hhi as [Hw Hhi].
  rewrite fmap_cons in Hsorted.
  assert (Hbound : Forall (λ w', - 2 ^ 63 <= debug_api.now w' < 2 ^ 63 - 60) ws).
  { apply StronglySorted_inv in Hsorted as [_ Hall].
    apply Forall_forall. intros w' Hin.
    pose proof (proj1 (Forall_forall _ _) Hall _
                  (list_elem_of_fmap_2 debug_api.now _ _ Hin)) as H1.
    pose proof (proj1 (Forall_forall _ _) Hhi w' Hin) as H2.
    cbn beta in H1, H2. lia. }
  cbn [debug_api.serve]. unfold debug_api.GetStats, debug_api.LoadInt64.
  rewrite afterLoad_due; cycle 1.
  { unfold int64, debug_api.StatusUpdateInterval.
    change (2 ^ 63) with 9223372036854775808 in *. lia. }
  { unfold debug_api.StatusUpdateInterval. lia. }
  set (api1 := {| debug_api.lastUpdateTime := debug_api.now w;
                  debug_api.stats :=
                    debug_api.stats (debug_api.updateStats w api) |}).
  assert (Hnow : - 2 ^ 63 <= debug_api.now w < 2 ^ 63 - 60) by lia.
  pose proof (serve_fresh ws api1 w eq_refl (updateStats_reports w api)
                Hnow Hsorted Hbound) as Hrest.
  destruct (debug_api.serve ws api1) as [ss api2]. cbn [fst] in *.
  constructor.
  - exists w. split_and!; [by left|lia|lia|apply updateStats_reports].
  - done.
Qed.

(** X13 (witness): calls at 1000, 1030 and 1061 seconds on a new API. *)
Lemma stats_are_never_older_than_the_interval_witness :
  Forall2
    (λ w' s, ∃ w0,
       w0 ∈ [Cases.clock1000; Cases.clock1030; Cases.clock1061] ∧
       debug_api.now w' - 60 <= debug_api.now w0 <= debug_api.now w' ∧
       debug_api.reports w0 s)
    [Cases.clock1000; Cases.clock1030; Cases.clock1061]
    (debug_api.serve [Cases.clock1000; Cases.clock1030; Cases.clock1061]
       debug_api.newDebugAPI).1.
Proof.
  apply (stats_are_never_older_than_the_interval Cases.clock1000
           [Cases.clock1030; Cases.clock1061] debug_api.newDebugAPI).
  - simpl. lia.
  - simpl. lia.
  - repeat constructor; simpl; lia.
  - repeat constructor; simpl; lia.
Defined.

(** X14. Of two callers that have loaded the same [lastUpdateTime], only
    the first to swap updates: once the first, being due, has stored its
    time and refreshed the stats, the compare-and-swap of the second
    fails whatever its clock, and the second updates nothing and returns
    the stats of the first. *)
Theorem caller_with_stale_load_does_not_update now1 now2 w1 w2 api :
  - 2 ^ 63 <= debug_api.lastUpdateTime api →
  debug_api.lastUpdateTime api + 60 < now1 → now1 < 2 ^ 63 →
  ∃ api1,
    debug_api.afterLoad now1 (debug_api.lastUpdateTime api) w1 api =
      (debug_api.stats (debug_api.updateStats w1 api), api1) ∧
    debug_api.lastUpdateTime api1 = now1 ∧
    debug_api.stats api1 = debug_api.stats (debug_api.updateStats w1 api) ∧
    debug_api.afterLoad now2 (debug_api.lastUpdateTime api) w2 api1 =
      (debug_api.stats api1, api1).
Proof.
  intros Hlo Hdue Hhi. eexists. split_and!.
  - apply afterLoad_due.
    + unfold int64, debug_api.StatusUpdateInterval.
      change (2 ^ 63) with 9223372036854775808 in *. lia.
    + unfold debug_api.StatusUpdateInterval. lia.
  - reflexivity.
  - reflexivity.
  - apply afterLoad_stale. simpl. lia.
Qed.

(** X14 (witness): two callers on a new API, at 1000 and 1061 seconds,
    both having loaded 0. *)
Lemma caller_with_stale_load_does_not_update_witness :
  ∃ api1,
    debug_api.afterLoad 1000 0 Cases.clock1000 debug_api.newDebugAPI =
      (debug_api.stats
         (debug_api.updateStats Cases.clock1000 debug_api.newDebugAPI), api1) ∧
    debug_api.lastUpdateTime api1 = 1000 ∧
    debug_api.stats api1 =
      debug_api.stats
        (debug_api.updateStats Cases.clock1000 debug_api.newDebugAPI) ∧
    debug_api.afterLoad 1061 0 Cases.clock1061 api1 =
      (debug_api.stats api1, api1).
Proof.
  apply (caller_with_stale_load_does_not_update 1000 1061 Cases.clock1000
           Cases.clock1061 debug_api.newDebugAPI).
  - simpl. lia.
  - simpl. lia.
  - lia.
Defined.

(** X15. The time of the last update only moves forward: after any
    sequence of calls it is what it was, or the clock of one of the
    calls and more than 60 seconds later than it was. A clock set back
    never takes it back. *)
Theorem lastUpdateTime_only_moves_forward ws api :
  - 2 ^ 63 <= debug_api.lastUpdateTime api < 2 ^ 63 - 60 →
  Forall (λ w, debug_api.now w < 2 ^ 63 - 60) ws →
  debug_api.lastUpdateTime (debug_api.serve ws api).2 =
    debug_api.lastUpdateTime api ∨
  (debug_api.lastUpdateTime api + 60 <
     debug_api.lastUpdateTime (debug_api.serve ws api).2 ∧
   ∃ w, w ∈ ws ∧
     debug_api.lastUpdateTime (debug_api.serve ws api).2 = debug_api.now w).
Proof.
  intros Hlast Hws. revert api Hlast.
  induction Hws as [|w ws Hw _ IH]; intros api Hlast; [by left|].
  cbn [debug_api.serve].
  destruct (GetStats_step w api Hlast) as [Heq|[Hdue Hnow]];
    destruct (debug_api.GetStats w api) as [s api1]; simpl in Heq || simpl in Hnow.
  - subst api1. specialize (IH api Hlast).
    destruct (debug_api.serve ws api) as [ss api2]. simpl in *.
    destruct IH as [?|(? & w' & ? & ?)]; [by left|right].
    split; [done|]. exists w'. split; [by right|done].
  - assert (Hlast1 : - 2 ^ 63 <= debug_api.lastUpdateTime api1 < 2 ^ 63 - 60)
      by lia.
    specialize (IH api1 Hlast1).
    destruct (debug_api.serve ws api1) as [ss api2]. simpl in *. right.
    destruct IH as [Hsame|(? & w' & ? & ?)].
    + split; [lia|]. exists w. split; [by left|lia].
    + split; [lia|]. exists w'. split; [by right|done].
Qed.

(** X15 (witness): calls at 1000, 1030 and 1061 seconds on a new API. *)
Lemma lastUpdateTime_only_moves_forward_witness :
  debug_api.lastUpdateTime
    (debug_api.serve [Cases.clock1000; Cases.clock1030; Cases.clock1061]
       debug_api.newDebugAPI).2 = 0 ∨
  (0 + 60 <
     debug_api.lastUpdateTime
       (debug_api.serve [Cases.clock1000; Cases.clock1030; Cases.clock1061]
          debug_api.newDebugAPI).2 ∧
   ∃ w, w ∈ [Cases.clock1000; Cases.clock1030; Cases.clock1061] ∧
     debug_api.lastUpdateTime
       (debug_api.serve [Cases.clock1000; Cases.clock1030; Cases.clock1061]
          debug_api.newDebugAPI).2 = debug_api.now w).
Proof.
  apply (lastUpdateTime_only_moves_forward
           [Cases.clock1000; Cases.clock1030; Cases.clock1061]
           debug_api.newDebugAPI).
  - simpl. lia.
  - repeat constructor; simpl; lia.
Defined.

(** X16. A failure of [memory.Get] is not reported: as long as it fails,
    the nine figures of the operating system in the stats returned stay
    what they were (zero on a new API), while the other figures are
    refreshed as usual. *)
Theorem os_figures_stay_while_memory_Get_fails ws api :
  Forall (λ w, debug_api.osMemStats w = None) ws →
  Forall (λ s, debug_api.osFigures s = debug_api.osFigures (debug_api.stats api))
    (debug_api.serve ws api).1 ∧
  debug_api.osFigures (debug_api.stats (debug_api.serve ws api).2) =
    debug_api.osFigures (debug_api.stats api).
Proof.
  intros Hws. revert api.
  induction Hws as [|w ws Hw _ IH]; intros api; [by split|].
  cbn [debug_api.serve]. unfold debug_api.GetStats.
  pose proof (afterLoad_osFigures (debug_api.now w) (debug_api.LoadInt64 api)
                w api Hw) as Hstep.
  destruct (debug_api.afterLoad _ _ w api) as [s api1] eqn:Hrun.
  assert (Hs : s = debug_api.stats api1).
  { unfold debug_api.afterLoad in Hrun. by injection Hrun as <- <-. }
  specialize (IH api1). destruct (debug_api.serve ws api1) as [ss api2].
  simpl in *. destruct IH as [IH1 IH2]. rewrite Hstep in IH1, IH2.
  split; [|done]. constructor; [by rewrite Hs|done].
Qed.

(** X16 (witness): two calls, both with [memory.Get] failing, on a new
    API. *)
Lemma os_figures_stay_while_memory_Get_fails_witness :
  Forall (λ s, debug_api.osFigures s =
               debug_api.osFigures (debug_api.stats debug_api.newDebugAPI))
    (debug_api.serve [Cases.clock1030; Cases.clock1061] debug_api.newDebugAPI).1 ∧
  debug_api.osFigures
    (debug_api.stats
       (debug_api.serve [Cases.clock1030; Cases.clock1061]
          debug_api.newDebugAPI).2) =
    debug_api.osFigures (debug_api.stats debug_api.newDebugAPI).
Proof.
  apply (os_figures_stay_while_memory_Get_fails
           [Cases.clock1030; Cases.clock1061] debug_api.newDebugAPI).
  repeat constructor.
Defined.
